(** * cocotbext-axi: the AXI-lite RAM model ([cocotbext/axi/axil_ram.py])

    A shallow embedding of [AxiLiteRamWrite], [AxiLiteRamRead] and of the
    composite [AxiLiteRam], followed by the properties of the write and read
    engines: address alignment, byte-lane masking, little-endian packing,
    FIFO pairing of beats, responses, and the reset handlers.

    Python integers are [Z]; lengths ([len(...)]) are [nat]; a [bytes] value
    is a [list byte].  A raised exception is a value of [Exn]; a coroutine
    is a program counter with its live local variables. *)

From Stdlib Require Import ZArith Lia.
From Stdlib.Strings Require Import Byte.
From stdpp Require Import base option list gmap.

Set Default Proof Using "Type".

(* ===================================================================== *)
(** * Python values *)
(* ===================================================================== *)

(** The exceptions the code can raise. *)
Inductive Exn : Type :=
  | ZeroDivisionError
  | ValueError
  | OverflowError
  | AssertionError
  | AttributeError.

(** The outcome of an expression that may raise. *)
Inductive Res (A : Type) : Type :=
  | Ok (a : A)
  | Raise (e : Exn).
Arguments Ok {A} a.
Arguments Raise {A} e.

#[export] Instance Res_ret : MRet Res := fun A a => Ok a.
#[export] Instance Res_bind : MBind Res := fun A B f r =>
  match r with
  | Ok a => f a
  | Raise e => Raise e
  end.

(** [a // b] and [a % b] on integers: floor division, the sign of the
    remainder follows the divisor, and a zero divisor raises. *)
Definition py_floordiv (a b : Z) : Res Z :=
  if (b =? 0)%Z then Raise ZeroDivisionError else Ok (a / b)%Z.

Definition py_mod (a b : Z) : Res Z :=
  if (b =? 0)%Z then Raise ZeroDivisionError else Ok (a mod b)%Z.

(** One octet as an integer, and back ([bytes] items are ints in 0..255). *)
Definition Z_of_byte (b : byte) : Z := Z.of_N (Byte.to_N b).

Definition byte_of_Z (z : Z) : byte :=
  match Byte.of_N (Z.to_N (z mod 256)) with
  | Some b => b
  | None => x00
  end.

(** [x.to_bytes(n, 'little')]: the [n] low octets of [x], least significant
    first; a negative [x] or one that needs more than [n] octets raises
    [OverflowError]. *)
Fixpoint le_octets (n : nat) (x : Z) : list byte :=
  match n with
  | O => []
  | S n' => byte_of_Z (x mod 256) :: le_octets n' (x / 256)
  end.

Definition to_bytes (x : Z) (n : nat) : Res (list byte) :=
  if (x <? 0)%Z then Raise OverflowError
  else if (2 ^ (8 * Z.of_nat n) <=? x)%Z then Raise OverflowError
  else Ok (le_octets n x).

(** [int.from_bytes(data, 'little')]. *)
Fixpoint from_bytes (data : list byte) : Z :=
  match data with
  | [] => 0
  | b :: rest => Z_of_byte b + 256 * from_bytes rest
  end.

(** [data[lo:hi]] for [0 <= lo <= hi]. *)
Definition py_slice {A} (data : list A) (lo hi : nat) : list A :=
  take (hi - lo) (drop lo data).

(** [obj.name] on an attribute that the object may lack. *)
Definition attribute {A} (field : option A) : Res A :=
  match field with
  | Some v => Ok v
  | None => Raise AttributeError
  end.

(** [getattr(obj, name, dflt)] on an attribute that the object may lack. *)
Definition getattr {A} (field : option A) (dflt : A) : A :=
  match field with
  | Some v => v
  | None => dflt
  end.

(* ===================================================================== *)
(** * Constants ([constants.py]) *)
(* ===================================================================== *)

(** Modelled from the spec: [AxiProt] of [constants.py], which is not among
    the sources.  The protection field is an integer flag; the spec only
    says that [NONSECURE] is a fixed value, and the AXI encoding of the
    non-secure bit (AxPROT[1]) is used for it here.  [AxiProt(v)] keeps the
    integer [v]. *)
Definition AxiProt : Type := Z.
Definition NONSECURE : AxiProt := 2%Z.
Definition AxiProt_of (v : Z) : AxiProt := v.

(** Modelled from the spec: [AxiResp] of [constants.py], which is not among
    the sources.  [OKAY] is the success status, the only one the engines
    produce; the other three are the remaining AXI response codes. *)
Inductive AxiResp : Type := OKAY | EXOKAY | SLVERR | DECERR.

(* ===================================================================== *)
(** * The backing store ([self.mem]) *)
(* ===================================================================== *)

(** [self.mem]: the engines use it through the methods [seek], [write] and
    [read] of a Python file object over a buffer of fixed length, an [mmap],
    which is a byte sequence with a file position.  None of these methods
    goes past the end of the buffer: [seek] and [write] refuse to, [read]
    stops there.  The engines reduce the address modulo [self.size] before
    they call [seek] (lines 113 and 200). *)
Record Mem : Type := MkMem {
  mem_buf : list byte;
  mem_pos : nat
}.

(** Modelled from the spec: [Memory] of [memory.py], which is not among the
    sources, provides [self.mem] and [self.size].  The store is "a byte
    sequence of fixed configured size": [self.size] is the length of
    [self.mem]. *)
Definition Memory_size (m : Mem) : nat := length (mem_buf m).

(** What a logger receives from the two engines. *)
Inductive LogRecord : Type :=
  | LogResetAsserted
  | LogResetDeasserted
  | LogWrite (awaddr : Z) (awprot : AxiProt) (wstrb : Z) (data : list byte)
  | LogRead (araddr : Z) (arprot : AxiProt) (data : list byte).

(** What the body of an engine acts on: the store and the log. *)
Record World : Type := MkWorld {
  mem : Mem;
  log : list LogRecord
}.

(** Computations on the world that may raise; the effects made before an
    exception stay. *)
Definition M (A : Type) : Type := World -> World * Res A.

#[export] Instance M_ret : MRet M := fun A a w => (w, Ok a).
#[export] Instance M_bind : MBind M := fun A B f c w =>
  match c w with
  | (w', Ok a) => f a w'
  | (w', Raise e) => (w', Raise e)
  end.

Definition lift {A} (r : Res A) : M A := fun w => (w, r).

Definition set_mem (m : Mem) (w : World) : World :=
  {| mem := m; log := log w |}.

(** [self.log.info(...)]: the record is emitted when the level is enabled. *)
Definition log_info (enabled : bool) (r : LogRecord) : M unit := fun w =>
  (if enabled then {| mem := mem w; log := log w ++ [r] |} else w, Ok tt).

(** A computation leaves an aspect of the world as it finds it, also when
    it raises. *)
Definition preserves {X A} (view : World → X) (c : M A) : Prop :=
  ∀ w, view (c w).1 = view w.

(** The bytes of the store, without the file position. *)
Definition store (w : World) : list byte := mem_buf (mem w).

(** [mem.seek(pos)]: an absolute position outside [0, len] is refused. *)
Definition mmap_seek (pos : Z) : M unit := fun w =>
  let m := mem w in
  if ((pos <? 0) || (Z.of_nat (length (mem_buf m)) <? pos))%Z
  then (w, Raise ValueError)
  else (set_mem {| mem_buf := mem_buf m; mem_pos := Z.to_nat pos |} w, Ok tt).

(** [mem.seek(off, 1)]: relative to the current position. *)
Definition mmap_seek_cur (off : Z) : M unit := fun w =>
  mmap_seek (Z.of_nat (mem_pos (mem w)) + off) w.

(** [mem.write(data)]: the bytes are stored at the position, which moves
    past them; data that does not fit before the end is refused and nothing
    is stored. *)
Definition mmap_write (data : list byte) : M unit := fun w =>
  let m := mem w in
  if (length (mem_buf m) <? mem_pos m) ||
     (length (mem_buf m) - mem_pos m <? length data)
  then (w, Raise ValueError)
  else (set_mem {| mem_buf := list_inserts (mem_pos m) data (mem_buf m);
                   mem_pos := mem_pos m + length data |} w, Ok tt).

(** [mem.read(n)]: at most [n] bytes from the position, fewer when the end
    of the buffer comes first; the position moves past what was read. *)
Definition mmap_read (n : Z) : M (list byte) := fun w =>
  let m := mem w in
  let remaining := length (mem_buf m) - mem_pos m in
  let k := if ((n <? 0) || (Z.of_nat remaining <? n))%Z
           then remaining else Z.to_nat n in
  (set_mem {| mem_buf := mem_buf m; mem_pos := mem_pos m + k |} w,
   Ok (take k (drop (mem_pos m) (mem_buf m)))).

(** The address rounded down to a multiple of the number of byte lanes. *)
Definition aligned (lanes : nat) (addr : Z) : Z :=
  (addr / Z.of_nat lanes * Z.of_nat lanes)%Z.

(** The offset in a store of [size] bytes at which an access to [addr]
    starts. *)
Definition offset (size : nat) (addr : Z) : nat :=
  Z.to_nat (addr mod Z.of_nat size).

(** The run of [lanes] bytes that starts at the offset of [addr] lies
    inside a store of [size] bytes. *)
Definition run_fits (size lanes : nat) (addr : Z) : Prop :=
  0 < size ∧ offset size addr + lanes ≤ size.

(* ===================================================================== *)
(** * Beats and channel endpoints ([axil_channels.py]) *)
(* ===================================================================== *)

(** The beats of the five channels.  A field is [None] when the bus has no
    such wire and the transaction object therefore lacks the attribute. *)
Record AWBeat : Type := MkAW { awaddr : Z; awprot : option Z }.
Record WBeat : Type := MkW { wdata : Z; wstrb : option Z }.
Record BBeat : Type := MkB { bresp : AxiResp }.
Record ARBeat : Type := MkAR { araddr : Z; arprot : option Z }.
Record RBeat : Type := MkR { rdata : Z; rresp : AxiResp }.

(** Modelled from the spec: the sink and source endpoints of
    [axil_channels.py], which is not among the sources.  An endpoint is a
    first-in-first-out queue of beats with an occupancy limit. *)
Record Channel (T : Type) : Type := MkChannel {
  queue : list T;
  queue_occupancy_limit : nat
}.
Arguments MkChannel {T} queue queue_occupancy_limit.
Arguments queue {T} c.
Arguments queue_occupancy_limit {T} c.

Section channel.
Context {T : Type}.

Definition new_channel (limit : nat) : Channel T :=
  {| queue := []; queue_occupancy_limit := limit |}.

Definition full (c : Channel T) : bool :=
  queue_occupancy_limit c <=? length (queue c).

(** The wire side of a sink: a beat that the master presents joins
    the back of the queue, unless the sink is full and refuses the
    handshake. *)
Definition offer (x : T) (c : Channel T) : option (Channel T) :=
  if full c then None
  else Some {| queue := queue c ++ [x];
               queue_occupancy_limit := queue_occupancy_limit c |}.

(** [recv()]: the oldest beat; [None] when the caller has to suspend. *)
Definition recv (c : Channel T) : option (T * Channel T) :=
  match queue c with
  | [] => None
  | x :: rest =>
      Some (x, {| queue := rest;
                  queue_occupancy_limit := queue_occupancy_limit c |})
  end.

(** [send(beat)]: the beat joins the queue of the source; the caller is
    suspended until the wire side has transmitted it. *)
Definition send (x : T) (c : Channel T) : Channel T :=
  {| queue := queue c ++ [x];
     queue_occupancy_limit := queue_occupancy_limit c |}.

(** The wire side of a source: the handshake of the oldest beat. *)
Definition transmit (c : Channel T) : option (T * Channel T) := recv c.

(** What [send] waits for. *)
Definition transmitted (c : Channel T) : bool :=
  match queue c with
  | [] => true
  | _ :: _ => false
  end.

(** [clear()]. *)
Definition clear (c : Channel T) : Channel T :=
  {| queue := []; queue_occupancy_limit := queue_occupancy_limit c |}.
End channel.

(** [strb & (1 << i)] as a condition. *)
Definition strb_bit (strb : Z) (i : nat) : bool :=
  negb (Z.land strb (Z.shiftl 1 (Z.of_nat i)) =? 0)%Z.

(** Lines 121-125, the loop over the byte lanes. *)
Fixpoint write_lanes (strb : Z) (data : list byte) (lanes : list nat) : M unit :=
  match lanes with
  | [] => mret tt
  | i :: rest =>
      _ ← (if strb_bit strb i
           then mmap_write (py_slice data i (i + 1))
           else mmap_seek_cur 1);
      write_lanes strb data rest
  end.

(* ===================================================================== *)
(** * The write engine ([AxiLiteRamWrite]) *)
(* ===================================================================== *)

Module AxiLiteRamWrite.

(** The signal lengths [__init__] asks the bus for.  [wstrb] is an optional
    signal (line 72 allows for a bus without it): [None] when the bus does
    not have the attribute. *)
Record Bus : Type := MkBus {
  awaddr_len : nat;
  wdata_len : nat;
  wstrb_len : option nat
}.

(** Where an instance of [_process_write] is suspended, with the local
    variables that are live there. *)
Inductive Pc : Type :=
  | AwaitAW                                            (* line 101 *)
  | AwaitW (aw : AWBeat) (addr : Z) (prot : AxiProt)   (* line 106 *)
  | AwaitSend (b : BBeat).                             (* line 130 *)

(** The attributes of the object.  [size] is the [self.size] of [Memory];
    the store itself, [self.mem], is shared with the read interface and
    lives in the world.  [log_enabled] is [self.log.isEnabledFor(INFO)].
    [running] is the scheduler's table of the live instances of
    [_process_write], by task id; [fork] enters an instance, [kill] and an
    exception remove one. *)
Record t : Type := Mk {
  size : nat;
  log_enabled : bool;
  aw_channel : Channel AWBeat;
  w_channel : Channel WBeat;
  b_channel : Channel BBeat;
  address_width : nat;
  width : nat;
  byte_size : nat;
  byte_lanes : nat;
  strb_mask : Z;
  _process_write_cr : option nat;
  running : gmap nat Pc;
  next_tid : nat
}.

Definition set_aw_channel (c : Channel AWBeat) (self : t) : t :=
  Mk (size self) (log_enabled self) c (w_channel self) (b_channel self)
     (address_width self) (width self) (byte_size self) (byte_lanes self)
     (strb_mask self) (_process_write_cr self) (running self) (next_tid self).

Definition set_w_channel (c : Channel WBeat) (self : t) : t :=
  Mk (size self) (log_enabled self) (aw_channel self) c (b_channel self)
     (address_width self) (width self) (byte_size self) (byte_lanes self)
     (strb_mask self) (_process_write_cr self) (running self) (next_tid self).

Definition set_b_channel (c : Channel BBeat) (self : t) : t :=
  Mk (size self) (log_enabled self) (aw_channel self) (w_channel self) c
     (address_width self) (width self) (byte_size self) (byte_lanes self)
     (strb_mask self) (_process_write_cr self) (running self) (next_tid self).

Definition set_cr (cr : option nat) (self : t) : t :=
  Mk (size self) (log_enabled self) (aw_channel self) (w_channel self)
     (b_channel self) (address_width self) (width self) (byte_size self)
     (byte_lanes self) (strb_mask self) cr (running self) (next_tid self).

Definition set_running (r : gmap nat Pc) (self : t) : t :=
  Mk (size self) (log_enabled self) (aw_channel self) (w_channel self)
     (b_channel self) (address_width self) (width self) (byte_size self)
     (byte_lanes self) (strb_mask self) (_process_write_cr self) r
     (next_tid self).

(** Lines 48-80 of [__init__], without the log lines; the object is
    returned as it is just before [_init_reset].  Line 77 reads
    [self.w_channel.bus.wstrb], which raises when the bus has no such
    signal. *)
Definition __init__ (bus : Bus) (log_enabled : bool) (m : Mem) : Res t :=
  let address_width := awaddr_len bus in
  let width := wdata_len bus in
  let byte_size := 8 in
  let byte_lanes := width `div` byte_size in
  let strb_mask := (2 ^ Z.of_nat byte_lanes - 1)%Z in
  strb_len ← attribute (wstrb_len bus);
  if negb (byte_lanes =? strb_len) then Raise AssertionError
  else if negb (byte_lanes * byte_size =? width) then Raise AssertionError
  else Ok {| size := Memory_size m;
             log_enabled := log_enabled;
             aw_channel := new_channel 2;
             w_channel := new_channel 2;
             b_channel := new_channel 2;
             address_width := address_width;
             width := width;
             byte_size := byte_size;
             byte_lanes := byte_lanes;
             strb_mask := strb_mask;
             _process_write_cr := None;
             running := ∅;
             next_tid := 0 |}.

(** [cocotb.fork(self._process_write())]: a new instance, suspended at
    the top of the loop; its handle is returned. *)
Definition fork (self : t) : nat * t :=
  (next_tid self,
   Mk (size self) (log_enabled self) (aw_channel self) (w_channel self)
      (b_channel self) (address_width self) (width self) (byte_size self)
      (byte_lanes self) (strb_mask self) (_process_write_cr self)
      (<[next_tid self := AwaitAW]> (running self)) (S (next_tid self))).

(** [handle.kill()]. *)
Definition kill (tid : nat) (self : t) : t :=
  set_running (delete tid (running self)) self.

(** Lines 84-97. *)
Definition _handle_reset (state : bool) (w : World) (self : t) : World * t :=
  if state then
    let w1 := fst (log_info (log_enabled self) LogResetAsserted w) in
    let self1 :=
      match _process_write_cr self with
      | Some cr => set_cr None (kill cr self)
      | None => self
      end in
    let self2 := set_aw_channel (clear (aw_channel self1)) self1 in
    let self3 := set_w_channel (clear (w_channel self2)) self2 in
    let self4 := set_b_channel (clear (b_channel self3)) self3 in
    (w1, self4)
  else
    let w1 := fst (log_info (log_enabled self) LogResetDeasserted w) in
    match _process_write_cr self with
    | None => let '(cr, self1) := fork self in (w1, set_cr (Some cr) self1)
    | Some _ => (w1, self)
    end.

(** Line 103: the aligned address. *)
Definition write_addr (self : t) (aw : AWBeat) : Res Z :=
  q ← py_floordiv (awaddr aw) (Z.of_nat (byte_lanes self));
  mret (q * Z.of_nat (byte_lanes self))%Z.

(** Lines 103-104, from the address beat to the next [await]. *)
Definition process_aw (self : t) (aw : AWBeat) : Res (Z * AxiProt) :=
  addr ← write_addr self aw;
  mret (addr, AxiProt_of (getattr (awprot aw) NONSECURE)).

(** Lines 108-128, from the data beat to the response beat. *)
Definition process_w (self : t) (addr : Z) (prot : AxiProt) (w : WBeat)
  : M BBeat :=
  let data := wdata w in
  let strb := getattr (wstrb w) (strb_mask self) in
  off ← lift (py_mod addr (Z.of_nat (size self)));
  _ ← mmap_seek off;
  data ← lift (to_bytes data (byte_lanes self));
  _ ← log_info (log_enabled self) (LogWrite addr prot strb data);
  _ ← write_lanes strb data (seq 0 (byte_lanes self));
  mret {| bresp := OKAY |}.

(** One whole iteration of the loop on a given pair of beats. *)
Definition process_write (self : t) (aw : AWBeat) (w : WBeat) : M BBeat :=
  '(addr, prot) ← lift (process_aw self aw);
  process_w self addr prot w.

(** What happens to the write interface: the wire side of the three
    channels, the scheduler resuming a task, the reset notification. *)
Inductive Event : Type :=
  | PresentAW (aw : AWBeat)
  | PresentW (w : WBeat)
  | AcceptB
  | Resume (tid : nat)
  | Notify (state : bool).

(** What an observer of the interface sees. *)
Inductive Label : Type :=
  | InAW (aw : AWBeat)
  | InW (w : WBeat)
  | RecvAW (aw : AWBeat)
  | RecvW (w : WBeat)
  | Stored
  | SendB (b : BBeat)
  | OutB (b : BBeat)
  | Died (e : Exn).

(** [_process_write] (lines 99-130), from one suspension to the next. *)
Definition _process_write (tid : nat) (w : World) (self : t)
  : World * t * list Label :=
  match running self !! tid with
  | None => (w, self, [])
  | Some AwaitAW =>
      match recv (aw_channel self) with
      | None => (w, self, [])
      | Some (aw, ch) =>
          let self1 := set_aw_channel ch self in
          match process_aw self1 aw with
          | Raise e => (w, kill tid self1, [RecvAW aw; Died e])
          | Ok (addr, prot) =>
              (w, set_running (<[tid := AwaitW aw addr prot]> (running self1))
                    self1,
               [RecvAW aw])
          end
      end
  | Some (AwaitW aw addr prot) =>
      match recv (w_channel self) with
      | None => (w, self, [])
      | Some (wb, ch) =>
          let self1 := set_w_channel ch self in
          match process_w self1 addr prot wb w with
          | (w', Raise e) => (w', kill tid self1, [RecvW wb; Died e])
          | (w', Ok b) =>
              let self2 := set_b_channel (send b (b_channel self1)) self1 in
              (w', set_running (<[tid := AwaitSend b]> (running self2)) self2,
               [RecvW wb; Stored; SendB b])
          end
      end
  | Some (AwaitSend b) =>
      if transmitted (b_channel self)
      then (w, set_running (<[tid := AwaitAW]> (running self)) self, [])
      else (w, self, [])
  end.

Definition step (ev : Event) (w : World) (self : t) : World * t * list Label :=
  match ev with
  | PresentAW aw =>
      match offer aw (aw_channel self) with
      | Some ch => (w, set_aw_channel ch self, [InAW aw])
      | None => (w, self, [])
      end
  | PresentW wb =>
      match offer wb (w_channel self) with
      | Some ch => (w, set_w_channel ch self, [InW wb])
      | None => (w, self, [])
      end
  | AcceptB =>
      match transmit (b_channel self) with
      | Some (b, ch) => (w, set_b_channel ch self, [OutB b])
      | None => (w, self, [])
      end
  | Resume tid => _process_write tid w self
  | Notify state =>
      let '(w', self') := _handle_reset state w self in (w', self', [])
  end.

(** ** Reading a trace of the write interface *)

(** The address beats and the data beats that the wire side let in, in the
    order of their handshakes. *)
Definition aws_of (tr : list Label) : list AWBeat :=
  omap (fun l => match l with InAW aw => Some aw | _ => None end) tr.

Definition ws_of (tr : list Label) : list WBeat :=
  omap (fun l => match l with InW wb => Some wb | _ => None end) tr.

(** The responses that went out to the master. *)
Definition outs_of (tr : list Label) : list BBeat :=
  omap (fun l => match l with OutB b => Some b | _ => None end) tr.

(** What the engine did. *)
Definition by_engine (l : Label) : option Label :=
  match l with
  | RecvAW _ | RecvW _ | Stored | SendB _ | Died _ => Some l
  | InAW _ | InW _ | OutB _ => None
  end.

Definition engine_of (tr : list Label) : list Label := omap by_engine tr.

(** What one iteration of the loop on a pair of beats looks like. *)
Definition transaction (p : AWBeat * WBeat) : list Label :=
  [RecvAW p.1; RecvW p.2; Stored; SendB {| bresp := OKAY |}].

(** The address beat that an instance holds while it waits for the data. *)
Definition pending (pc : Pc) : list AWBeat :=
  match pc with
  | AwaitW aw _ _ => [aw]
  | AwaitAW | AwaitSend _ => []
  end.

(** The interface has nothing left to do until a new beat comes in. *)
Definition idle (self : t) : Prop :=
  queue (b_channel self) = [] ∧
  ∀ tid pc, running self !! tid = Some pc →
    match pc with
    | AwaitAW => queue (aw_channel self) = []
    | AwaitW _ _ _ => queue (w_channel self) = []
    | AwaitSend _ => False
    end.

(** [n] rounds in which the master takes a response and the scheduler
    resumes the task. *)
Definition drain (n tid : nat) : list Event :=
  concat (replicate n [AcceptB; Resume tid]).

(** The beats that the engine can process: the run of an address beat lies
    inside the store and a data beat has a value of the data width.  A
    reset notification is not part of normal operation. *)
Definition event_ok (lanes sz : nat) (ev : Event) : bool :=
  match ev with
  | PresentAW aw => bool_decide (run_fits sz lanes (aligned lanes (awaddr aw)))
  | PresentW wb => bool_decide (0 ≤ wdata wb < 2 ^ (8 * Z.of_nat lanes))%Z
  | Notify _ => false
  | AcceptB | Resume _ => true
  end.

(** How far the interface is from having nothing left to do. *)
Definition measure (tid : nat) (self : t) : nat :=
  4 * length (queue (aw_channel self)) + length (queue (b_channel self))
  + match running self !! tid with
    | Some (AwaitW _ _ _) => 3
    | Some (AwaitSend _) => 1
    | Some AwaitAW | None => 0
    end.

(** The interface right after the engine was started: one instance at the
    top of its loop, nothing queued. *)
Definition started (tid : nat) (w : World) (self : t) : Prop :=
  0 < byte_lanes self
  ∧ size self = length (store w)
  ∧ running self = {[tid := AwaitAW]}
  ∧ queue (aw_channel self) = []
  ∧ queue (w_channel self) = []
  ∧ queue (b_channel self) = [].

(** At most one instance is live, and it is the one the handle names. *)
Definition one_task (self : t) : Prop :=
  running self = ∅
  ∨ ∃ tid pc, running self = {[tid := pc]} ∧ _process_write_cr self = Some tid.

(** The interface with every queue empty and no engine: nothing of what
    was queued or in flight is left in it. *)
Definition cleared (self : t) : t :=
  Mk (size self) (log_enabled self)
     (new_channel (queue_occupancy_limit (aw_channel self)))
     (new_channel (queue_occupancy_limit (w_channel self)))
     (new_channel (queue_occupancy_limit (b_channel self)))
     (address_width self) (width self) (byte_size self) (byte_lanes self)
     (strb_mask self) None ∅ (next_tid self).

(** How a trace [tr] of the running interface relates to its state: [done]
    are the pairs of beats whose iteration is complete, [pc] is where the
    one instance is suspended. *)
Record Inv (lanes sz tid : nat) (done : list (AWBeat * WBeat)) (pc : Pc)
    (tr : list Label) (w : World) (self : t) : Prop := MkInv {
  inv_lanes : byte_lanes self = lanes;
  inv_lanes_pos : 0 < lanes;
  inv_size : size self = sz;
  inv_store : sz = length (store w);
  inv_running : running self = {[tid := pc]};
  inv_aws : aws_of tr = done.*1 ++ pending pc ++ queue (aw_channel self);
  inv_ws : ws_of tr = done.*2 ++ queue (w_channel self);
  inv_engine :
    engine_of tr = (done ≫= transaction) ++ (RecvAW <$> pending pc);
  inv_outs :
    outs_of tr ++ queue (b_channel self) = (λ _, {| bresp := OKAY |}) <$> done;
  inv_ok_aw :
    Forall (λ aw, run_fits sz lanes (aligned lanes (awaddr aw)))
      (pending pc ++ queue (aw_channel self));
  inv_ok_w :
    Forall (λ wb, (0 ≤ wdata wb < 2 ^ (8 * Z.of_nat lanes))%Z)
      (queue (w_channel self));
  inv_addr :
    ∀ aw addr prot, pc = AwaitW aw addr prot →
      addr = aligned lanes (awaddr aw)
}.

End AxiLiteRamWrite.

(* ===================================================================== *)
(** * The read engine ([AxiLiteRamRead]) *)
(* ===================================================================== *)

Module AxiLiteRamRead.

Record Bus : Type := MkBus {
  araddr_len : nat;
  rdata_len : nat
}.

(** Where an instance of [_process_read] is suspended; the locals of the
    iteration are still needed for the log line after the send. *)
Inductive Pc : Type :=
  | AwaitAR                                                    (* line 193 *)
  | AwaitSend (addr : Z) (prot : AxiProt) (data : list byte) (r : RBeat).
                                                               (* line 208 *)

(** The attributes of the object, as for the write interface. *)
Record t : Type := Mk {
  size : nat;
  log_enabled : bool;
  ar_channel : Channel ARBeat;
  r_channel : Channel RBeat;
  address_width : nat;
  width : nat;
  byte_size : nat;
  byte_lanes : nat;
  _process_read_cr : option nat;
  running : gmap nat Pc;
  next_tid : nat
}.

Definition set_ar_channel (c : Channel ARBeat) (self : t) : t :=
  Mk (size self) (log_enabled self) c (r_channel self) (address_width self)
     (width self) (byte_size self) (byte_lanes self) (_process_read_cr self)
     (running self) (next_tid self).

Definition set_r_channel (c : Channel RBeat) (self : t) : t :=
  Mk (size self) (log_enabled self) (ar_channel self) c (address_width self)
     (width self) (byte_size self) (byte_lanes self) (_process_read_cr self)
     (running self) (next_tid self).

Definition set_cr (cr : option nat) (self : t) : t :=
  Mk (size self) (log_enabled self) (ar_channel self) (r_channel self)
     (address_width self) (width self) (byte_size self) (byte_lanes self)
     cr (running self) (next_tid self).

Definition set_running (r : gmap nat Pc) (self : t) : t :=
  Mk (size self) (log_enabled self) (ar_channel self) (r_channel self)
     (address_width self) (width self) (byte_size self) (byte_lanes self)
     (_process_read_cr self) r (next_tid self).

(** Lines 145-173 of [__init__], without the log lines; the object is
    returned as it is just before [_init_reset]. *)
Definition __init__ (bus : Bus) (log_enabled : bool) (m : Mem) : Res t :=
  let address_width := araddr_len bus in
  let width := rdata_len bus in
  let byte_size := 8 in
  let byte_lanes := width `div` byte_size in
  if negb (byte_lanes * byte_size =? width) then Raise AssertionError
  else Ok {| size := Memory_size m;
             log_enabled := log_enabled;
             ar_channel := new_channel 2;
             r_channel := new_channel 2;
             address_width := address_width;
             width := width;
             byte_size := byte_size;
             byte_lanes := byte_lanes;
             _process_read_cr := None;
             running := ∅;
             next_tid := 0 |}.

(** [cocotb.fork(self._process_read())]. *)
Definition fork (self : t) : nat * t :=
  (next_tid self,
   Mk (size self) (log_enabled self) (ar_channel self) (r_channel self)
      (address_width self) (width self) (byte_size self) (byte_lanes self)
      (_process_read_cr self) (<[next_tid self := AwaitAR]> (running self))
      (S (next_tid self))).

Definition kill (tid : nat) (self : t) : t :=
  set_running (delete tid (running self)) self.

(** Lines 177-189. *)
Definition _handle_reset (state : bool) (w : World) (self : t) : World * t :=
  if state then
    let w1 := fst (log_info (log_enabled self) LogResetAsserted w) in
    let self1 :=
      match _process_read_cr self with
      | Some cr => set_cr None (kill cr self)
      | None => self
      end in
    let self2 := set_ar_channel (clear (ar_channel self1)) self1 in
    let self3 := set_r_channel (clear (r_channel self2)) self2 in
    (w1, self3)
  else
    let w1 := fst (log_info (log_enabled self) LogResetDeasserted w) in
    match _process_read_cr self with
    | None => let '(cr, self1) := fork self in (w1, set_cr (Some cr) self1)
    | Some _ => (w1, self)
    end.

(** Line 195: the aligned address. *)
Definition read_addr (self : t) (ar : ARBeat) : Res Z :=
  q ← py_floordiv (araddr ar) (Z.of_nat (byte_lanes self));
  mret (q * Z.of_nat (byte_lanes self))%Z.

(** Lines 195-206, from the address beat to the read-data beat. *)
Definition process_read (self : t) (ar : ARBeat)
  : M (Z * AxiProt * list byte * RBeat) :=
  addr ← lift (read_addr self ar);
  let prot := AxiProt_of (getattr (arprot ar) NONSECURE) in
  off ← lift (py_mod addr (Z.of_nat (size self)));
  _ ← mmap_seek off;
  data ← mmap_read (Z.of_nat (byte_lanes self));
  mret (addr, prot, data, {| rdata := from_bytes data; rresp := OKAY |}).

Inductive Event : Type :=
  | PresentAR (ar : ARBeat)
  | AcceptR
  | Resume (tid : nat)
  | Notify (state : bool).

(** [Loaded buf]: the store held [buf] when the engine read from it. *)
Inductive Label : Type :=
  | InAR (ar : ARBeat)
  | RecvAR (ar : ARBeat)
  | Loaded (buf : list byte)
  | SendR (r : RBeat)
  | OutR (r : RBeat)
  | Died (e : Exn).

(** [_process_read] (lines 191-212), from one suspension to the next. *)
Definition _process_read (tid : nat) (w : World) (self : t)
  : World * t * list Label :=
  match running self !! tid with
  | None => (w, self, [])
  | Some AwaitAR =>
      match recv (ar_channel self) with
      | None => (w, self, [])
      | Some (ar, ch) =>
          let self1 := set_ar_channel ch self in
          match process_read self1 ar w with
          | (w', Raise e) => (w', kill tid self1, [RecvAR ar; Died e])
          | (w', Ok (addr, prot, data, r)) =>
              let self2 := set_r_channel (send r (r_channel self1)) self1 in
              (w',
               set_running (<[tid := AwaitSend addr prot data r]> (running self2))
                 self2,
               [RecvAR ar; Loaded (mem_buf (mem w)); SendR r])
          end
      end
  | Some (AwaitSend addr prot data r) =>
      if transmitted (r_channel self)
      then (fst (log_info (log_enabled self) (LogRead addr prot data) w),
            set_running (<[tid := AwaitAR]> (running self)) self, [])
      else (w, self, [])
  end.

Definition step (ev : Event) (w : World) (self : t) : World * t * list Label :=
  match ev with
  | PresentAR ar =>
      match offer ar (ar_channel self) with
      | Some ch => (w, set_ar_channel ch self, [InAR ar])
      | None => (w, self, [])
      end
  | AcceptR =>
      match transmit (r_channel self) with
      | Some (r, ch) => (w, set_r_channel ch self, [OutR r])
      | None => (w, self, [])
      end
  | Resume tid => _process_read tid w self
  | Notify state =>
      let '(w', self') := _handle_reset state w self in (w', self', [])
  end.

(** ** Reading a trace of the read interface *)

Definition ars_of (tr : list Label) : list ARBeat :=
  omap (fun l => match l with InAR ar => Some ar | _ => None end) tr.

Definition outs_of (tr : list Label) : list RBeat :=
  omap (fun l => match l with OutR r => Some r | _ => None end) tr.

Definition by_engine (l : Label) : option Label :=
  match l with
  | RecvAR _ | Loaded _ | SendR _ | Died _ => Some l
  | InAR _ | OutR _ => None
  end.

Definition engine_of (tr : list Label) : list Label := omap by_engine tr.

(** The read-data beat for an address beat when the store holds [buf]:
    the [byte_lanes] bytes from the offset of the aligned address, packed
    least significant byte first. *)
Definition answer (lanes sz : nat) (ar : ARBeat) (buf : list byte) : RBeat :=
  {| rdata := from_bytes
                (take lanes (drop (offset sz (aligned lanes (araddr ar))) buf));
     rresp := OKAY |}.

(** What one iteration of the loop looks like, on an address beat and the
    store at the time. *)
Definition transaction (lanes sz : nat) (p : ARBeat * list byte)
  : list Label :=
  [RecvAR p.1; Loaded p.2; SendR (answer lanes sz p.1 p.2)].

Definition idle (self : t) : Prop :=
  queue (r_channel self) = [] ∧
  ∀ tid pc, running self !! tid = Some pc →
    match pc with
    | AwaitAR => queue (ar_channel self) = []
    | AwaitSend _ _ _ _ => False
    end.

Definition drain (n tid : nat) : list Event :=
  concat (replicate n [AcceptR; Resume tid]).

(** A reset notification is not part of normal operation. *)
Definition event_ok (ev : Event) : bool :=
  match ev with
  | Notify _ => false
  | PresentAR _ | AcceptR | Resume _ => true
  end.

(** How far the interface is from having nothing left to do. *)
Definition measure (tid : nat) (self : t) : nat :=
  3 * length (queue (ar_channel self)) + length (queue (r_channel self))
  + match running self !! tid with
    | Some (AwaitSend _ _ _ _) => 1
    | Some AwaitAR | None => 0
    end.

Definition started (tid : nat) (w : World) (self : t) : Prop :=
  0 < byte_lanes self
  ∧ 0 < size self
  ∧ size self = length (store w)
  ∧ running self = {[tid := AwaitAR]}
  ∧ queue (ar_channel self) = []
  ∧ queue (r_channel self) = [].

Definition one_task (self : t) : Prop :=
  running self = ∅
  ∨ ∃ tid pc, running self = {[tid := pc]} ∧ _process_read_cr self = Some tid.

Definition cleared (self : t) : t :=
  Mk (size self) (log_enabled self)
     (new_channel (queue_occupancy_limit (ar_channel self)))
     (new_channel (queue_occupancy_limit (r_channel self)))
     (address_width self) (width self) (byte_size self) (byte_lanes self)
     None ∅ (next_tid self).

(** How a trace of the running interface relates to its state: [done] are
    the address beats whose iteration has sent its answer, each with the
    store it was answered from. *)
Record Inv (lanes sz tid : nat) (done : list (ARBeat * list byte)) (pc : Pc)
    (tr : list Label) (w : World) (self : t) : Prop := MkInv {
  inv_lanes : byte_lanes self = lanes;
  inv_lanes_pos : 0 < lanes;
  inv_size : size self = sz;
  inv_size_pos : 0 < sz;
  inv_store : sz = length (store w);
  inv_running : running self = {[tid := pc]};
  inv_ars : ars_of tr = done.*1 ++ queue (ar_channel self);
  inv_engine : engine_of tr = done ≫= transaction lanes sz;
  inv_outs :
    outs_of tr ++ queue (r_channel self)
    = (λ p, answer lanes sz p.1 p.2) <$> done
}.

End AxiLiteRamRead.

(* ===================================================================== *)
(** * The composite slave ([AxiLiteRam]) *)
(* ===================================================================== *)

Module AxiLiteRam.

(** The two interfaces and the store they share (one [mmap] object, hence
    also one file position). *)
Record t : Type := Mk {
  world : World;
  write_if : AxiLiteRamWrite.t;
  read_if : AxiLiteRamRead.t
}.

(** Lines 216-223; the store comes from [Memory.__init__]. *)
Definition __init__ (wbus : AxiLiteRamWrite.Bus) (rbus : AxiLiteRamRead.Bus)
    (log_enabled : bool) (m : Mem) : Res t :=
  write_if ← AxiLiteRamWrite.__init__ wbus log_enabled m;
  read_if ← AxiLiteRamRead.__init__ rbus log_enabled m;
  mret {| world := {| mem := m; log := [] |};
          write_if := write_if; read_if := read_if |}.

Inductive Event : Type :=
  | OnWrite (ev : AxiLiteRamWrite.Event)
  | OnRead (ev : AxiLiteRamRead.Event).

Inductive Label : Type :=
  | ByWrite (l : AxiLiteRamWrite.Label)
  | ByRead (l : AxiLiteRamRead.Label).

Definition step (ev : Event) (ram : t) : t * list Label :=
  match ev with
  | OnWrite e =>
      let '(w, wif, ls) := AxiLiteRamWrite.step e (world ram) (write_if ram) in
      ({| world := w; write_if := wif; read_if := read_if ram |},
       map ByWrite ls)
  | OnRead e =>
      let '(w, rif, ls) := AxiLiteRamRead.step e (world ram) (read_if ram) in
      ({| world := w; write_if := write_if ram; read_if := rif |},
       map ByRead ls)
  end.

Fixpoint run (evs : list Event) (ram : t) : t * list Label :=
  match evs with
  | [] => (ram, [])
  | ev :: rest =>
      let '(ram1, l1) := step ev ram in
      let '(ram2, l2) := run rest ram1 in
      (ram2, l1 ++ l2)
  end.

(** The labels of one interface in a trace of the slave. *)
Definition write_labels (tr : list Label) : list AxiLiteRamWrite.Label :=
  omap (fun l => match l with ByWrite x => Some x | ByRead _ => None end) tr.

Definition read_labels (tr : list Label) : list AxiLiteRamRead.Label :=
  omap (fun l => match l with ByRead x => Some x | ByWrite _ => None end) tr.

(** The events of a schedule that the write engine, respectively the read
    engine, can process; the events of the other interface are free. *)
Definition write_ok (ram : t) (ev : Event) : bool :=
  match ev with
  | OnWrite e =>
      AxiLiteRamWrite.event_ok (AxiLiteRamWrite.byte_lanes (write_if ram))
        (AxiLiteRamWrite.size (write_if ram)) e
  | OnRead _ => true
  end.

Definition read_ok (ev : Event) : bool :=
  match ev with
  | OnWrite _ => true
  | OnRead e => AxiLiteRamRead.event_ok e
  end.

End AxiLiteRam.

(* ===================================================================== *)
(** * What the properties below are stated with *)
(* ===================================================================== *)

(** Byte [i] of a write lands at the offset of [effective address + i],
    taken modulo the size of the store. *)
Definition write_lands_modulo (self : AxiLiteRamWrite.t) (aw : AWBeat)
    (wb : WBeat) (w : World) : Prop :=
  let bl := AxiLiteRamWrite.byte_lanes self in
  let addr := aligned bl (awaddr aw) in
  let strb := getattr (wstrb wb) (AxiLiteRamWrite.strb_mask self) in
  ∀ i, i < bl → strb_bit strb i = true →
    store (AxiLiteRamWrite.process_write self aw wb w).1
      !! offset (AxiLiteRamWrite.size self) (addr + Z.of_nat i)
    = le_octets bl (wdata wb) !! i.

(** Byte [i] of the data of a read comes from the offset of
    [effective address + i], taken modulo the size of the store. *)
Definition read_lands_modulo (self : AxiLiteRamRead.t) (ar : ARBeat)
    (w : World) : Prop :=
  let bl := AxiLiteRamRead.byte_lanes self in
  let addr := aligned bl (araddr ar) in
  ∃ prot data r,
    (AxiLiteRamRead.process_read self ar w).2 = Ok (addr, prot, data, r)
    ∧ ∀ i, i < bl →
        data !! i
        = store w !! offset (AxiLiteRamRead.size self) (addr + Z.of_nat i).

(** ** Two configurations to evaluate on *)

(** A store of 1024 bytes behind a 32-bit data bus. *)
Definition demo_world : World :=
  {| mem := {| mem_buf := replicate 1024 x5a; mem_pos := 0 |}; log := [] |}.

Definition demo_write : AxiLiteRamWrite.t :=
  AxiLiteRamWrite.Mk 1024 true (new_channel 2) (new_channel 2) (new_channel 2)
    32 32 8 4 15 None ∅ 0.

Definition demo_read : AxiLiteRamRead.t :=
  AxiLiteRamRead.Mk 1024 true (new_channel 2) (new_channel 2)
    32 32 8 4 None ∅ 0.

(** A store of 5 bytes behind the same bus: its size is not a multiple of
    the number of byte lanes. *)
Definition odd_world : World :=
  {| mem := {| mem_buf := [x10; x11; x12; x13; x14]; mem_pos := 0 |};
     log := [] |}.

Definition odd_write : AxiLiteRamWrite.t :=
  AxiLiteRamWrite.Mk 5 true (new_channel 2) (new_channel 2) (new_channel 2)
    32 32 8 4 15 None ∅ 0.

Definition demo_ram : AxiLiteRam.t :=
  {| AxiLiteRam.world := demo_world;
     AxiLiteRam.write_if := demo_write;
     AxiLiteRam.read_if := demo_read |}.

(** The slave after both engines have been started. *)
Definition demo_started : AxiLiteRam.t :=
  (AxiLiteRam.run
     [AxiLiteRam.OnWrite (AxiLiteRamWrite.Notify false);
      AxiLiteRam.OnRead (AxiLiteRamRead.Notify false)] demo_ram).1.

(** Two writes and two reads, interleaved; the second pair of write beats
    arrives data first. *)
Definition demo_schedule : list AxiLiteRam.Event :=
  [AxiLiteRam.OnWrite (AxiLiteRamWrite.PresentAW (MkAW 0x10 None));
   AxiLiteRam.OnRead (AxiLiteRamRead.PresentAR (MkAR 0x10 None));
   AxiLiteRam.OnWrite (AxiLiteRamWrite.PresentW (MkW 0xAABBCCDD (Some 3%Z)));
   AxiLiteRam.OnWrite (AxiLiteRamWrite.Resume 0);
   AxiLiteRam.OnRead (AxiLiteRamRead.Resume 0);
   AxiLiteRam.OnWrite (AxiLiteRamWrite.PresentW (MkW 0x01020304 None));
   AxiLiteRam.OnWrite (AxiLiteRamWrite.Resume 0);
   AxiLiteRam.OnRead (AxiLiteRamRead.PresentAR (MkAR 0x12 (Some 0%Z)));
   AxiLiteRam.OnWrite (AxiLiteRamWrite.PresentAW (MkAW 0x3fd None))].

Definition odd_read : AxiLiteRamRead.t :=
  AxiLiteRamRead.Mk 5 true (new_channel 2) (new_channel 2)
    32 32 8 4 None ∅ 0.

Definition odd_started : AxiLiteRam.t :=
  (AxiLiteRam.run
     [AxiLiteRam.OnWrite (AxiLiteRamWrite.Notify false);
      AxiLiteRam.OnRead (AxiLiteRamRead.Notify false)]
     {| AxiLiteRam.world := odd_world;
        AxiLiteRam.write_if := odd_write;
        AxiLiteRam.read_if := odd_read |}).1.

(* ===================================================================== *)
(** * What the further properties are stated with *)
(* ===================================================================== *)

(** Two computations have the same outcome and leave the same bytes in the
    store, from any two worlds that hold the same bytes, whatever the file
    positions and the logs are. *)
Definition store_eqv {A} (c1 c2 : M A) : Prop :=
  ∀ w w', store w = store w' →
    (c1 w).2 = (c2 w').2 ∧ store (c1 w).1 = store (c2 w').1.

(** The same from any two worlds with the same store and file position;
    then the position left is the same, too. *)
Definition mem_eqv {A} (c1 c2 : M A) : Prop :=
  ∀ w w', mem w = mem w' →
    (c1 w).2 = (c2 w').2 ∧ mem (c1 w).1 = mem (c2 w').1.

(** The read-data beat in the outcome of a read, if there is one. *)
Definition answer_of (r : Res (Z * AxiProt * list byte * RBeat))
  : option RBeat :=
  match r with
  | Ok (_, _, _, r) => Some r
  | Raise _ => None
  end.

(** The byte at position [j] of the store after a write of the octets
    [data] under the mask [strb] to the [lanes] bytes from [off], when it
    was [old] before. *)
Definition written_byte (off lanes : nat) (strb : Z) (data : list byte)
    (j : nat) (old : option byte) : option byte :=
  if decide (off ≤ j < off + lanes)
  then if strb_bit strb (j - off) then data !! (j - off) else old
  else old.

(* ===================================================================== *)
(** * What the order of the beats means for the store *)
(* ===================================================================== *)

(** The store [buf] after the octets [data] have been written under the
    mask [strb] to the [lanes] bytes from [off]: a byte of the run whose
    strobe bit is set holds its octet, every other byte is as in [buf]. *)
Definition put_word (off lanes : nat) (strb : Z) (data buf : list byte)
  : list byte :=
  imap (λ j old, default old (written_byte off lanes strb data j (Some old)))
    buf.

(** The store after the write of a pair of beats: the data of the data
    beat, least significant byte first and under its strobe (or the full
    mask), at the offset of the aligned address of the address beat. *)
Definition write_pair (lanes sz : nat) (mask : Z) (buf : list byte)
    (p : AWBeat * WBeat) : list byte :=
  put_word (offset sz (aligned lanes (awaddr p.1))) lanes
    (getattr (wstrb p.2) mask) (le_octets lanes (wdata p.2)) buf.

(** The store after the writes of the pairs [ps], the oldest first. *)
Definition write_pairs (lanes sz : nat) (mask : Z) (buf : list byte)
    (ps : list (AWBeat * WBeat)) : list byte :=
  foldl (write_pair lanes sz mask) buf ps.

(** On this event the read engine takes an address beat: the scheduler
    resumes an instance that waits at line 193 and an address beat is
    queued. *)
Definition takes_address (ev : AxiLiteRamRead.Event) (self : AxiLiteRamRead.t)
  : bool :=
  match ev with
  | AxiLiteRamRead.Resume tid =>
      match AxiLiteRamRead.running self !! tid with
      | Some AxiLiteRamRead.AwaitAR =>
          match queue (AxiLiteRamRead.ar_channel self) with
          | [] => false
          | _ :: _ => true
          end
      | _ => false
      end
  | _ => false
  end.

(** The store of the slave in this step, if it is one in which the read
    engine takes an address beat. *)
Definition store_read (ev : AxiLiteRam.Event) (ram : AxiLiteRam.t)
  : list (list byte) :=
  match ev with
  | AxiLiteRam.OnRead e =>
      if takes_address e (AxiLiteRam.read_if ram)
      then [store (AxiLiteRam.world ram)] else []
  | AxiLiteRam.OnWrite _ => []
  end.

(** The bytes that the store of the slave holds in each of the steps of a
    schedule in which the read engine takes an address beat, in the order of
    these steps. *)
Fixpoint stores_read (evs : list AxiLiteRam.Event) (ram : AxiLiteRam.t)
  : list (list byte) :=
  match evs with
  | [] => []
  | ev :: rest =>
      store_read ev ram ++ stores_read rest (AxiLiteRam.step ev ram).1
  end.

(* ===================================================================== *)
(** * Properties of the Python values *)
(* ===================================================================== *)

Section python_values.

Lemma Z_of_byte_range (b : byte) : (0 ≤ Z_of_byte b < 256)%Z.
Proof.
  unfold Z_of_byte. pose proof (Byte.to_N_bounded b). lia.
Qed.

Lemma Z_of_byte_of_Z (z : Z) : Z_of_byte (byte_of_Z z) = (z mod 256)%Z.
Proof.
  unfold Z_of_byte, byte_of_Z.
  pose proof (Z.mod_pos_bound z 256 eq_refl) as Hz.
  destruct (Byte.of_N (Z.to_N (z mod 256))) as [b|] eqn:Hb.
  - apply Byte.to_of_N in Hb. rewrite Hb. lia.
  - apply Byte.of_N_None_iff in Hb. lia.
Qed.

Lemma byte_of_Z_of_byte (b : byte) : byte_of_Z (Z_of_byte b) = b.
Proof.
  unfold byte_of_Z. pose proof (Z_of_byte_range b) as Hb.
  rewrite Z.mod_small by done. unfold Z_of_byte.
  rewrite N2Z.id, Byte.of_to_N. done.
Qed.

Lemma length_le_octets (n : nat) (x : Z) : length (le_octets n x) = n.
Proof. revert x. induction n as [|n IH]; intros x; simpl; [done|]. by rewrite IH. Qed.

(** Octet [i] of the little-endian layout is [(x >> 8 i) & 0xff]. *)
Lemma lookup_le_octets (n i : nat) (x : Z) :
  i < n → le_octets n x !! i = Some (byte_of_Z (x / 256 ^ Z.of_nat i)).
Proof.
  revert i x. induction n as [|n IH]; intros i x Hi; [lia|].
  destruct i as [|i]; simpl le_octets.
  - simpl. f_equal. unfold byte_of_Z.
    rewrite Z.div_1_r, Z.mod_mod by done. done.
  - rewrite lookup_cons. rewrite IH by lia. do 2 f_equal.
    rewrite Nat2Z.inj_succ, Z.pow_succ_r by lia.
    rewrite Z.div_div by lia. done.
Qed.

Lemma from_bytes_range (data : list byte) :
  (0 ≤ from_bytes data < 2 ^ (8 * Z.of_nat (length data)))%Z.
Proof.
  induction data as [|b data IH]; simpl from_bytes; simpl length; [lia|].
  pose proof (Z_of_byte_range b).
  replace (8 * Z.of_nat (S (length data)))%Z
    with (8 + 8 * Z.of_nat (length data))%Z by lia.
  rewrite Z.pow_add_r by lia. change (2 ^ 8)%Z with 256%Z. nia.
Qed.

(** Packing the [n] low octets of [x] gives back [x] modulo [256 ^ n]. *)
Lemma from_bytes_le_octets (n : nat) (x : Z) :
  from_bytes (le_octets n x) = (x mod 2 ^ (8 * Z.of_nat n))%Z.
Proof.
  revert x. induction n as [|n IH]; intros x.
  - simpl. by rewrite Z.mod_1_r.
  - simpl le_octets. simpl from_bytes. rewrite IH, Z_of_byte_of_Z.
    rewrite Z.mod_mod by done.
    replace (8 * Z.of_nat (S n))%Z with (8 + 8 * Z.of_nat n)%Z by lia.
    rewrite Z.pow_add_r by lia. change (2 ^ 8)%Z with 256%Z.
    rewrite Z.rem_mul_r by lia. done.
Qed.

(** [int.from_bytes] undoes [to_bytes]. *)
Lemma from_bytes_to_bytes (x : Z) (n : nat) (data : list byte) :
  to_bytes x n = Ok data → from_bytes data = x ∧ length data = n.
Proof.
  unfold to_bytes.
  destruct (Z.ltb_spec x 0); [done|].
  destruct (Z.leb_spec (2 ^ (8 * Z.of_nat n)) x); [done|].
  intros [= <-]. rewrite from_bytes_le_octets, length_le_octets.
  split; [|done]. apply Z.mod_small. lia.
Qed.

Lemma to_bytes_Ok (x : Z) (n : nat) :
  (0 ≤ x < 2 ^ (8 * Z.of_nat n))%Z → to_bytes x n = Ok (le_octets n x).
Proof.
  intros Hx. unfold to_bytes.
  destruct (Z.ltb_spec x 0); [lia|].
  destruct (Z.leb_spec (2 ^ (8 * Z.of_nat n)) x); [lia|]. done.
Qed.

(** [strb & (1 << i)] is non-zero exactly when bit [i] of [strb] is set. *)
Lemma strb_bit_testbit (strb : Z) (i : nat) :
  strb_bit strb i = Z.testbit strb (Z.of_nat i).
Proof.
  unfold strb_bit. rewrite Z.shiftl_1_l.
  destruct (Z.testbit strb (Z.of_nat i)) eqn:Hbit.
  - apply negb_true_iff, Z.eqb_neq. intros Hz.
    assert (Z.testbit (Z.land strb (2 ^ Z.of_nat i)) (Z.of_nat i) = true) as Ht.
    { rewrite Z.land_spec, Hbit, Z.pow2_bits_true by lia. done. }
    rewrite Hz, Z.bits_0 in Ht. done.
  - apply negb_false_iff, Z.eqb_eq. apply Z.bits_inj'. intros j Hj.
    rewrite Z.land_spec, Z.bits_0, Z.pow2_bits_eqb by lia.
    destruct (Z.eqb_spec (Z.of_nat i) j) as [<-|]; [by rewrite Hbit|].
    apply andb_false_r.
Qed.

Lemma strb_bit_0 (i : nat) : strb_bit 0 i = false.
Proof. rewrite strb_bit_testbit. apply Z.bits_0. Qed.

(** Every one of the [n] low bits of [2 ** n - 1] is set. *)
Lemma strb_bit_mask (n i : nat) :
  i < n → strb_bit (2 ^ Z.of_nat n - 1) i = true.
Proof.
  intros Hi. rewrite strb_bit_testbit.
  replace (2 ^ Z.of_nat n - 1)%Z with (Z.ones (Z.of_nat n)).
  - apply Z.ones_spec_low. lia.
  - rewrite Z.ones_equiv. lia.
Qed.

Lemma py_slice_one {A} (data : list A) (i : nat) (x : A) :
  data !! i = Some x → py_slice data i (i + 1) = [x].
Proof.
  intros Hx. unfold py_slice. replace (i + 1 - i) with 1 by lia.
  rewrite (drop_S _ _ _ Hx). done.
Qed.

End python_values.

(* ===================================================================== *)
(** * Properties of the store operations *)
(* ===================================================================== *)

Section store.

Lemma bind_Ok {A B} (c : M A) (f : A → M B) (w w' : World) (a : A) :
  c w = (w', Ok a) → (c ≫= f) w = f a w'.
Proof. intros Hc. unfold mbind, M_bind. by rewrite Hc. Qed.

Lemma bind_Raise {A B} (c : M A) (f : A → M B) (w w' : World) (e : Exn) :
  c w = (w', Raise e) → (c ≫= f) w = (w', Raise e).
Proof. intros Hc. unfold mbind, M_bind. by rewrite Hc. Qed.

Lemma mmap_seek_Ok (pos : nat) (w : World) :
  pos ≤ length (mem_buf (mem w)) →
  mmap_seek (Z.of_nat pos) w =
    (set_mem {| mem_buf := mem_buf (mem w); mem_pos := pos |} w, Ok tt).
Proof.
  intros Hpos. unfold mmap_seek.
  destruct (Z.ltb_spec (Z.of_nat pos) 0); [lia|].
  destruct (Z.ltb_spec (Z.of_nat (length (mem_buf (mem w)))) (Z.of_nat pos));
    [lia|].
  simpl. by rewrite Nat2Z.id.
Qed.

Lemma mmap_seek_cur_Ok (w : World) :
  mem_pos (mem w) + 1 ≤ length (mem_buf (mem w)) →
  mmap_seek_cur 1 w =
    (set_mem {| mem_buf := mem_buf (mem w); mem_pos := mem_pos (mem w) + 1 |} w,
     Ok tt).
Proof.
  intros Hpos. unfold mmap_seek_cur.
  replace (Z.of_nat (mem_pos (mem w)) + 1)%Z
    with (Z.of_nat (mem_pos (mem w) + 1)) by lia.
  by apply mmap_seek_Ok.
Qed.

Lemma mmap_write_Ok (b : byte) (w : World) :
  mem_pos (mem w) + 1 ≤ length (mem_buf (mem w)) →
  mmap_write [b] w =
    (set_mem {| mem_buf := <[mem_pos (mem w) := b]> (mem_buf (mem w));
                mem_pos := mem_pos (mem w) + 1 |} w, Ok tt).
Proof.
  intros Hpos. unfold mmap_write. simpl length.
  destruct (Nat.ltb_spec (length (mem_buf (mem w))) (mem_pos (mem w))); [lia|].
  destruct (Nat.ltb_spec (length (mem_buf (mem w)) - mem_pos (mem w)) 1); [lia|].
  done.
Qed.

(** A seek never touches the bytes, whether it is refused or not. *)
Lemma mmap_seek_buf (pos : Z) (w : World) :
  mem_buf (mem (mmap_seek pos w).1) = mem_buf (mem w).
Proof. unfold mmap_seek. by destruct (_ || _). Qed.

Lemma mmap_seek_cur_buf (off : Z) (w : World) :
  mem_buf (mem (mmap_seek_cur off w).1) = mem_buf (mem w).
Proof. unfold mmap_seek_cur. apply mmap_seek_buf. Qed.

Lemma mmap_read_buf (n : Z) (w : World) :
  mem_buf (mem (mmap_read n w).1) = mem_buf (mem w).
Proof. done. Qed.

Lemma mmap_seek_length (pos : Z) (w : World) :
  length (mem_buf (mem (mmap_seek pos w).1)) = length (mem_buf (mem w)).
Proof. by rewrite mmap_seek_buf. Qed.

Lemma mmap_write_length (data : list byte) (w : World) :
  length (mem_buf (mem (mmap_write data w).1)) = length (mem_buf (mem w)).
Proof.
  unfold mmap_write. destruct (_ || _); [done|]. simpl. apply length_inserts.
Qed.

(** A read that has [n] bytes before the end returns exactly those. *)
Lemma mmap_read_Ok (n : nat) (w : World) :
  mem_pos (mem w) + n ≤ length (mem_buf (mem w)) →
  mmap_read (Z.of_nat n) w =
    (set_mem {| mem_buf := mem_buf (mem w); mem_pos := mem_pos (mem w) + n |} w,
     Ok (take n (drop (mem_pos (mem w)) (mem_buf (mem w))))).
Proof.
  intros Hpos. unfold mmap_read.
  destruct (Z.ltb_spec (Z.of_nat n) 0); [lia|].
  destruct (Z.ltb_spec
    (Z.of_nat (length (mem_buf (mem w)) - mem_pos (mem w))) (Z.of_nat n));
    [lia|].
  simpl. by rewrite Nat2Z.id.
Qed.

(** The loop over the lanes, when the run lies inside the store: lane
    [k + i] goes to position [pos + i] if its strobe bit is set, and every
    other byte of the store keeps its value. *)
Lemma write_lanes_fits (strb : Z) (data : list byte) (n k : nat) (w : World) :
  mem_pos (mem w) + n ≤ length (mem_buf (mem w)) →
  k + n ≤ length data →
  ∃ buf',
    write_lanes strb data (seq k n) w =
      ({| mem := {| mem_buf := buf'; mem_pos := mem_pos (mem w) + n |};
          log := log w |}, Ok tt)
    ∧ length buf' = length (mem_buf (mem w))
    ∧ (∀ i, i < n →
         buf' !! (mem_pos (mem w) + i) =
           if strb_bit strb (k + i) then data !! (k + i)
           else mem_buf (mem w) !! (mem_pos (mem w) + i))
    ∧ (∀ j, ¬ (mem_pos (mem w) ≤ j < mem_pos (mem w) + n) →
         buf' !! j = mem_buf (mem w) !! j).
Proof.
  revert k w. induction n as [|n IH]; intros k [[buf pos] lg] Hpos Hdata;
    simpl in Hpos.
  - exists buf. simpl. rewrite Nat.add_0_r.
    split_and!; [done|done|intros; lia|done].
  - simpl seq. cbn [write_lanes].
    assert (is_Some (data !! k)) as [d Hd] by (apply lookup_lt_is_Some; lia).
    destruct (strb_bit strb k) eqn:Hbit.
    + rewrite (py_slice_one _ _ _ Hd).
      erewrite bind_Ok; [|apply mmap_write_Ok; simpl; lia].
      destruct (IH (S k) (set_mem {| mem_buf := <[pos:=d]> buf;
                                     mem_pos := pos + 1 |}
                        {| mem := {| mem_buf := buf; mem_pos := pos |};
                           log := lg |}))
        as (buf' & Hrun & Hlen & Hin & Hout).
      { simpl. rewrite length_insert. lia. }
      { lia. }
      simpl in Hrun, Hlen, Hin, Hout. rewrite length_insert in Hlen.
      exists buf'. simpl. split_and!.
      * rewrite Hrun. replace (pos + 1 + n) with (pos + S n) by lia. done.
      * done.
      * intros [|i] Hi.
        -- rewrite !Nat.add_0_r, Hbit, Hout by lia.
           rewrite list_lookup_insert_eq by lia. done.
        -- replace (pos + S i) with (pos + 1 + i) by lia.
           rewrite Hin by lia. replace (S (k + i)) with (k + S i) by lia.
           destruct (strb_bit strb (k + S i)); [done|].
           apply list_lookup_insert_ne. lia.
      * intros j Hj. rewrite Hout by lia. apply list_lookup_insert_ne. lia.
    + erewrite bind_Ok; [|apply mmap_seek_cur_Ok; simpl; lia].
      destruct (IH (S k) (set_mem {| mem_buf := buf; mem_pos := pos + 1 |}
                        {| mem := {| mem_buf := buf; mem_pos := pos |};
                           log := lg |}))
        as (buf' & Hrun & Hlen & Hin & Hout).
      { simpl. lia. }
      { lia. }
      simpl in Hrun, Hlen, Hin, Hout.
      exists buf'. simpl. split_and!.
      * rewrite Hrun. replace (pos + 1 + n) with (pos + S n) by lia. done.
      * done.
      * intros [|i] Hi.
        -- rewrite !Nat.add_0_r, Hbit, Hout by lia. done.
        -- replace (pos + S i) with (pos + 1 + i) by lia.
           rewrite Hin by lia. replace (S (k + i)) with (k + S i) by lia.
           done.
      * intros j Hj. apply Hout. lia.
Qed.

Lemma preserves_bind {X A B} (view : World → X) (c : M A) (f : A → M B) :
  preserves view c → (∀ a, preserves view (f a)) → preserves view (c ≫= f).
Proof.
  intros Hc Hf w. unfold mbind, M_bind. specialize (Hc w).
  destruct (c w) as [w1 [a|e]]; simpl in Hc; [|done].
  by rewrite Hf.
Qed.

Lemma preserves_ret {X A} (view : World → X) (a : A) : preserves view (mret a).
Proof. done. Qed.

Lemma preserves_lift {X A} (view : World → X) (r : Res A) :
  preserves view (lift r).
Proof. done. Qed.

Lemma log_info_store (enabled : bool) (r : LogRecord) :
  preserves store (log_info enabled r).
Proof. intros w. by destruct enabled. Qed.

Lemma mmap_seek_store (pos : Z) : preserves store (mmap_seek pos).
Proof. intros w. apply mmap_seek_buf. Qed.

Lemma mmap_seek_cur_store (off : Z) : preserves store (mmap_seek_cur off).
Proof. intros w. apply mmap_seek_cur_buf. Qed.

Lemma mmap_read_store (n : Z) : preserves store (mmap_read n).
Proof. done. Qed.

Lemma mmap_write_store_length (data : list byte) :
  preserves (length ∘ store) (mmap_write data).
Proof. intros w. apply mmap_write_length. Qed.

Lemma preserves_store_length {A} (c : M A) :
  preserves store c → preserves (length ∘ store) c.
Proof. intros Hc w. simpl. by rewrite Hc. Qed.

(** With no strobe bit set the loop only moves the position, also when a
    move is refused at the end of the store. *)
Lemma write_lanes_strb0 (data : list byte) (lanes : list nat) :
  preserves store (write_lanes 0 data lanes).
Proof.
  induction lanes as [|i lanes IH]; [done|].
  cbn [write_lanes]. rewrite strb_bit_0.
  apply preserves_bind; [apply mmap_seek_cur_store|done].
Qed.

(** The loop never changes the length of the store. *)
Lemma write_lanes_length (strb : Z) (data : list byte) (lanes : list nat) :
  preserves (length ∘ store) (write_lanes strb data lanes).
Proof.
  induction lanes as [|i lanes IH]; [done|].
  cbn [write_lanes]. apply preserves_bind; [|done].
  destruct (strb_bit strb i).
  - apply mmap_write_store_length.
  - apply preserves_store_length, mmap_seek_cur_store.
Qed.

End store.

(* ===================================================================== *)
(** * One transaction of each engine *)
(* ===================================================================== *)

Section transactions.
Import AxiLiteRamWrite.

Lemma lift_Ok {A} (r : Res A) (a : A) (w : World) :
  r = Ok a → lift r w = (w, Ok a).
Proof. by intros ->. Qed.

Lemma log_info_Ok (enabled : bool) (r : LogRecord) (w : World) :
  log_info enabled r w =
    ({| mem := mem w; log := log w ++ (if enabled then [r] else []) |}, Ok tt).
Proof.
  unfold log_info. destruct enabled; [done|].
  destruct w. simpl. by rewrite app_nil_r.
Qed.

Lemma py_floordiv_Ok (a : Z) (n : nat) :
  0 < n → py_floordiv a (Z.of_nat n) = Ok (a / Z.of_nat n)%Z.
Proof.
  intros Hn. unfold py_floordiv.
  destruct (Z.eqb_spec (Z.of_nat n) 0); [lia|done].
Qed.

Lemma py_mod_Ok (a : Z) (n : nat) :
  0 < n → py_mod a (Z.of_nat n) = Ok (Z.of_nat (offset n a)).
Proof.
  intros Hn. unfold py_mod, offset.
  destruct (Z.eqb_spec (Z.of_nat n) 0); [lia|].
  pose proof (Z.mod_pos_bound a (Z.of_nat n)). rewrite Z2Nat.id by lia. done.
Qed.

Lemma offset_lt (size : nat) (addr : Z) : 0 < size → offset size addr < size.
Proof.
  intros Hs. unfold offset.
  pose proof (Z.mod_pos_bound addr (Z.of_nat size)). lia.
Qed.

Lemma write_addr_Ok (self : t) (aw : AWBeat) :
  0 < byte_lanes self →
  write_addr self aw = Ok (aligned (byte_lanes self) (awaddr aw)).
Proof.
  intros Hbl. unfold write_addr. rewrite py_floordiv_Ok by done. done.
Qed.

Lemma process_aw_Ok (self : t) (aw : AWBeat) :
  0 < byte_lanes self →
  process_aw self aw =
    Ok (aligned (byte_lanes self) (awaddr aw),
        AxiProt_of (getattr (awprot aw) NONSECURE)).
Proof.
  intros Hbl. unfold process_aw. rewrite write_addr_Ok by done. done.
Qed.

(** Lines 108-128 on a run that lies inside the store. *)
Lemma process_w_fits (self : t) (addr : Z) (prot : AxiProt) (wb : WBeat)
    (w : World) :
  let bl := byte_lanes self in
  let strb := getattr (wstrb wb) (strb_mask self) in
  let off := offset (size self) addr in
  size self = length (mem_buf (mem w)) →
  run_fits (size self) bl addr →
  (0 ≤ wdata wb < 2 ^ (8 * Z.of_nat bl))%Z →
  ∃ buf',
    process_w self addr prot wb w =
      ({| mem := {| mem_buf := buf'; mem_pos := off + bl |};
          log := log w ++
                 (if log_enabled self
                  then [LogWrite addr prot strb (le_octets bl (wdata wb))]
                  else []) |},
       Ok {| bresp := OKAY |})
    ∧ length buf' = length (mem_buf (mem w))
    ∧ (∀ i, i < bl →
         buf' !! (off + i) =
           if strb_bit strb i then le_octets bl (wdata wb) !! i
           else mem_buf (mem w) !! (off + i))
    ∧ (∀ j, ¬ (off ≤ j < off + bl) → buf' !! j = mem_buf (mem w) !! j).
Proof.
  intros bl strb off Hsize [Hpos Hfits] Hdata. unfold process_w.
  erewrite bind_Ok; [|apply lift_Ok, py_mod_Ok; done].
  erewrite bind_Ok; [|apply mmap_seek_Ok; fold off; lia].
  erewrite bind_Ok; [|apply lift_Ok, to_bytes_Ok; done].
  erewrite bind_Ok; [|apply log_info_Ok].
  fold bl strb off. simpl mem. simpl log.
  destruct (write_lanes_fits strb (le_octets bl (wdata wb)) bl 0
              {| mem := {| mem_buf := mem_buf (mem w); mem_pos := off |};
                 log := log w ++
                   (if log_enabled self
                    then [LogWrite addr prot strb (le_octets bl (wdata wb))]
                    else []) |})
    as (buf' & Hrun & Hlen & Hin & Hout).
  { simpl. lia. }
  { rewrite length_le_octets. lia. }
  simpl in Hrun, Hlen, Hin, Hout.
  exists buf'. split_and!; [|done|done|done].
  erewrite bind_Ok; [|exact Hrun]. done.
Qed.

(** The same for a whole iteration of the write loop. *)
Lemma process_write_fits (self : t) (aw : AWBeat) (wb : WBeat) (w : World) :
  let bl := byte_lanes self in
  let addr := aligned bl (awaddr aw) in
  let prot := AxiProt_of (getattr (awprot aw) NONSECURE) in
  let strb := getattr (wstrb wb) (strb_mask self) in
  let off := offset (size self) addr in
  0 < bl →
  size self = length (mem_buf (mem w)) →
  run_fits (size self) bl addr →
  (0 ≤ wdata wb < 2 ^ (8 * Z.of_nat bl))%Z →
  ∃ buf',
    process_write self aw wb w =
      ({| mem := {| mem_buf := buf'; mem_pos := off + bl |};
          log := log w ++
                 (if log_enabled self
                  then [LogWrite addr prot strb (le_octets bl (wdata wb))]
                  else []) |},
       Ok {| bresp := OKAY |})
    ∧ length buf' = length (mem_buf (mem w))
    ∧ (∀ i, i < bl →
         buf' !! (off + i) =
           if strb_bit strb i then le_octets bl (wdata wb) !! i
           else mem_buf (mem w) !! (off + i))
    ∧ (∀ j, ¬ (off ≤ j < off + bl) → buf' !! j = mem_buf (mem w) !! j).
Proof.
  intros bl addr prot strb off Hbl Hsize Hfits Hdata. unfold process_write.
  erewrite bind_Ok; [|apply lift_Ok, process_aw_Ok; done].
  by apply process_w_fits.
Qed.

(** Whatever the beats are, an iteration keeps the length of the store. *)
Lemma process_w_length (self : t) (addr : Z) (prot : AxiProt) (wb : WBeat) :
  preserves (length ∘ store) (process_w self addr prot wb).
Proof.
  unfold process_w.
  apply preserves_bind; [apply preserves_lift|]. intros off.
  apply preserves_bind; [apply preserves_store_length, mmap_seek_store|].
  intros _.
  apply preserves_bind; [apply preserves_lift|]. intros data.
  apply preserves_bind; [apply preserves_store_length, log_info_store|].
  intros _.
  apply preserves_bind; [apply write_lanes_length|]. intros _.
  apply preserves_ret.
Qed.

Lemma process_write_length (self : t) (aw : AWBeat) (wb : WBeat) :
  preserves (length ∘ store) (process_write self aw wb).
Proof.
  unfold process_write.
  apply preserves_bind; [apply preserves_lift|]. intros [addr prot].
  apply process_w_length.
Qed.

(** With no strobe bit set, an iteration leaves every byte of the store as
    it was, whatever else happens. *)
Lemma process_write_strb0 (self : t) (aw : AWBeat) (wb : WBeat) :
  getattr (wstrb wb) (strb_mask self) = 0%Z →
  preserves store (process_write self aw wb).
Proof.
  intros Hstrb. unfold process_write, process_w. rewrite Hstrb.
  apply preserves_bind; [apply preserves_lift|]. intros [addr prot].
  apply preserves_bind; [apply preserves_lift|]. intros off.
  apply preserves_bind; [apply mmap_seek_store|]. intros _.
  apply preserves_bind; [apply preserves_lift|]. intros data.
  apply preserves_bind; [apply log_info_store|]. intros _.
  apply preserves_bind; [apply write_lanes_strb0|]. intros _.
  apply preserves_ret.
Qed.

Lemma read_addr_Ok (self : AxiLiteRamRead.t) (ar : ARBeat) :
  0 < AxiLiteRamRead.byte_lanes self →
  AxiLiteRamRead.read_addr self ar =
    Ok (aligned (AxiLiteRamRead.byte_lanes self) (araddr ar)).
Proof.
  intros Hbl. unfold AxiLiteRamRead.read_addr.
  rewrite py_floordiv_Ok by done. done.
Qed.

(** Lines 195-206: the read never raises on a store that is not empty; it
    returns what lies between the offset and the end of the store, at most
    [byte_lanes] bytes. *)
Lemma process_read_Ok (self : AxiLiteRamRead.t) (ar : ARBeat) (w : World) :
  let bl := AxiLiteRamRead.byte_lanes self in
  let addr := aligned bl (araddr ar) in
  let off := offset (AxiLiteRamRead.size self) addr in
  let data := take bl (drop off (store w)) in
  0 < bl →
  0 < AxiLiteRamRead.size self →
  AxiLiteRamRead.size self = length (store w) →
  AxiLiteRamRead.process_read self ar w =
    (set_mem {| mem_buf := store w; mem_pos := off + length data |} w,
     Ok (addr, AxiProt_of (getattr (arprot ar) NONSECURE), data,
         {| rdata := from_bytes data; rresp := OKAY |})).
Proof.
  intros bl addr off data Hbl Hpos Hsize. unfold AxiLiteRamRead.process_read.
  pose proof (offset_lt (AxiLiteRamRead.size self) addr Hpos) as Hoff.
  erewrite bind_Ok; [|apply lift_Ok, read_addr_Ok; done].
  erewrite bind_Ok; [|apply lift_Ok, py_mod_Ok; done].
  erewrite bind_Ok; [|apply mmap_seek_Ok; fold bl addr off; unfold store in Hsize; lia].
  fold bl addr off.
  unfold mbind, M_bind, mmap_read, mret, M_ret, set_mem, store in *. simpl.
  assert ((if ((Z.of_nat bl <? 0)%Z
               || (Z.of_nat (length (mem_buf (mem w)) - off) <? Z.of_nat bl)%Z)
           then length (mem_buf (mem w)) - off else Z.to_nat (Z.of_nat bl))
          = length data) as ->.
  { subst data. rewrite length_take, length_drop.
    destruct (Z.ltb_spec (Z.of_nat bl) 0); [lia|].
    destruct (Z.ltb_spec (Z.of_nat (length (mem_buf (mem w)) - off))
                (Z.of_nat bl)); simpl; lia. }
  assert (take (length data) (drop off (mem_buf (mem w))) = data) as ->.
  { subst data. rewrite length_take, length_drop.
    destruct (Nat.min_spec bl (length (mem_buf (mem w)) - off))
      as [[_ ->]|[Hle ->]]; [done|].
    rewrite !take_ge by (rewrite length_drop; lia). done. }
  done.
Qed.

(** A read transaction leaves every byte of the store as it was. *)
Lemma process_read_store (self : AxiLiteRamRead.t) (ar : ARBeat) :
  preserves store (AxiLiteRamRead.process_read self ar).
Proof.
  unfold AxiLiteRamRead.process_read.
  apply preserves_bind; [apply preserves_lift|]. intros addr.
  apply preserves_bind; [apply preserves_lift|]. intros off.
  apply preserves_bind; [apply mmap_seek_store|]. intros _.
  apply preserves_bind; [apply mmap_read_store|]. intros data.
  apply preserves_ret.
Qed.

(** A store whose size is a multiple of the number of byte lanes holds
    the run of every aligned address. *)
Lemma divide_run_fits (size lanes : nat) (addr : Z) :
  0 < lanes → 0 < size → (lanes | size) →
  run_fits size lanes (aligned lanes addr).
Proof.
  intros Hl Hs [k ->]. split; [done|]. unfold offset, aligned.
  rewrite Nat2Z.inj_mul, Z.mul_mod_distr_r by lia.
  pose proof (Z.mod_pos_bound (addr / Z.of_nat lanes) (Z.of_nat k)).
  nia.
Qed.

End transactions.

(* ===================================================================== *)
(** * The example configurations are what the constructors build *)
(* ===================================================================== *)

Lemma demo_write_init :
  AxiLiteRamWrite.__init__ (AxiLiteRamWrite.MkBus 32 32 (Some 4)) true (mem demo_world)
  = Ok demo_write.
Proof. reflexivity. Qed.

Lemma demo_read_init :
  AxiLiteRamRead.__init__ (AxiLiteRamRead.MkBus 32 32) true (mem demo_world)
  = Ok demo_read.
Proof. reflexivity. Qed.

Lemma odd_write_init :
  AxiLiteRamWrite.__init__ (AxiLiteRamWrite.MkBus 32 32 (Some 4)) true (mem odd_world)
  = Ok odd_write.
Proof. reflexivity. Qed.

Lemma odd_read_init :
  AxiLiteRamRead.__init__ (AxiLiteRamRead.MkBus 32 32) true (mem odd_world)
  = Ok odd_read.
Proof. reflexivity. Qed.

(** The scenario of the specification: address 0x10, data 0xAABBCCDD,
    strobe 0b0011 changes the two low bytes only. *)
Example demo_write_0x10 :
  let w' := (AxiLiteRamWrite.process_write demo_write (MkAW 0x10 None)
               (MkW 0xAABBCCDD (Some 3%Z)) demo_world).1 in
  take 4 (drop 16 (store w')) = [xdd; xcc; x5a; x5a].
Proof. vm_compute. reflexivity. Qed.

(* ===================================================================== *)
(** * Properties of one transaction *)
(* ===================================================================== *)

(** C4. Both engines compute the effective address as
    floor(address / byte_lanes) * byte_lanes: the address is rounded down to
    the nearest multiple of the byte-lane count, not rejected; with 4 byte
    lanes, address 7 gives 4. *)
Theorem aligned_address (ws : AxiLiteRamWrite.t) (rs : AxiLiteRamRead.t)
    (a : Z) (pw pr : option Z) :
  let wl := AxiLiteRamWrite.byte_lanes ws in
  let rl := AxiLiteRamRead.byte_lanes rs in
  0 < wl → 0 < rl →
  AxiLiteRamWrite.write_addr ws (MkAW a pw) = Ok (a / Z.of_nat wl * Z.of_nat wl)%Z
  ∧ AxiLiteRamRead.read_addr rs (MkAR a pr) = Ok (a / Z.of_nat rl * Z.of_nat rl)%Z
  ∧ (∀ n : nat, 0 < n →
       let e := aligned n a in
       (e = a - a mod Z.of_nat n
        ∧ e mod Z.of_nat n = 0
        ∧ e ≤ a < e + Z.of_nat n
        ∧ ∀ m, m mod Z.of_nat n = 0 → m ≤ a → m ≤ e)%Z)
  ∧ aligned 4 7 = 4%Z.
Proof.
  intros wl rl Hwl Hrl. split_and!.
  - by rewrite write_addr_Ok.
  - by rewrite read_addr_Ok.
  - intros n Hn e. subst e. unfold aligned.
    pose proof (Z.mod_pos_bound a (Z.of_nat n)).
    pose proof (Z.div_mod a (Z.of_nat n)).
    split_and!; try lia.
    + apply Z.mod_mul. lia.
    + intros m Hm Hle. apply Z.mod_divide in Hm; [|lia].
      destruct Hm as [k ->].
      assert (k ≤ a / Z.of_nat n)%Z; [|nia].
      apply Z.div_le_lower_bound; lia.
  - reflexivity.
Qed.

Lemma aligned_address_witness :
  AxiLiteRamWrite.write_addr demo_write (MkAW 7 None) = Ok 4%Z
  ∧ AxiLiteRamRead.read_addr demo_read (MkAR 7 None) = Ok 4%Z.
Proof.
  destruct (aligned_address demo_write demo_read 7 None None) as (Hw & Hr & _);
    [simpl; lia|simpl; lia|].
  split; [exact Hw|exact Hr].
Defined.

(** C2. For a write with strobe mask [m], the data word is laid out least
    significant byte first; exactly the byte positions [i] below
    [byte_lanes] with bit [i] of [m] set are written, every other byte of
    the store keeps its value while the position moves past all
    [byte_lanes] bytes, and with [m = 0] the store is unchanged. *)
Theorem strobe_masking (self : AxiLiteRamWrite.t) (aw : AWBeat) (wb : WBeat)
    (w : World) :
  let bl := AxiLiteRamWrite.byte_lanes self in
  let m := getattr (wstrb wb) (AxiLiteRamWrite.strb_mask self) in
  let off := offset (AxiLiteRamWrite.size self) (aligned bl (awaddr aw)) in
  0 < bl →
  AxiLiteRamWrite.size self = length (store w) →
  run_fits (AxiLiteRamWrite.size self) bl (aligned bl (awaddr aw)) →
  (0 ≤ wdata wb < 2 ^ (8 * Z.of_nat bl))%Z →
  ∃ w',
    AxiLiteRamWrite.process_write self aw wb w = (w', Ok {| bresp := OKAY |})
    ∧ length (store w') = length (store w)
    ∧ mem_pos (mem w') = off + bl
    ∧ (∀ i, i < bl →
         store w' !! (off + i) =
           if Z.testbit m (Z.of_nat i)
           then Some (byte_of_Z (wdata wb / 256 ^ Z.of_nat i))
           else store w !! (off + i))
    ∧ (∀ j, ¬ (off ≤ j < off + bl) → store w' !! j = store w !! j)
    ∧ (m = 0%Z → store w' = store w).
Proof.
  intros bl m off Hbl Hsize Hfits Hdata.
  destruct (process_write_fits self aw wb w Hbl Hsize Hfits Hdata)
    as (buf' & Hrun & Hlen & Hin & Hout).
  eexists. split; [exact Hrun|]. unfold store. simpl. split_and!; try done.
  - intros i Hi. rewrite Hin by done. fold m.
    rewrite strb_bit_testbit, lookup_le_octets by done. done.
  - intros Hm. pose proof (process_write_strb0 self aw wb Hm w) as Hst.
    rewrite Hrun in Hst. exact Hst.
Qed.

Lemma strobe_masking_witness :
  ∃ w',
    AxiLiteRamWrite.process_write demo_write (MkAW 0x10 None)
      (MkW 0xAABBCCDD (Some 3%Z)) demo_world = (w', Ok {| bresp := OKAY |})
    ∧ store w' !! 16 = Some xdd ∧ store w' !! 17 = Some xcc
    ∧ store w' !! 18 = Some x5a ∧ store w' !! 19 = Some x5a.
Proof.
  destruct (strobe_masking demo_write (MkAW 0x10 None)
              (MkW 0xAABBCCDD (Some 3%Z)) demo_world)
    as (w' & Hrun & _ & _ & Hin & _).
  - simpl. lia.
  - reflexivity.
  - split; vm_compute; lia.
  - simpl. lia.
  - exists w'. split; [exact Hrun|].
    pose proof (Hin 0) as H0. pose proof (Hin 1) as H1.
    pose proof (Hin 2) as H2. pose proof (Hin 3) as H3.
    split_and!; [apply H0|apply H1|apply H2|apply H3]; simpl; lia.
Defined.

Lemma offset_add (size lanes : nat) (addr : Z) (i : nat) :
  run_fits size lanes addr → i < lanes →
  offset size (addr + Z.of_nat i) = offset size addr + i.
Proof.
  intros [Hs Hfits] Hi. unfold offset in *.
  pose proof (Z.mod_pos_bound addr (Z.of_nat size)).
  rewrite <- Z.add_mod_idemp_l by lia.
  rewrite Z.mod_small by lia. lia.
Qed.

(** C5, as the specification has it, fails: in a store of 5 bytes with 4
    byte lanes, the access to address 4 starts at the last byte of the
    store and the bytes after it do not come back to offset 0. *)
Lemma lands_modulo_counterexample :
  ¬ write_lands_modulo odd_write (MkAW 4 None) (MkW 0xAABBCCDD None) odd_world
  ∧ ¬ read_lands_modulo odd_read (MkAR 4 None) odd_world.
Proof.
  split.
  - intros H. specialize (H 1). vm_compute in H.
    specialize (H (le_n_S _ _ (le_n_S _ _ (le_S _ _ (le_S _ _ (le_n 0)))))
                  eq_refl).
    discriminate H.
  - intros (prot & data & r & Hrun & Hi). vm_compute in Hrun.
    injection Hrun as _ <- _. specialize (Hi 1). vm_compute in Hi.
    specialize (Hi (le_n_S _ _ (le_n_S _ _ (le_S _ _ (le_S _ _ (le_n 0)))))).
    discriminate Hi.
Qed.

(** What the engines do there: the write stores the byte that fits and then
    raises, the read returns the one byte before the end of the store. *)
Example odd_write_raises :
  AxiLiteRamWrite.process_write odd_write (MkAW 4 None) (MkW 0xAABBCCDD None)
    odd_world
  = ({| mem := {| mem_buf := [x10; x11; x12; x13; xdd]; mem_pos := 5 |};
        log := [LogWrite 4 NONSECURE 15 [xdd; xcc; xbb; xaa]] |},
     Raise ValueError).
Proof. vm_compute. reflexivity. Qed.

Example odd_read_short :
  AxiLiteRamRead.process_read odd_read (MkAR 4 None) odd_world
  = ({| mem := {| mem_buf := [x10; x11; x12; x13; x14]; mem_pos := 5 |};
        log := [] |},
     Ok (4%Z, NONSECURE, [x14], {| rdata := 0x14; rresp := OKAY |})).
Proof. vm_compute. reflexivity. Qed.

(** C5, amended. The access of either engine starts at the effective
    address modulo the size of the store (addresses alias); when the run of
    [byte_lanes] bytes from there lies inside the store, which it always
    does when the size of the store is a multiple of [byte_lanes], byte [i]
    of the access is the byte at offset (effective address + i) modulo the
    size of the store. *)
Theorem lands_modulo_when_run_fits (ws : AxiLiteRamWrite.t)
    (rs : AxiLiteRamRead.t) (aw : AWBeat) (wb : WBeat) (ar : ARBeat)
    (w : World) :
  let wl := AxiLiteRamWrite.byte_lanes ws in
  let rl := AxiLiteRamRead.byte_lanes rs in
  0 < wl → 0 < rl →
  AxiLiteRamWrite.size ws = length (store w) →
  AxiLiteRamRead.size rs = length (store w) →
  (0 ≤ wdata wb < 2 ^ (8 * Z.of_nat wl))%Z →
  run_fits (length (store w)) wl (aligned wl (awaddr aw)) →
  run_fits (length (store w)) rl (aligned rl (araddr ar)) →
  (AxiLiteRamWrite.process_write ws aw wb w).2 = Ok {| bresp := OKAY |}
  ∧ write_lands_modulo ws aw wb w
  ∧ read_lands_modulo rs ar w
  ∧ (∀ a, (wl | length (store w)) →
       run_fits (length (store w)) wl (aligned wl a))
  ∧ (∀ a, (rl | length (store w)) →
       run_fits (length (store w)) rl (aligned rl a)).
Proof.
  intros wl rl Hwl Hrl Hws Hrs Hdata Hwfits Hrfits.
  rewrite <- Hws in Hwfits.
  destruct (process_write_fits ws aw wb w Hwl Hws Hwfits Hdata)
    as (buf' & Hrun & Hlen & Hin & Hout).
  split_and!.
  - by rewrite Hrun.
  - intros i Hi Hbit. rewrite Hrun. unfold store. cbn [fst mem mem_buf].
    fold wl in Hwfits, Hi |- *.
    rewrite (offset_add _ _ _ _ Hwfits Hi), Hin by done.
    by rewrite Hbit.
  - unfold read_lands_modulo. fold rl.
    rewrite process_read_Ok by (done || (destruct Hrfits; lia)).
    do 3 eexists. split; [reflexivity|].
    intros i Hi. rewrite <- Hrs in Hrfits.
    rewrite (offset_add _ _ _ _ Hrfits Hi).
    rewrite lookup_take_lt by done. apply lookup_drop.
  - intros a Hdiv. apply divide_run_fits; [done| |done]. destruct Hrfits; lia.
  - intros a Hdiv. apply divide_run_fits; [done| |done]. destruct Hrfits; lia.
Qed.

Lemma lands_modulo_when_run_fits_witness :
  write_lands_modulo demo_write (MkAW 0x3fe None) (MkW 0xAABBCCDD None)
    demo_world
  ∧ read_lands_modulo demo_read (MkAR (0x3fe + 1024) None) demo_world.
Proof.
  destruct (lands_modulo_when_run_fits demo_write demo_read (MkAW 0x3fe None)
              (MkW 0xAABBCCDD None) (MkAR (0x3fe + 1024) None) demo_world)
    as (_ & Hw & Hr & _).
  - simpl. lia.
  - simpl. lia.
  - reflexivity.
  - reflexivity.
  - simpl. lia.
  - split; vm_compute; lia.
  - split; vm_compute; lia.
  - split; [exact Hw|exact Hr].
Defined.

(** C6. A write of [V] with every strobe bit set, followed by a read at the
    same effective offset, returns exactly [V]. *)
Theorem write_read_roundtrip (ws : AxiLiteRamWrite.t) (rs : AxiLiteRamRead.t)
    (aw : AWBeat) (wb : WBeat) (ar : ARBeat) (w : World) :
  let bl := AxiLiteRamWrite.byte_lanes ws in
  let m := getattr (wstrb wb) (AxiLiteRamWrite.strb_mask ws) in
  0 < bl →
  AxiLiteRamRead.byte_lanes rs = bl →
  AxiLiteRamWrite.size ws = length (store w) →
  AxiLiteRamRead.size rs = length (store w) →
  run_fits (length (store w)) bl (aligned bl (awaddr aw)) →
  (0 ≤ wdata wb < 2 ^ (8 * Z.of_nat bl))%Z →
  (∀ i, i < bl → Z.testbit m (Z.of_nat i) = true) →
  offset (length (store w)) (aligned bl (araddr ar)) =
  offset (length (store w)) (aligned bl (awaddr aw)) →
  ∃ w1 w2 addr prot data,
    AxiLiteRamWrite.process_write ws aw wb w = (w1, Ok {| bresp := OKAY |})
    ∧ AxiLiteRamRead.process_read rs ar w1 =
        (w2, Ok (addr, prot, data, {| rdata := wdata wb; rresp := OKAY |})).
Proof.
  intros bl m Hbl Hrl Hws Hrs Hfits Hdata Hfull Hoff.
  rewrite <- Hws in Hfits.
  destruct (process_write_fits ws aw wb w Hbl Hws Hfits Hdata)
    as (buf' & Hrun & Hlen & Hin & Hout).
  fold bl in Hrun, Hin, Hout.
  eexists _, _, _, _, _. split; [exact Hrun|].
  destruct Hfits as [Hpos Hfits].
  rewrite process_read_Ok; unfold store in *; cbn [fst mem mem_buf];
    [|lia|lia|lia].
  rewrite Hrl, Hrs, Hoff, <- Hws.
  set (off := offset _ _) in *.
  assert (take bl (drop off buf') = le_octets bl (wdata wb)) as ->.
  { apply list_eq. intros i. destruct (decide (i < bl)) as [Hi|Hi].
    - rewrite lookup_take_lt, lookup_drop, Hin by done.
      by rewrite strb_bit_testbit, Hfull.
    - rewrite lookup_take_ge by lia. symmetry. apply lookup_ge_None.
      rewrite length_le_octets. lia. }
  rewrite from_bytes_le_octets, Z.mod_small by done. done.
Qed.

Lemma write_read_roundtrip_witness :
  ∃ w1 w2 addr prot data,
    AxiLiteRamWrite.process_write demo_write (MkAW 0x10 None)
      (MkW 0xAABBCCDD (Some 15%Z)) demo_world = (w1, Ok {| bresp := OKAY |})
    ∧ AxiLiteRamRead.process_read demo_read (MkAR 0x13 None) w1 =
        (w2, Ok (addr, prot, data, {| rdata := 0xAABBCCDD; rresp := OKAY |})).
Proof.
  apply (write_read_roundtrip demo_write demo_read (MkAW 0x10 None)
           (MkW 0xAABBCCDD (Some 15%Z)) (MkAR 0x13 None) demo_world).
  - simpl. lia.
  - reflexivity.
  - reflexivity.
  - reflexivity.
  - split; vm_compute; lia.
  - simpl. lia.
  - intros [|[|[|[|i]]]] Hi; try reflexivity. simpl in Hi. lia.
  - reflexivity.
Defined.

(** Line 61: the constructor sets [strb_mask] to [2 ** byte_lanes - 1]. *)
Lemma init_strb_mask (bus : AxiLiteRamWrite.Bus) (enabled : bool) (m : Mem)
    (self : AxiLiteRamWrite.t) :
  AxiLiteRamWrite.__init__ bus enabled m = Ok self →
  AxiLiteRamWrite.strb_mask self
  = (2 ^ Z.of_nat (AxiLiteRamWrite.byte_lanes self) - 1)%Z.
Proof.
  unfold AxiLiteRamWrite.__init__.
  destruct (AxiLiteRamWrite.wstrb_len bus) as [n|];
    unfold attribute, mbind, Res_bind; [|done].
  repeat match goal with |- context [if ?c then _ else _] => destruct c end;
    intros [= <-]; done.
Qed.

(** C8. An address beat without protection field is processed with the
    fixed non-secure value, by both engines; a write-data beat without
    strobe field is processed with the mask that has all [byte_lanes] bits
    set, so that every byte lane is written. *)
Theorem default_fields (ws : AxiLiteRamWrite.t) (rs : AxiLiteRamRead.t)
    (a d : Z) (aw : AWBeat) (wb : WBeat) (w : World) :
  let bl := AxiLiteRamWrite.byte_lanes ws in
  let off := offset (AxiLiteRamWrite.size ws) (aligned bl (awaddr aw)) in
  AxiLiteRamWrite.strb_mask ws = (2 ^ Z.of_nat bl - 1)%Z →
  0 < bl →
  AxiLiteRamWrite.size ws = length (store w) →
  run_fits (AxiLiteRamWrite.size ws) bl (aligned bl (awaddr aw)) →
  (0 ≤ d < 2 ^ (8 * Z.of_nat bl))%Z →
  AxiLiteRamWrite.process_aw ws (MkAW a None) = Ok (aligned bl a, NONSECURE)
  ∧ AxiLiteRamWrite.process_write ws (MkAW a None) wb w
    = AxiLiteRamWrite.process_write ws (MkAW a (Some NONSECURE)) wb w
  ∧ AxiLiteRamRead.process_read rs (MkAR a None) w
    = AxiLiteRamRead.process_read rs (MkAR a (Some NONSECURE)) w
  ∧ (∀ addr data r prot,
       (AxiLiteRamRead.process_read rs (MkAR a None) w).2
       = Ok (addr, prot, data, r) → prot = NONSECURE)
  ∧ AxiLiteRamWrite.process_write ws aw (MkW d None) w
    = AxiLiteRamWrite.process_write ws aw
        (MkW d (Some (AxiLiteRamWrite.strb_mask ws))) w
  ∧ (∀ i, i < bl →
       Z.testbit (getattr (wstrb (MkW d None)) (AxiLiteRamWrite.strb_mask ws))
         (Z.of_nat i) = true)
  ∧ ∃ w',
      AxiLiteRamWrite.process_write ws aw (MkW d None) w
      = (w', Ok {| bresp := OKAY |})
      ∧ ∀ i, i < bl →
          store w' !! (off + i) = Some (byte_of_Z (d / 256 ^ Z.of_nat i)).
Proof.
  intros bl off Hmask Hbl Hsize Hfits Hd. split_and!.
  - by rewrite process_aw_Ok.
  - done.
  - done.
  - intros addr data r prot.
    unfold AxiLiteRamRead.process_read, mbind, M_bind, lift, mret, M_ret.
    destruct (AxiLiteRamRead.read_addr _ _) as [q|e]; [|done].
    destruct (py_mod _ _) as [o|e]; [|done].
    destruct (mmap_seek o w) as [w1 [[]|e]]; [|done].
    destruct (mmap_read _ w1) as [w2 [dat|e]]; [|done].
    simpl. by intros [= _ <- _ _].
  - done.
  - intros i Hi. simpl. rewrite Hmask, <- strb_bit_testbit.
    by apply strb_bit_mask.
  - destruct (process_write_fits ws aw (MkW d None) w Hbl Hsize Hfits Hd)
      as (buf' & Hrun & Hlen & Hin & Hout).
    eexists. split; [exact Hrun|]. intros i Hi. unfold store. simpl.
    fold bl off in Hin. rewrite Hin by done. simpl.
    rewrite Hmask, strb_bit_mask, lookup_le_octets by done. done.
Qed.

Lemma default_fields_witness :
  AxiLiteRamWrite.process_aw demo_write (MkAW 0x10 None) = Ok (16%Z, NONSECURE)
  ∧ ∃ w',
      AxiLiteRamWrite.process_write demo_write (MkAW 0x10 None)
        (MkW 0xAABBCCDD None) demo_world = (w', Ok {| bresp := OKAY |})
      ∧ store w' !! 19 = Some xaa.
Proof.
  destruct (default_fields demo_write demo_read 0x10 0xAABBCCDD
              (MkAW 0x10 None) (MkW 0 None) demo_world)
    as (Haw & _ & _ & _ & _ & _ & w' & Hrun & Hin).
  - reflexivity.
  - simpl. lia.
  - reflexivity.
  - split; vm_compute; lia.
  - simpl. lia.
  - split; [exact Haw|]. exists w'. split; [exact Hrun|].
    apply (Hin 3). simpl. lia.
Defined.

(** C9. Construction fails with an assertion error when the data width is
    not a whole number of bytes or when the strobe signal is not as wide as
    the number of byte lanes (data width / 8); when both hold it gets past
    these checks. *)
Theorem init_checks :
  (∀ bus enabled m n,
     AxiLiteRamWrite.wstrb_len bus = Some n →
     AxiLiteRamWrite.wdata_len bus `mod` 8 ≠ 0
     ∨ n ≠ AxiLiteRamWrite.wdata_len bus `div` 8 →
     AxiLiteRamWrite.__init__ bus enabled m = Raise AssertionError)
  ∧ (∀ bus enabled m,
       AxiLiteRamWrite.wdata_len bus `mod` 8 = 0 →
       AxiLiteRamWrite.wstrb_len bus
       = Some (AxiLiteRamWrite.wdata_len bus `div` 8) →
       ∃ self,
         AxiLiteRamWrite.__init__ bus enabled m = Ok self
         ∧ AxiLiteRamWrite.byte_lanes self
           = AxiLiteRamWrite.wdata_len bus `div` 8)
  ∧ (∀ bus enabled m,
       AxiLiteRamRead.rdata_len bus `mod` 8 ≠ 0 →
       AxiLiteRamRead.__init__ bus enabled m = Raise AssertionError)
  ∧ (∀ bus enabled m,
       AxiLiteRamRead.rdata_len bus `mod` 8 = 0 →
       ∃ self,
         AxiLiteRamRead.__init__ bus enabled m = Ok self
         ∧ AxiLiteRamRead.byte_lanes self = AxiLiteRamRead.rdata_len bus `div` 8)
  ∧ (∀ wbus rbus enabled m n,
       AxiLiteRamWrite.wstrb_len wbus = Some n →
       AxiLiteRamWrite.wdata_len wbus `mod` 8 ≠ 0
       ∨ n ≠ AxiLiteRamWrite.wdata_len wbus `div` 8
       ∨ AxiLiteRamRead.rdata_len rbus `mod` 8 ≠ 0 →
       AxiLiteRam.__init__ wbus rbus enabled m = Raise AssertionError)
  ∧ (∀ wbus rbus enabled m,
       AxiLiteRamWrite.wdata_len wbus `mod` 8 = 0 →
       AxiLiteRamWrite.wstrb_len wbus
       = Some (AxiLiteRamWrite.wdata_len wbus `div` 8) →
       AxiLiteRamRead.rdata_len rbus `mod` 8 = 0 →
       ∃ ram, AxiLiteRam.__init__ wbus rbus enabled m = Ok ram).
Proof.
  assert (∀ n, (n `div` 8 * 8 =? n) = true ↔ n `mod` 8 = 0) as Hdiv.
  { intros n. rewrite Nat.eqb_eq. pose proof (Nat.div_mod_eq n 8). lia. }
  assert (∀ bus enabled m n,
     AxiLiteRamWrite.wstrb_len bus = Some n →
     AxiLiteRamWrite.wdata_len bus `mod` 8 ≠ 0
     ∨ n ≠ AxiLiteRamWrite.wdata_len bus `div` 8 →
     AxiLiteRamWrite.__init__ bus enabled m = Raise AssertionError) as Hwfail.
  { intros bus enabled m n Hn Hbad. unfold AxiLiteRamWrite.__init__.
    rewrite Hn. unfold attribute, mbind, Res_bind.
    destruct (Nat.eqb_spec (AxiLiteRamWrite.wdata_len bus `div` 8) n)
      as [Hs|Hs]; [|done].
    destruct (_ * 8 =? _) eqn:Hw; [|done].
    apply Hdiv in Hw. lia. }
  assert (∀ bus enabled m,
       AxiLiteRamWrite.wdata_len bus `mod` 8 = 0 →
       AxiLiteRamWrite.wstrb_len bus
       = Some (AxiLiteRamWrite.wdata_len bus `div` 8) →
       ∃ self,
         AxiLiteRamWrite.__init__ bus enabled m = Ok self
         ∧ AxiLiteRamWrite.byte_lanes self
           = AxiLiteRamWrite.wdata_len bus `div` 8) as Hwok.
  { intros bus enabled m Hw Hs. unfold AxiLiteRamWrite.__init__.
    rewrite Hs. unfold attribute, mbind, Res_bind.
    rewrite Nat.eqb_refl. cbn [negb].
    apply Hdiv in Hw. rewrite Hw. cbn [negb]. eauto. }
  assert (∀ bus enabled m,
       AxiLiteRamRead.rdata_len bus `mod` 8 ≠ 0 →
       AxiLiteRamRead.__init__ bus enabled m = Raise AssertionError) as Hrfail.
  { intros bus enabled m Hbad. unfold AxiLiteRamRead.__init__.
    destruct (_ * 8 =? _) eqn:Hw; [|done]. apply Hdiv in Hw. lia. }
  assert (∀ bus enabled m,
       AxiLiteRamRead.rdata_len bus `mod` 8 = 0 →
       ∃ self,
         AxiLiteRamRead.__init__ bus enabled m = Ok self
         ∧ AxiLiteRamRead.byte_lanes self = AxiLiteRamRead.rdata_len bus `div` 8)
    as Hrok.
  { intros bus enabled m Hw. unfold AxiLiteRamRead.__init__.
    apply Hdiv in Hw. rewrite Hw. simpl. eauto. }
  split_and!; try done.
  - intros wbus rbus enabled m n Hn Hbad. unfold AxiLiteRam.__init__.
    destruct (decide (AxiLiteRamWrite.wdata_len wbus `mod` 8 = 0
                      ∧ n = AxiLiteRamWrite.wdata_len wbus `div` 8))
      as [[Hw ->]|Hnot].
    + destruct (Hwok wbus enabled m Hw Hn) as (self & -> & _).
      simpl. rewrite Hrfail; [done|]. lia.
    + rewrite (Hwfail _ _ _ n); [done|done|]. lia.
  - intros wbus rbus enabled m Hw Hs Hr. unfold AxiLiteRam.__init__.
    destruct (Hwok wbus enabled m Hw Hs) as (ws & -> & _).
    destruct (Hrok rbus enabled m Hr) as (rs & -> & _).
    simpl. eauto.
Qed.

Lemma init_checks_witness :
  AxiLiteRamWrite.__init__ (AxiLiteRamWrite.MkBus 32 30 (Some 4)) true
    (mem odd_world) = Raise AssertionError
  ∧ AxiLiteRamWrite.__init__ (AxiLiteRamWrite.MkBus 32 32 (Some 2)) true
      (mem odd_world) = Raise AssertionError
  ∧ (∃ ram,
       AxiLiteRam.__init__ (AxiLiteRamWrite.MkBus 32 32 (Some 4))
         (AxiLiteRamRead.MkBus 32 64) true (mem odd_world) = Ok ram).
Proof.
  destruct init_checks as (Hwfail & _ & _ & _ & _ & Hok).
  split_and!.
  - apply (Hwfail _ _ _ 4); [reflexivity|]. left. simpl. lia.
  - apply (Hwfail _ _ _ 2); [reflexivity|]. right. simpl. lia.
  - apply Hok; reflexivity.
Defined.

(** A bus without strobe signal does not get as far as the assertions. *)
Example init_without_strobe :
  AxiLiteRamWrite.__init__ (AxiLiteRamWrite.MkBus 32 32 None) true
    (mem demo_world) = Raise AttributeError.
Proof. reflexivity. Qed.

(** The read path of the interface never changes a byte of the store. *)
Lemma read_step_store (ev : AxiLiteRamRead.Event) (w : World)
    (self : AxiLiteRamRead.t) :
  store (AxiLiteRamRead.step ev w self).1.1 = store w.
Proof.
  destruct ev as [ar| |tid|state]; simpl.
  - by destruct (offer _ _).
  - by destruct (transmit _) as [[r ch]|].
  - unfold AxiLiteRamRead._process_read.
    destruct (_ !! tid) as [[|addr prot data r]|]; [| |done].
    + destruct (recv _) as [[ar ch]|]; [|done].
      pose proof (process_read_store (AxiLiteRamRead.set_ar_channel ch self)
                    ar w) as Hst.
      destruct (AxiLiteRamRead.process_read _ ar w)
        as [w' [[[[addr prot] data] r]|e]]; exact Hst.
    + destruct (transmitted _); [|done]. simpl. apply log_info_store.
  - unfold AxiLiteRamRead._handle_reset.
    destruct state; simpl.
    + apply log_info_store.
    + destruct (AxiLiteRamRead._process_read_cr self); simpl;
        apply log_info_store.
Qed.

(** C10. A read transaction leaves every byte of the backing store as it
    was: the read engine only seeks and reads, so the store after any
    sequence of events of the read interface is the store before it. *)
Theorem read_leaves_store :
  (∀ self ar w,
     store (AxiLiteRamRead.process_read self ar w).1 = store w)
  ∧ (∀ tid w self,
       store (AxiLiteRamRead._process_read tid w self).1.1 = store w)
  ∧ (∀ evs ram,
       store (AxiLiteRam.world
                (AxiLiteRam.run (map AxiLiteRam.OnRead evs) ram).1)
       = store (AxiLiteRam.world ram)).
Proof.
  split_and!.
  - intros self ar w. apply process_read_store.
  - intros tid w self. apply (read_step_store (AxiLiteRamRead.Resume tid)).
  - induction evs as [|ev evs IH]; intros ram; [done|].
    simpl. pose proof (read_step_store ev (AxiLiteRam.world ram)
                         (AxiLiteRam.read_if ram)) as Hstep.
    destruct (AxiLiteRamRead.step ev _ _) as [[w1 rif] ls]. simpl in Hstep.
    specialize (IH {| AxiLiteRam.world := w1;
                      AxiLiteRam.write_if := AxiLiteRam.write_if ram;
                      AxiLiteRam.read_if := rif |}).
    destruct (AxiLiteRam.run _ _) as [ram2 l2]. simpl in *.
    by rewrite IH.
Qed.

(* ===================================================================== *)
(** * The reset handlers and the task of each engine *)
(* ===================================================================== *)

Section write_reset.
Import AxiLiteRamWrite.

Lemma write_one_task_size (self : t) : one_task self → base.size (running self) ≤ 1.
Proof.
  intros [->|(tid & pc & -> & _)].
  - rewrite map_size_empty. lia.
  - rewrite map_size_singleton. lia.
Qed.

Lemma write_reset_asserted (w : World) (self : t) :
  one_task self → (_handle_reset true w self).2 = cleared self.
Proof.
  intros Hone. unfold _handle_reset, cleared. simpl.
  destruct (_process_write_cr self) as [cr|] eqn:Hcr.
  - unfold kill, set_cr, set_running, set_aw_channel, set_w_channel,
      set_b_channel, clear, new_channel. simpl.
    destruct Hone as [->|(tid & pc & -> & Htid)].
    + by rewrite delete_empty.
    + rewrite Hcr in Htid. injection Htid as ->.
      by rewrite delete_singleton_eq.
  - destruct Hone as [Hrun|(tid & pc & _ & Htid)]; [|congruence].
    unfold set_aw_channel, set_w_channel, set_b_channel, clear, new_channel.
    simpl. by rewrite Hrun, Hcr.
Qed.

Lemma write_reset_deasserted_running (w : World) (self : t) (tid : nat) :
  _process_write_cr self = Some tid → (_handle_reset false w self).2 = self.
Proof. intros Hcr. unfold _handle_reset. by rewrite Hcr. Qed.

Lemma write_reset_deasserted_stopped (w : World) (self : t) :
  _process_write_cr self = None →
  (_handle_reset false w self).2 =
    set_cr (Some (next_tid self)) (fork self).2.
Proof. intros Hcr. unfold _handle_reset. by rewrite Hcr. Qed.

Lemma write_one_task_step (ev : Event) (w : World) (self : t) :
  one_task self → one_task (step ev w self).1.2.
Proof.
  intros Hone. destruct ev as [aw|wb| |tid|state]; simpl.
  - by destruct (offer _ _).
  - by destruct (offer _ _).
  - by destruct (transmit _) as [[b ch]|].
  - unfold _process_write.
    destruct (running self !! tid) as [pc|] eqn:Hpc; [|done].
    destruct Hone as [Hrun|(tid' & pc' & Hrun & Hcr)].
    { rewrite Hrun in Hpc. by rewrite lookup_empty in Hpc. }
    rewrite Hrun in Hpc. apply lookup_singleton_Some in Hpc as [-> ->].
    destruct pc as [|aw addr prot|b].
    + destruct (recv _) as [[aw ch]|]; [|right; eauto].
      destruct (process_aw _ aw) as [[addr prot]|e]; simpl.
      * right. exists tid, (AwaitW aw addr prot).
        simpl. by rewrite Hrun, insert_singleton_eq.
      * left. simpl. by rewrite Hrun, delete_singleton_eq.
    + destruct (recv _) as [[wb ch]|]; [|right; eauto].
      destruct (process_w _ addr prot wb w) as [w' [b|e]]; simpl.
      * right. exists tid, (AwaitSend b).
        simpl. by rewrite Hrun, insert_singleton_eq.
      * left. simpl. by rewrite Hrun, delete_singleton_eq.
    + destruct (transmitted _); simpl; [|right; eauto].
      right. exists tid, AwaitAW. simpl. by rewrite Hrun, insert_singleton_eq.
  - pose proof (write_reset_asserted w self Hone) as Hassert.
    destruct state.
    + destruct (_handle_reset true w self) as [w' self'] eqn:Hreset.
      simpl in *. subst self'. by left.
    + unfold _handle_reset.
      destruct (_process_write_cr self) as [cr|] eqn:Hcr; simpl; [done|].
      destruct Hone as [Hrun|(tid & pc & _ & Htid)]; [|congruence].
      right. exists (next_tid self), AwaitAW. simpl.
      by rewrite Hrun, insert_empty.
Qed.

End write_reset.

Section read_reset.
Import AxiLiteRamRead.

Lemma read_one_task_size (self : t) : one_task self → base.size (running self) ≤ 1.
Proof.
  intros [->|(tid & pc & -> & _)].
  - rewrite map_size_empty. lia.
  - rewrite map_size_singleton. lia.
Qed.

Lemma read_reset_asserted (w : World) (self : t) :
  one_task self → (_handle_reset true w self).2 = cleared self.
Proof.
  intros Hone. unfold _handle_reset, cleared. simpl.
  destruct (_process_read_cr self) as [cr|] eqn:Hcr.
  - unfold kill, set_cr, set_running, set_ar_channel, set_r_channel, clear,
      new_channel. simpl.
    destruct Hone as [->|(tid & pc & -> & Htid)].
    + by rewrite delete_empty.
    + rewrite Hcr in Htid. injection Htid as ->.
      by rewrite delete_singleton_eq.
  - destruct Hone as [Hrun|(tid & pc & _ & Htid)]; [|congruence].
    unfold set_ar_channel, set_r_channel, clear, new_channel.
    simpl. by rewrite Hrun, Hcr.
Qed.

Lemma read_reset_deasserted_running (w : World) (self : t) (tid : nat) :
  _process_read_cr self = Some tid → (_handle_reset false w self).2 = self.
Proof. intros Hcr. unfold _handle_reset. by rewrite Hcr. Qed.

Lemma read_reset_deasserted_stopped (w : World) (self : t) :
  _process_read_cr self = None →
  (_handle_reset false w self).2 =
    set_cr (Some (next_tid self)) (fork self).2.
Proof. intros Hcr. unfold _handle_reset. by rewrite Hcr. Qed.

Lemma read_one_task_step (ev : Event) (w : World) (self : t) :
  one_task self → one_task (step ev w self).1.2.
Proof.
  intros Hone. destruct ev as [ar| |tid|state]; simpl.
  - by destruct (offer _ _).
  - by destruct (transmit _) as [[r ch]|].
  - unfold _process_read.
    destruct (running self !! tid) as [pc|] eqn:Hpc; [|done].
    destruct Hone as [Hrun|(tid' & pc' & Hrun & Hcr)].
    { rewrite Hrun in Hpc. by rewrite lookup_empty in Hpc. }
    rewrite Hrun in Hpc. apply lookup_singleton_Some in Hpc as [-> ->].
    destruct pc as [|addr prot data r].
    + destruct (recv _) as [[ar ch]|]; [|right; eauto].
      destruct (process_read _ ar w) as [w' [[[[addr prot] data] r]|e]]; simpl.
      * right. exists tid, (AwaitSend addr prot data r).
        simpl. by rewrite Hrun, insert_singleton_eq.
      * left. simpl. by rewrite Hrun, delete_singleton_eq.
    + destruct (transmitted _); simpl; [|right; eauto].
      right. exists tid, AwaitAR. simpl. by rewrite Hrun, insert_singleton_eq.
  - pose proof (read_reset_asserted w self Hone) as Hassert.
    destruct state.
    + destruct (_handle_reset true w self) as [w' self'] eqn:Hreset.
      simpl in *. subst self'. by left.
    + unfold _handle_reset.
      destruct (_process_read_cr self) as [cr|] eqn:Hcr; simpl; [done|].
      destruct Hone as [Hrun|(tid & pc & _ & Htid)]; [|congruence].
      right. exists (next_tid self), AwaitAR. simpl.
      by rewrite Hrun, insert_empty.
Qed.

End read_reset.

Lemma one_task_run (evs : list AxiLiteRam.Event) (ram : AxiLiteRam.t) :
  AxiLiteRamWrite.one_task (AxiLiteRam.write_if ram) →
  AxiLiteRamRead.one_task (AxiLiteRam.read_if ram) →
  AxiLiteRamWrite.one_task (AxiLiteRam.write_if (AxiLiteRam.run evs ram).1)
  ∧ AxiLiteRamRead.one_task (AxiLiteRam.read_if (AxiLiteRam.run evs ram).1).
Proof.
  revert ram. induction evs as [|ev evs IH]; intros ram Hw Hr; [done|].
  simpl. destruct ev as [e|e]; simpl.
  - pose proof (write_one_task_step e (AxiLiteRam.world ram) _ Hw) as Hstep.
    destruct (AxiLiteRamWrite.step e _ _) as [[w1 wif] ls]. simpl in Hstep.
    specialize (IH {| AxiLiteRam.world := w1; AxiLiteRam.write_if := wif;
                      AxiLiteRam.read_if := AxiLiteRam.read_if ram |}
                  Hstep Hr).
    by destruct (AxiLiteRam.run evs _) as [ram2 l2].
  - pose proof (read_one_task_step e (AxiLiteRam.world ram) _ Hr) as Hstep.
    destruct (AxiLiteRamRead.step e _ _) as [[w1 rif] ls]. simpl in Hstep.
    specialize (IH {| AxiLiteRam.world := w1;
                      AxiLiteRam.write_if := AxiLiteRam.write_if ram;
                      AxiLiteRam.read_if := rif |} Hw Hstep).
    by destruct (AxiLiteRam.run evs _) as [ram2 l2].
Qed.

Section reset_forgets.
Import AxiLiteRam.

(** After a reset assertion, the slave goes on in the same way whatever was
    queued or in flight on the write interface before. *)
Lemma write_reset_forgets (w : World) (s1 s2 : AxiLiteRamWrite.t)
    (rif : AxiLiteRamRead.t) (evs : list Event) :
  AxiLiteRamWrite.one_task s1 → AxiLiteRamWrite.one_task s2 →
  AxiLiteRamWrite.cleared s1 = AxiLiteRamWrite.cleared s2 →
  run (OnWrite (AxiLiteRamWrite.Notify true) :: evs)
    {| world := w; write_if := s1; read_if := rif |}
  = run (OnWrite (AxiLiteRamWrite.Notify true) :: evs)
      {| world := w; write_if := s2; read_if := rif |}.
Proof.
  intros H1 H2 Heq.
  pose proof (write_reset_asserted w s1 H1) as Hs1.
  pose proof (write_reset_asserted w s2 H2) as Hs2.
  assert (AxiLiteRamWrite.log_enabled s1 = AxiLiteRamWrite.log_enabled s2)
    as Hlog by (by injection Heq).
  assert ((AxiLiteRamWrite._handle_reset true w s1).1
          = (AxiLiteRamWrite._handle_reset true w s2).1) as Hw.
  { unfold AxiLiteRamWrite._handle_reset. simpl. by rewrite Hlog. }
  cbn [run step AxiLiteRamWrite.step world write_if read_if].
  destruct (AxiLiteRamWrite._handle_reset true w s1) as [w1 s1'].
  destruct (AxiLiteRamWrite._handle_reset true w s2) as [w2 s2'].
  simpl in Hs1, Hs2, Hw. by rewrite Hs1, Hs2, Hw, Heq.
Qed.

Lemma read_reset_forgets (w : World) (s1 s2 : AxiLiteRamRead.t)
    (wif : AxiLiteRamWrite.t) (evs : list Event) :
  AxiLiteRamRead.one_task s1 → AxiLiteRamRead.one_task s2 →
  AxiLiteRamRead.cleared s1 = AxiLiteRamRead.cleared s2 →
  run (OnRead (AxiLiteRamRead.Notify true) :: evs)
    {| world := w; write_if := wif; read_if := s1 |}
  = run (OnRead (AxiLiteRamRead.Notify true) :: evs)
      {| world := w; write_if := wif; read_if := s2 |}.
Proof.
  intros H1 H2 Heq.
  pose proof (read_reset_asserted w s1 H1) as Hs1.
  pose proof (read_reset_asserted w s2 H2) as Hs2.
  assert (AxiLiteRamRead.log_enabled s1 = AxiLiteRamRead.log_enabled s2)
    as Hlog by (by injection Heq).
  assert ((AxiLiteRamRead._handle_reset true w s1).1
          = (AxiLiteRamRead._handle_reset true w s2).1) as Hw.
  { unfold AxiLiteRamRead._handle_reset. simpl. by rewrite Hlog. }
  cbn [run step AxiLiteRamRead.step world write_if read_if].
  destruct (AxiLiteRamRead._handle_reset true w s1) as [w1 s1'].
  destruct (AxiLiteRamRead._handle_reset true w s2) as [w2 s2'].
  simpl in Hs1, Hs2, Hw. by rewrite Hs1, Hs2, Hw, Heq.
Qed.

End reset_forgets.

(** C7. Each engine has at most one live instance of its processing loop
    at all times.  A reset assertion cancels the running instance, sets the
    handle to [None] and clears the queues of the interface, also when no
    instance is running; nothing of the beats queued or in flight before
    is left, and what the slave does from the assertion on does not depend
    on them, so no response to them can follow.  A reset deassertion starts
    the loop when the handle is [None], and changes nothing otherwise. *)
Theorem reset_handlers :
  (∀ wbus rbus enabled m ram,
     AxiLiteRam.__init__ wbus rbus enabled m = Ok ram →
     ∀ evs,
       let ram' := (AxiLiteRam.run evs ram).1 in
       size (AxiLiteRamWrite.running (AxiLiteRam.write_if ram')) ≤ 1
       ∧ size (AxiLiteRamRead.running (AxiLiteRam.read_if ram')) ≤ 1
       ∧ AxiLiteRamWrite.one_task (AxiLiteRam.write_if ram')
       ∧ AxiLiteRamRead.one_task (AxiLiteRam.read_if ram'))
  ∧ (∀ w self,
       AxiLiteRamWrite.one_task self →
       let self' := (AxiLiteRamWrite._handle_reset true w self).2 in
       self' = AxiLiteRamWrite.cleared self
       ∧ AxiLiteRamWrite.running self' = ∅
       ∧ AxiLiteRamWrite._process_write_cr self' = None
       ∧ queue (AxiLiteRamWrite.aw_channel self') = []
       ∧ queue (AxiLiteRamWrite.w_channel self') = []
       ∧ queue (AxiLiteRamWrite.b_channel self') = [])
  ∧ (∀ w self,
       AxiLiteRamRead.one_task self →
       let self' := (AxiLiteRamRead._handle_reset true w self).2 in
       self' = AxiLiteRamRead.cleared self
       ∧ AxiLiteRamRead.running self' = ∅
       ∧ AxiLiteRamRead._process_read_cr self' = None
       ∧ queue (AxiLiteRamRead.ar_channel self') = []
       ∧ queue (AxiLiteRamRead.r_channel self') = [])
  ∧ (∀ w s1 s2 rif evs,
       AxiLiteRamWrite.one_task s1 → AxiLiteRamWrite.one_task s2 →
       AxiLiteRamWrite.cleared s1 = AxiLiteRamWrite.cleared s2 →
       AxiLiteRam.run
         (AxiLiteRam.OnWrite (AxiLiteRamWrite.Notify true) :: evs)
         {| AxiLiteRam.world := w; AxiLiteRam.write_if := s1;
            AxiLiteRam.read_if := rif |}
       = AxiLiteRam.run
           (AxiLiteRam.OnWrite (AxiLiteRamWrite.Notify true) :: evs)
           {| AxiLiteRam.world := w; AxiLiteRam.write_if := s2;
              AxiLiteRam.read_if := rif |})
  ∧ (∀ w s1 s2 wif evs,
       AxiLiteRamRead.one_task s1 → AxiLiteRamRead.one_task s2 →
       AxiLiteRamRead.cleared s1 = AxiLiteRamRead.cleared s2 →
       AxiLiteRam.run
         (AxiLiteRam.OnRead (AxiLiteRamRead.Notify true) :: evs)
         {| AxiLiteRam.world := w; AxiLiteRam.write_if := wif;
            AxiLiteRam.read_if := s1 |}
       = AxiLiteRam.run
           (AxiLiteRam.OnRead (AxiLiteRamRead.Notify true) :: evs)
           {| AxiLiteRam.world := w; AxiLiteRam.write_if := wif;
              AxiLiteRam.read_if := s2 |})
  ∧ (∀ w self tid,
       AxiLiteRamWrite._process_write_cr self = Some tid →
       (AxiLiteRamWrite._handle_reset false w self).2 = self)
  ∧ (∀ w self tid,
       AxiLiteRamRead._process_read_cr self = Some tid →
       (AxiLiteRamRead._handle_reset false w self).2 = self)
  ∧ (∀ w self,
       AxiLiteRamWrite.one_task self →
       AxiLiteRamWrite._process_write_cr self = None →
       let self' := (AxiLiteRamWrite._handle_reset false w self).2 in
       AxiLiteRamWrite.running self'
       = {[AxiLiteRamWrite.next_tid self := AxiLiteRamWrite.AwaitAW]}
       ∧ AxiLiteRamWrite._process_write_cr self'
         = Some (AxiLiteRamWrite.next_tid self))
  ∧ (∀ w self,
       AxiLiteRamRead.one_task self →
       AxiLiteRamRead._process_read_cr self = None →
       let self' := (AxiLiteRamRead._handle_reset false w self).2 in
       AxiLiteRamRead.running self'
       = {[AxiLiteRamRead.next_tid self := AxiLiteRamRead.AwaitAR]}
       ∧ AxiLiteRamRead._process_read_cr self'
         = Some (AxiLiteRamRead.next_tid self)).
Proof.
  split_and!.
  - intros wbus rbus enabled m ram Hinit evs ram'.
    assert (AxiLiteRamWrite.one_task (AxiLiteRam.write_if ram)
            ∧ AxiLiteRamRead.one_task (AxiLiteRam.read_if ram)) as [Hw Hr].
    { unfold AxiLiteRam.__init__, AxiLiteRamWrite.__init__,
        AxiLiteRamRead.__init__ in Hinit.
      destruct (AxiLiteRamWrite.wstrb_len wbus) as [n|];
        unfold attribute, mbind, Res_bind in Hinit; [|done].
      repeat match type of Hinit with
             | context [if ?c then _ else _] => destruct c; simpl in Hinit
             end; try discriminate.
      injection Hinit as <-. split; by left. }
    destruct (one_task_run evs ram Hw Hr) as [Hw' Hr']. subst ram'.
    split_and!; [|  |done|done].
    + by apply write_one_task_size.
    + by apply read_one_task_size.
  - intros w self Hone self'. subst self'.
    rewrite (write_reset_asserted w self Hone). done.
  - intros w self Hone self'. subst self'.
    rewrite (read_reset_asserted w self Hone). done.
  - intros w s1 s2 rif evs. apply write_reset_forgets.
  - intros w s1 s2 wif evs. apply read_reset_forgets.
  - apply write_reset_deasserted_running.
  - apply read_reset_deasserted_running.
  - intros w self Hone Hcr self'. subst self'.
    rewrite (write_reset_deasserted_stopped w self Hcr). simpl.
    destruct Hone as [->|(tid & pc & _ & Htid)]; [|congruence].
    by rewrite insert_empty.
  - intros w self Hone Hcr self'. subst self'.
    rewrite (read_reset_deasserted_stopped w self Hcr). simpl.
    destruct Hone as [->|(tid & pc & _ & Htid)]; [|congruence].
    by rewrite insert_empty.
Qed.

(* ===================================================================== *)
(** * Traces of the read interface *)
(* ===================================================================== *)

Section read_trace.
Import AxiLiteRamRead.

Lemma read_ars_of_app (tr1 tr2 : list Label) :
  ars_of (tr1 ++ tr2) = ars_of tr1 ++ ars_of tr2.
Proof. apply omap_app. Qed.

Lemma read_engine_of_app (tr1 tr2 : list Label) :
  engine_of (tr1 ++ tr2) = engine_of tr1 ++ engine_of tr2.
Proof. apply omap_app. Qed.

Lemma read_outs_of_app (tr1 tr2 : list Label) :
  outs_of (tr1 ++ tr2) = outs_of tr1 ++ outs_of tr2.
Proof. apply omap_app. Qed.

(** Splits the projections of a trace and brings both sides of an equation
    between lists to the same bracketing. *)
Ltac read_trace :=
  rewrite ?read_ars_of_app, ?read_engine_of_app, ?read_outs_of_app;
  simpl;
  rewrite ?fmap_app, ?bind_app;
  simpl;
  rewrite ?app_nil_r, <- ?app_assoc;
  simpl.

(** A step that does nothing keeps the invariant. *)
Lemma read_inv_stutter lanes sz tid done pc tr w self :
  Inv lanes sz tid done pc tr w self →
  ∃ done' pc', Inv lanes sz tid done' pc' (tr ++ []) w self.
Proof. intros HI. exists done, pc. by rewrite app_nil_r. Qed.

(** Every event of normal operation keeps the invariant; the address
    beats that have their answer only grow, and a new one is answered from
    the store as it is in that step. *)
Lemma read_inv_step_stores lanes sz tid done pc tr w self ev :
  event_ok ev = true →
  Inv lanes sz tid done pc tr w self →
  ∃ new pc',
    Inv lanes sz tid (done ++ new) pc' (tr ++ (step ev w self).2)
      (step ev w self).1.1 (step ev w self).1.2
    ∧ new.*2 = if takes_address ev self then [store w] else [].
Proof.
  intros Hok HI. destruct ev as [ar| |tid'|state];
    cbn [event_ok step takes_address] in Hok |- *; [| | |done].
  - unfold offer. destruct (full _); cbn [fst snd];
      [exists [], pc; by rewrite !app_nil_r|].
    exists [], pc. rewrite app_nil_r. split; [|done].
    destruct HI. split; simpl; try done.
    + read_trace. by rewrite inv_ars0, <- app_assoc.
    + by read_trace.
    + by read_trace.
  - unfold transmit, recv.
    destruct (queue (r_channel self)) as [|r rest] eqn:Hq; cbn [fst snd];
      [exists [], pc; by rewrite !app_nil_r|].
    exists [], pc. rewrite app_nil_r. split; [|done].
    destruct HI. split; simpl; try done.
    + by read_trace.
    + by read_trace.
    + read_trace. by rewrite <- inv_outs0, Hq.
  - unfold _process_read. pose proof HI as [].
    rewrite inv_running0.
    destruct (decide (tid' = tid)) as [->|Hne];
      [|rewrite lookup_singleton_ne by done; exists [], pc;
        by rewrite !app_nil_r].
    rewrite lookup_singleton_eq. destruct pc as [|addr prot data r].
    + unfold recv.
      destruct (queue (ar_channel self)) as [|ar rest] eqn:Hq; cbn [fst snd];
        [exists [], AwaitAR; by rewrite !app_nil_r|].
      rewrite process_read_Ok; simpl; [|lia|lia|congruence].
      rewrite inv_lanes0, inv_size0.
      exists [(ar, store w)], (AwaitSend
        (aligned lanes (araddr ar)) (AxiProt_of (getattr (arprot ar) NONSECURE))
        (take lanes (drop (offset sz (aligned lanes (araddr ar))) (store w)))
        (answer lanes sz ar (store w))).
      split; [|done].
      split; simpl; try done.
      * by rewrite ?inv_running0, insert_singleton_eq.
      * by read_trace.
      * read_trace. by rewrite inv_engine0.
      * read_trace. by rewrite <- inv_outs0, <- app_assoc.
    + destruct (transmitted _); cbn [fst snd];
        [|exists [], (AwaitSend addr prot data r); by rewrite !app_nil_r].
      exists [], AwaitAR. rewrite app_nil_r. split; [|done].
      split; simpl; try done.
      * unfold store in *. by destruct (log_enabled self).
      * by rewrite ?inv_running0, insert_singleton_eq.
      * by read_trace.
      * by read_trace.
      * by read_trace.
Qed.

(** Every event of normal operation keeps the invariant. *)
Lemma read_inv_step lanes sz tid done pc tr w self ev :
  event_ok ev = true →
  Inv lanes sz tid done pc tr w self →
  ∃ done' pc',
    Inv lanes sz tid done' pc' (tr ++ (step ev w self).2)
      (step ev w self).1.1 (step ev w self).1.2.
Proof.
  intros Hok HI.
  destruct (read_inv_step_stores _ _ _ _ _ _ _ _ ev Hok HI)
    as (new & pc' & HI' & _).
  by exists (done ++ new), pc'.
Qed.


(** The master taking a response and the scheduler resuming the task bring
    the interface closer to rest, or leave it as it is. *)
Lemma read_accept_noop w self :
  queue (r_channel self) = [] → step AcceptR w self = (w, self, []).
Proof. intros Hq. simpl. unfold transmit, recv. by rewrite Hq. Qed.

Lemma read_accept_measure tid w self :
  queue (r_channel self) ≠ [] →
  measure tid (step AcceptR w self).1.2 < measure tid self.
Proof.
  intros Hq. simpl. unfold transmit, recv.
  destruct (queue (r_channel self)) as [|r rest] eqn:Hr; [done|].
  unfold measure. simpl. rewrite Hr. simpl. lia.
Qed.

Lemma read_resume_measure lanes sz tid done pc tr w self :
  Inv lanes sz tid done pc tr w self →
  measure tid (step (Resume tid) w self).1.2 ≤ measure tid self
  ∧ (queue (r_channel self) = [] →
     idle self
     ∨ measure tid (step (Resume tid) w self).1.2 < measure tid self).
Proof.
  intros []. simpl. unfold _process_read, measure.
  rewrite inv_running0, lookup_singleton_eq.
  destruct pc as [|addr prot data r].
  - unfold recv.
    destruct (queue (ar_channel self)) as [|ar rest] eqn:Hq; simpl.
    + rewrite inv_running0, lookup_singleton_eq, Hq. simpl.
      split; [lia|]. intros Hr. left. split; [done|].
      intros tid' pc'. rewrite inv_running0.
      intros [_ <-]%lookup_singleton_Some. done.
    + rewrite process_read_Ok; simpl; [|lia|lia|congruence].
      rewrite lookup_insert_eq, length_app. simpl. split; [lia|]. right. lia.
  - unfold transmitted.
    destruct (queue (r_channel self)) as [|r' rest] eqn:Hq; simpl.
    + rewrite lookup_insert_eq, Hq. simpl. split; [lia|]. right. lia.
    + rewrite inv_running0, lookup_singleton_eq, Hq. simpl. split; [lia|done].
Qed.

(** Neither of the two lets a new address beat in. *)
Lemma read_step_quiet ev w self :
  (∀ ar, ev ≠ PresentAR ar) → ars_of (step ev w self).2 = [].
Proof.
  intros Hev. destruct ev as [ar| |tid|state]; simpl.
  - by destruct (Hev ar).
  - by destruct (transmit _) as [[r ch]|].
  - unfold _process_read.
    destruct (_ !! tid) as [[|addr prot data r]|]; [| |done].
    + destruct (recv _) as [[ar ch]|]; [|done].
      by destruct (process_read _ ar w) as [w' [[[[addr prot] data] r]|e]].
    + by destruct (transmitted _).
  - by destruct (_handle_reset state w self).
Qed.

End read_trace.

(* ===================================================================== *)
(** * Runs of the composite slave *)
(* ===================================================================== *)

Section runs.
Import AxiLiteRam.

Lemma zip_fst_snd_app_r {A B} (l : list (A * B)) (k : list B) :
  zip (l.*1) (l.*2 ++ k) = l.
Proof.
  induction l as [|[a b] l IH]; simpl; [done|]. f_equal. exact IH.
Qed.

Lemma zip_fst_snd_app_l {A B} (l : list (A * B)) (k : list A) :
  zip (l.*1 ++ k) (l.*2) = l.
Proof.
  induction l as [|[a b] l IH]; simpl; [by destruct k|]. f_equal. exact IH.
Qed.

Lemma zip_fst_snd_app {A B} (l : list (A * B)) (k1 : list A) (k2 : list B) :
  zip (l.*1 ++ k1) (l.*2 ++ k2) = l ++ zip k1 k2.
Proof.
  induction l as [|[a b] l IH]; simpl; [done|]. f_equal. exact IH.
Qed.

Lemma run_app (evs1 evs2 : list Event) (ram : t) :
  run (evs1 ++ evs2) ram =
    ((run evs2 (run evs1 ram).1).1, (run evs1 ram).2 ++ (run evs2 (run evs1 ram).1).2).
Proof.
  revert ram. induction evs1 as [|ev evs1 IH]; intros ram; simpl.
  - by destruct (run evs2 ram).
  - destruct (step ev ram) as [ram1 l1]. rewrite IH.
    destruct (run evs1 ram1) as [ram2 l2]. simpl.
    destruct (run evs2 ram2) as [ram3 l3]. simpl. by rewrite app_assoc.
Qed.

Lemma run_cons (ev : Event) (evs : list Event) (ram : t) :
  run (ev :: evs) ram =
    ((run evs (step ev ram).1).1, (step ev ram).2 ++ (run evs (step ev ram).1).2).
Proof.
  cbn [run]. destruct (step ev ram) as [ram1 l1]. cbn [fst snd].
  by destruct (run evs ram1).
Qed.

Lemma step_OnRead (e : AxiLiteRamRead.Event) (ram : t) :
  step (OnRead e) ram =
    ({| world := (AxiLiteRamRead.step e (world ram) (read_if ram)).1.1;
        write_if := write_if ram;
        read_if := (AxiLiteRamRead.step e (world ram) (read_if ram)).1.2 |},
     map ByRead (AxiLiteRamRead.step e (world ram) (read_if ram)).2).
Proof.
  cbn [step]. by destruct (AxiLiteRamRead.step e _ _) as [[w1 rif] ls].
Qed.

Lemma step_OnWrite (e : AxiLiteRamWrite.Event) (ram : t) :
  step (OnWrite e) ram =
    ({| world := (AxiLiteRamWrite.step e (world ram) (write_if ram)).1.1;
        write_if := (AxiLiteRamWrite.step e (world ram) (write_if ram)).1.2;
        read_if := read_if ram |},
     map ByWrite (AxiLiteRamWrite.step e (world ram) (write_if ram)).2).
Proof.
  cbn [step]. by destruct (AxiLiteRamWrite.step e _ _) as [[w1 wif] ls].
Qed.

Lemma read_drain_S (n tid : nat) :
  map OnRead (AxiLiteRamRead.drain (S n) tid) =
    OnRead AxiLiteRamRead.AcceptR :: OnRead (AxiLiteRamRead.Resume tid)
      :: map OnRead (AxiLiteRamRead.drain n tid).
Proof. reflexivity. Qed.

Lemma read_labels_app (tr1 tr2 : list Label) :
  read_labels (tr1 ++ tr2) = read_labels tr1 ++ read_labels tr2.
Proof. apply omap_app. Qed.

Lemma write_labels_app (tr1 tr2 : list Label) :
  write_labels (tr1 ++ tr2) = write_labels tr1 ++ write_labels tr2.
Proof. apply omap_app. Qed.

Lemma read_labels_ByRead ls : read_labels (map ByRead ls) = ls.
Proof. induction ls as [|l ls IH]; simpl; [done|]. by f_equal. Qed.

Lemma read_labels_ByWrite ls : read_labels (map ByWrite ls) = [].
Proof. induction ls as [|l ls IH]; simpl; done. Qed.

Lemma write_labels_ByWrite ls : write_labels (map ByWrite ls) = ls.
Proof. induction ls as [|l ls IH]; simpl; [done|]. by f_equal. Qed.

Lemma write_labels_ByRead ls : write_labels (map ByRead ls) = [].
Proof. induction ls as [|l ls IH]; simpl; done. Qed.

(** No event of the write interface changes the length of the store. *)
Lemma write_step_length (ev : AxiLiteRamWrite.Event) (w : World)
    (self : AxiLiteRamWrite.t) :
  length (store (AxiLiteRamWrite.step ev w self).1.1) = length (store w).
Proof.
  destruct ev as [aw|wb| |tid|state]; simpl.
  - by destruct (offer _ _).
  - by destruct (offer _ _).
  - by destruct (transmit _) as [[b ch]|].
  - unfold AxiLiteRamWrite._process_write.
    destruct (_ !! tid) as [[|aw addr prot|b]|]; [| | |done].
    + destruct (recv _) as [[aw ch]|]; [|done].
      by destruct (AxiLiteRamWrite.process_aw _ aw) as [[addr prot]|e].
    + destruct (recv _) as [[wb ch]|]; [|done].
      pose proof (process_w_length (AxiLiteRamWrite.set_w_channel ch self)
                    addr prot wb w) as Hlen.
      by destruct (AxiLiteRamWrite.process_w _ addr prot wb w) as [w' [b|e]].
    + by destruct (transmitted _).
  - unfold AxiLiteRamWrite._handle_reset.
    destruct state; [|destruct (AxiLiteRamWrite._process_write_cr self)];
      simpl; unfold store, log_info; by destruct (AxiLiteRamWrite.log_enabled self).
Qed.

(** The invariant of the read interface does not look at the bytes of the
    store, only at their number. *)
Lemma read_inv_world lanes sz tid done pc tr w w' self :
  length (store w') = length (store w) →
  AxiLiteRamRead.Inv lanes sz tid done pc tr w self →
  AxiLiteRamRead.Inv lanes sz tid done pc tr w' self.
Proof. intros Hlen []. split; try done. by rewrite Hlen. Qed.

(** Every schedule of normal operation keeps the invariant of the read
    interface, whatever happens on the write interface; each address beat
    that the schedule answers is answered from the store as it is in the
    step that takes the beat. *)
Lemma read_inv_run lanes sz tid (evs : list Event) :
  ∀ ram done pc tr,
    forallb read_ok evs = true →
    AxiLiteRamRead.Inv lanes sz tid done pc tr (world ram) (read_if ram) →
    ∃ new pc',
      AxiLiteRamRead.Inv lanes sz tid (done ++ new) pc'
        (tr ++ read_labels (run evs ram).2)
        (world (run evs ram).1) (read_if (run evs ram).1)
      ∧ new.*2 = stores_read evs ram.
Proof.
  induction evs as [|ev evs IH]; intros ram done pc tr Hok HI.
  - exists [], pc. simpl. by rewrite !app_nil_r.
  - simpl in Hok. apply andb_true_iff in Hok as [Hev Hok].
    rewrite run_cons. cbn [stores_read fst snd]. destruct ev as [e|e].
    + pose proof (write_step_length e (world ram) (write_if ram)) as Hlen.
      rewrite step_OnWrite. cbn [fst snd store_read].
      destruct (IH {| world := (AxiLiteRamWrite.step e (world ram)
                                  (write_if ram)).1.1;
                      write_if := (AxiLiteRamWrite.step e (world ram)
                                     (write_if ram)).1.2;
                      read_if := read_if ram |}
                  done pc tr Hok) as (new' & pc' & HI' & Hst').
      { simpl. by eapply read_inv_world. }
      exists new', pc'. split; [|done].
      by rewrite read_labels_app, read_labels_ByWrite.
    + destruct (read_inv_step_stores _ _ _ _ _ _ _ _ e Hev HI)
        as (new1 & pc1 & HI1 & Hst1).
      rewrite step_OnRead. cbn [fst snd store_read].
      destruct (IH {| world := (AxiLiteRamRead.step e (world ram)
                                  (read_if ram)).1.1;
                      write_if := write_if ram;
                      read_if := (AxiLiteRamRead.step e (world ram)
                                    (read_if ram)).1.2 |}
                  (done ++ new1) pc1
                  (tr ++ (AxiLiteRamRead.step e (world ram) (read_if ram)).2)
                  Hok HI1) as (new' & pc' & HI' & Hst').
      exists (new1 ++ new'), pc'. split.
      * by rewrite read_labels_app, read_labels_ByRead, !app_assoc.
      * by rewrite fmap_app, Hst1, Hst'.
Qed.

(** Left to itself, the read interface comes to rest, without letting a new
    address beat in. *)
Lemma read_drain lanes sz tid (m : nat) :
  ∀ ram done pc tr,
    AxiLiteRamRead.measure tid (read_if ram) ≤ m →
    AxiLiteRamRead.Inv lanes sz tid done pc tr (world ram) (read_if ram) →
    ∃ n,
      let r := run (map OnRead (AxiLiteRamRead.drain n tid)) ram in
      AxiLiteRamRead.idle (read_if r.1)
      ∧ AxiLiteRamRead.ars_of (read_labels r.2) = [].
Proof.
  induction m as [|m IH]; intros ram done pc tr Hm HI.
  - destruct (decide (queue (AxiLiteRamRead.r_channel (read_if ram)) = []))
      as [Hq|Hq].
    + destruct (read_resume_measure _ _ _ _ _ _ _ _ HI) as [_ Hres].
      destruct (Hres Hq) as [Hidle|Hlt]; [|lia].
      by exists 0.
    + pose proof (read_accept_measure tid (world ram) (read_if ram) Hq). lia.
  - (* one round: the master takes a response, the task is resumed *)
    pose proof (read_step_quiet AxiLiteRamRead.AcceptR (world ram)
                  (read_if ram) ltac:(done)) as Hquiet1.
    destruct (read_inv_step _ _ _ _ _ _ _ _ AxiLiteRamRead.AcceptR
                eq_refl HI) as (done1 & pc1 & HI1).
    set (s1 := AxiLiteRamRead.step AxiLiteRamRead.AcceptR (world ram)
                 (read_if ram)) in *.
    pose proof (read_step_quiet (AxiLiteRamRead.Resume tid) s1.1.1 s1.1.2
                  ltac:(done)) as Hquiet2.
    destruct (read_inv_step _ _ _ _ _ _ _ _ (AxiLiteRamRead.Resume tid)
                eq_refl HI1) as (done2 & pc2 & HI2).
    destruct (read_resume_measure _ _ _ _ _ _ _ _ HI1) as [Hle Hres].
    set (s2 := AxiLiteRamRead.step (AxiLiteRamRead.Resume tid) s1.1.1 s1.1.2)
      in *.
    assert (AxiLiteRamRead.idle (read_if ram)
            ∨ AxiLiteRamRead.measure tid s2.1.2
              < AxiLiteRamRead.measure tid (read_if ram)) as [Hidle|Hlt].
    { destruct (decide (queue (AxiLiteRamRead.r_channel (read_if ram)) = []))
        as [Hq|Hq].
      - assert (s1 = (world ram, read_if ram, [])) as Hs1
          by (by apply read_accept_noop).
        subst s2. rewrite Hs1 in Hres |- *. simpl in Hres |- *. auto.
      - right.
        pose proof (read_accept_measure tid (world ram) (read_if ram) Hq).
        subst s1. lia. }
    { by exists 0. }
    destruct (IH {| world := s2.1.1; write_if := write_if ram;
                    read_if := s2.1.2 |}
                done2 pc2 ((tr ++ s1.2) ++ s2.2)) as (n & Hidle & Hars);
      [simpl; lia|done|].
    exists (S n). rewrite read_drain_S, !run_cons, !step_OnRead.
    cbn [fst snd world write_if read_if]. fold s1. fold s2. split; [done|].
    rewrite !read_labels_app, !read_labels_ByRead, !read_ars_of_app.
    by rewrite Hquiet1, Hquiet2, Hars.
Qed.


Lemma read_drain_ok (n tid : nat) :
  forallb read_ok (map OnRead (AxiLiteRamRead.drain n tid)) = true.
Proof. induction n as [|n IH]; [done|]. rewrite read_drain_S. simpl. done. Qed.

Lemma read_started_inv tid w self :
  AxiLiteRamRead.started tid w self →
  AxiLiteRamRead.Inv (AxiLiteRamRead.byte_lanes self) (AxiLiteRamRead.size self)
    tid [] AxiLiteRamRead.AwaitAR [] w self.
Proof.
  intros (Hl & Hs & Hst & Hrun & Hq1 & Hq2). split; try done.
Qed.

(** An interface at rest has answered every address beat it let in. *)
Lemma read_inv_idle lanes sz tid done pc tr w self :
  AxiLiteRamRead.Inv lanes sz tid done pc tr w self →
  AxiLiteRamRead.idle self →
  AxiLiteRamRead.ars_of tr = done.*1
  ∧ AxiLiteRamRead.outs_of tr
    = (λ p, AxiLiteRamRead.answer lanes sz p.1 p.2) <$> done.
Proof.
  intros [Hl Hlp Hs Hsp Hst Hrun Hars Heng Houts] [Hr Hpc].
  specialize (Hpc tid pc). rewrite Hrun, lookup_singleton_eq in Hpc.
  specialize (Hpc eq_refl). destruct pc; [|done].
  rewrite Hpc, app_nil_r in Hars. rewrite Hr, app_nil_r in Houts.
  done.
Qed.

End runs.

(** C3. For every sequence of read-address beats that the read interface
    lets in, the engine emits one read-data beat per address beat, in the
    order of the address beats, each with status OKAY and with the data
    that the store of the slave holds, in the step in which the engine
    takes the address beat, at the offset of the aligned address: the
    [byte_lanes] bytes from there, packed least significant byte first;
    once the engine has been left to run, N address beats have got exactly
    N answers. *)
Theorem read_answers_in_order (ram0 : AxiLiteRam.t) (tid : nat)
    (evs : list AxiLiteRam.Event) :
  let lanes := AxiLiteRamRead.byte_lanes (AxiLiteRam.read_if ram0) in
  let sz := AxiLiteRamRead.size (AxiLiteRam.read_if ram0) in
  AxiLiteRamRead.started tid (AxiLiteRam.world ram0) (AxiLiteRam.read_if ram0) →
  forallb AxiLiteRam.read_ok evs = true →
  (let r := AxiLiteRam.run evs ram0 in
   let rl := AxiLiteRam.read_labels r.2 in
   let ars := AxiLiteRamRead.ars_of rl in
   let bufs := stores_read evs ram0 in
   length bufs ≤ length ars
   ∧ drop (length bufs) ars
     = queue (AxiLiteRamRead.ar_channel (AxiLiteRam.read_if r.1))
   ∧ AxiLiteRamRead.engine_of rl
     = zip ars bufs ≫= AxiLiteRamRead.transaction lanes sz
   ∧ AxiLiteRamRead.outs_of rl
       ++ queue (AxiLiteRamRead.r_channel (AxiLiteRam.read_if r.1))
     = (λ p, {| rdata := from_bytes
                           (take lanes
                              (drop (offset sz (aligned lanes (araddr p.1)))
                                 p.2));
                rresp := OKAY |}) <$> zip ars bufs)
  ∧ ∃ n,
      let evs' := evs ++ map AxiLiteRam.OnRead (AxiLiteRamRead.drain n tid) in
      let r := AxiLiteRam.run evs' ram0 in
      let rl := AxiLiteRam.read_labels r.2 in
      let ars := AxiLiteRamRead.ars_of rl in
      let bufs := stores_read evs' ram0 in
      ars = AxiLiteRamRead.ars_of
              (AxiLiteRam.read_labels (AxiLiteRam.run evs ram0).2)
      ∧ length bufs = length ars
      ∧ AxiLiteRamRead.engine_of rl
        = zip ars bufs ≫= AxiLiteRamRead.transaction lanes sz
      ∧ AxiLiteRamRead.outs_of rl
        = (λ p, {| rdata := from_bytes
                              (take lanes
                                 (drop (offset sz (aligned lanes (araddr p.1)))
                                    p.2));
                   rresp := OKAY |}) <$> zip ars bufs
      ∧ length (AxiLiteRamRead.outs_of rl) = length ars
      ∧ Forall (λ r, rresp r = OKAY) (AxiLiteRamRead.outs_of rl).
Proof.
  intros lanes sz Hstart Hok.
  apply read_started_inv in Hstart. fold lanes sz in Hstart.
  destruct (read_inv_run lanes sz tid evs ram0 _ _ _ Hok Hstart)
    as (done & pc & HI & Hst).
  simpl in HI. split.
  - cbv zeta. rewrite <- Hst.
    destruct HI as [_ _ _ _ _ _ Hars Heng Houts]. rewrite Hars.
    rewrite zip_fst_snd_app_l, length_fmap.
    split_and!.
    + rewrite length_app, length_fmap. lia.
    + rewrite <- (length_fmap fst done). by rewrite drop_app_length.
    + done.
    + done.
  - destruct (read_drain lanes sz tid _ _ _ _ _ (le_n _) HI) as (n & Hidle & Hars).
    exists n.
    assert (forallb AxiLiteRam.read_ok
              (evs ++ map AxiLiteRam.OnRead (AxiLiteRamRead.drain n tid)) = true)
      as Hok'.
    { rewrite forallb_app, Hok. apply read_drain_ok. }
    destruct (read_inv_run lanes sz tid _ ram0 _ _ _ Hok' Hstart)
      as (done' & pc' & HI' & Hst').
    cbv zeta. rewrite <- Hst'.
    rewrite run_app in HI' |- *. simpl in Hidle, Hars, HI' |- *.
    destruct (read_inv_idle _ _ _ _ _ _ _ _ HI' Hidle) as [Hars' Houts'].
    rewrite Hars', Houts', zip_fst_snd.
    destruct HI' as [_ _ _ _ _ _ _ Heng _].
    split_and!.
    + rewrite <- Hars', read_labels_app, read_ars_of_app, Hars.
      by rewrite app_nil_r.
    + by rewrite !length_fmap.
    + done.
    + done.
    + by rewrite !length_fmap.
    + apply Forall_fmap, Forall_forall. done.
Qed.

Section configuration.

Lemma write_step_config (ev : AxiLiteRamWrite.Event) (w : World)
    (self : AxiLiteRamWrite.t) :
  let self' := (AxiLiteRamWrite.step ev w self).1.2 in
  AxiLiteRamWrite.size self' = AxiLiteRamWrite.size self
  ∧ AxiLiteRamWrite.byte_lanes self' = AxiLiteRamWrite.byte_lanes self
  ∧ AxiLiteRamWrite.strb_mask self' = AxiLiteRamWrite.strb_mask self
  ∧ AxiLiteRamWrite.width self' = AxiLiteRamWrite.width self
  ∧ AxiLiteRamWrite.log_enabled self' = AxiLiteRamWrite.log_enabled self.
Proof.
  destruct ev as [aw|wb| |tid|state]; cbn [AxiLiteRamWrite.step].
  - by destruct (offer _ _).
  - by destruct (offer _ _).
  - by destruct (transmit _) as [[b ch]|].
  - unfold AxiLiteRamWrite._process_write.
    destruct (_ !! tid) as [[|aw addr prot|b]|]; [| | |done].
    + destruct (recv _) as [[aw ch]|]; [|done].
      by destruct (AxiLiteRamWrite.process_aw _ aw) as [[addr prot]|e].
    + destruct (recv _) as [[wb ch]|]; [|done].
      by destruct (AxiLiteRamWrite.process_w _ addr prot wb w) as [w' [b|e]].
    + by destruct (transmitted _).
  - unfold AxiLiteRamWrite._handle_reset.
    destruct state; by destruct (AxiLiteRamWrite._process_write_cr self).
Qed.

Lemma read_step_config (ev : AxiLiteRamRead.Event) (w : World)
    (self : AxiLiteRamRead.t) :
  let self' := (AxiLiteRamRead.step ev w self).1.2 in
  AxiLiteRamRead.size self' = AxiLiteRamRead.size self
  ∧ AxiLiteRamRead.byte_lanes self' = AxiLiteRamRead.byte_lanes self
  ∧ AxiLiteRamRead.width self' = AxiLiteRamRead.width self
  ∧ AxiLiteRamRead.log_enabled self' = AxiLiteRamRead.log_enabled self.
Proof.
  destruct ev as [ar| |tid|state]; cbn [AxiLiteRamRead.step].
  - by destruct (offer _ _).
  - by destruct (transmit _) as [[r ch]|].
  - unfold AxiLiteRamRead._process_read.
    destruct (_ !! tid) as [[|addr prot data r]|]; [| |done].
    + destruct (recv _) as [[ar ch]|]; [|done].
      by destruct (AxiLiteRamRead.process_read _ ar w)
        as [w' [[[[addr prot] data] r]|e]].
    + by destruct (transmitted _).
  - unfold AxiLiteRamRead._handle_reset.
    destruct state; by destruct (AxiLiteRamRead._process_read_cr self).
Qed.

End configuration.


(* ===================================================================== *)
(** * Traces of the write interface *)
(* ===================================================================== *)

Section write_trace.
Import AxiLiteRamWrite.

Lemma write_aws_of_app (tr1 tr2 : list Label) :
  aws_of (tr1 ++ tr2) = aws_of tr1 ++ aws_of tr2.
Proof. apply omap_app. Qed.

Lemma write_ws_of_app (tr1 tr2 : list Label) :
  ws_of (tr1 ++ tr2) = ws_of tr1 ++ ws_of tr2.
Proof. apply omap_app. Qed.

Lemma write_engine_of_app (tr1 tr2 : list Label) :
  engine_of (tr1 ++ tr2) = engine_of tr1 ++ engine_of tr2.
Proof. apply omap_app. Qed.

Lemma write_outs_of_app (tr1 tr2 : list Label) :
  outs_of (tr1 ++ tr2) = outs_of tr1 ++ outs_of tr2.
Proof. apply omap_app. Qed.

Ltac write_trace :=
  rewrite ?write_aws_of_app, ?write_ws_of_app, ?write_engine_of_app,
    ?write_outs_of_app;
  simpl;
  rewrite ?fmap_app, ?bind_app;
  simpl;
  rewrite ?app_nil_r, <- ?app_assoc;
  simpl.

Lemma write_inv_stutter lanes sz tid done pc tr w self :
  Inv lanes sz tid done pc tr w self →
  ∃ done' pc', Inv lanes sz tid done' pc' (tr ++ []) w self.
Proof. intros HI. exists done, pc. by rewrite app_nil_r. Qed.

Lemma put_word_lookup (off lanes : nat) (strb : Z) (data buf : list byte)
    (j : nat) :
  off + lanes ≤ length buf →
  lanes ≤ length data →
  put_word off lanes strb data buf !! j
  = written_byte off lanes strb data j (buf !! j).
Proof.
  intros Hfit Hdata. unfold put_word. rewrite list_lookup_imap.
  unfold written_byte.
  destruct (buf !! j) as [old|] eqn:Hj; simpl.
  - case_decide as Hin; [|done].
    destruct (strb_bit strb (j - off)); [|done].
    destruct (lookup_lt_is_Some_2 data (j - off)) as [d ->]; [lia|done].
  - apply lookup_ge_None in Hj. by rewrite decide_False by lia.
Qed.

Lemma put_word_length (off lanes : nat) (strb : Z) (data buf : list byte) :
  length (put_word off lanes strb data buf) = length buf.
Proof. unfold put_word. apply length_imap. Qed.

(** The store after the data beat has been processed. *)
Lemma process_w_put_word (self : t) (addr : Z) (prot : AxiProt) (wb : WBeat)
    (w : World) :
  let bl := byte_lanes self in
  size self = length (store w) →
  run_fits (size self) bl addr →
  (0 ≤ wdata wb < 2 ^ (8 * Z.of_nat bl))%Z →
  store (process_w self addr prot wb w).1
  = put_word (offset (size self) addr) bl (getattr (wstrb wb) (strb_mask self))
      (le_octets bl (wdata wb)) (store w).
Proof.
  intros bl Hsize Hfit Hdata.
  destruct (process_w_fits self addr prot wb w Hsize Hfit Hdata)
    as (buf' & -> & Hlen & Hin & Hout).
  destruct Hfit as [_ Hfit]. unfold store in *. simpl.
  apply list_eq. intros j.
  rewrite put_word_lookup by (rewrite ?length_le_octets; lia).
  unfold written_byte. case_decide as Hj.
  - specialize (Hin (j - offset (size self) addr)).
    replace (offset (size self) addr + (j - offset (size self) addr)) with j
      in Hin by lia.
    apply Hin. lia.
  - by apply Hout.
Qed.

Lemma write_inv_stutter_bytes lanes sz tid done pc tr w self :
  Inv lanes sz tid done pc tr w self →
  ∃ new pc',
    Inv lanes sz tid (done ++ new) pc' (tr ++ []) w self
    ∧ store w = write_pairs lanes sz (strb_mask self) (store w) new.
Proof. intros HI. exists [], pc. by rewrite !app_nil_r. Qed.

(** Every event of normal operation keeps the invariant; the pairs whose
    iteration is complete only grow, and the store has changed by the
    writes of the new ones. *)
Lemma write_inv_step_bytes lanes sz tid done pc tr w self ev :
  event_ok lanes sz ev = true →
  Inv lanes sz tid done pc tr w self →
  ∃ new pc',
    Inv lanes sz tid (done ++ new) pc' (tr ++ (step ev w self).2)
      (step ev w self).1.1 (step ev w self).1.2
    ∧ store (step ev w self).1.1
      = write_pairs lanes sz (strb_mask self) (store w) new.
Proof.
  intros Hok HI.
  pose proof HI as [Hl Hlp Hs Hst Hrun Haws Hws Heng Houts Hokaw Hokw Haddr].
  destruct ev as [aw|wb| |tid'|state]; simpl in Hok |- *; [| | | |done].
  - apply bool_decide_eq_true_1 in Hok.
    unfold offer. destruct (full _); simpl;
      [by eapply write_inv_stutter_bytes|].
    exists [], pc. rewrite app_nil_r. split; [|done].
    split; simpl; try done; write_trace; try done.
    all: try by rewrite Haws, <- !app_assoc.
    all: rewrite app_assoc; apply Forall_app; split; [done|].
    all: by apply Forall_singleton.
  - apply bool_decide_eq_true_1 in Hok.
    unfold offer. destruct (full _); simpl;
      [by eapply write_inv_stutter_bytes|].
    exists [], pc. rewrite app_nil_r. split; [|done].
    split; simpl; try done; write_trace; try done.
    all: try by rewrite Hws, <- !app_assoc.
    all: apply Forall_app; split; [done|]; by apply Forall_singleton.
  - unfold transmit, recv.
    destruct (queue (b_channel self)) as [|b rest] eqn:Hq; simpl;
      [by eapply write_inv_stutter_bytes|].
    exists [], pc. rewrite app_nil_r. split; [|done].
    split; simpl; try done; write_trace; try done.
    all: by rewrite <- Houts, ?Hq.
  - unfold _process_write. rewrite Hrun.
    destruct (decide (tid' = tid)) as [->|Hne];
      [|rewrite lookup_singleton_ne by done;
        by eapply write_inv_stutter_bytes].
    rewrite lookup_singleton_eq.
    destruct pc as [|aw addr prot|b]; simpl in Haws, Heng, Hokaw;
      rewrite ?app_nil_r in Heng.
    + unfold recv.
      destruct (queue (aw_channel self)) as [|aw rest] eqn:Hq; simpl;
        [by eapply write_inv_stutter_bytes|].
      rewrite process_aw_Ok by (simpl; lia). simpl.
      exists [], (AwaitW aw (aligned (byte_lanes self) (awaddr aw))
                    (AxiProt_of (getattr (awprot aw) NONSECURE))).
      rewrite app_nil_r. split; [|done].
      split; simpl; try done; write_trace; try done.
      all: try by rewrite ?Hrun, insert_singleton_eq.
      all: try by rewrite Heng.
      all: intros aw' addr' prot' [= <- <- _]; by rewrite Hl.
    + unfold recv.
      destruct (queue (w_channel self)) as [|wb rest] eqn:Hq; simpl;
        [by eapply write_inv_stutter_bytes|].
      apply Forall_cons in Hokaw as [Hfits Hrest].
      apply Forall_cons in Hokw as [Hdata Hwrest].
      rewrite (Haddr aw addr prot eq_refl) in *.
      set (self1 := set_w_channel
                      {| queue := rest;
                         queue_occupancy_limit :=
                           queue_occupancy_limit (w_channel self) |} self).
      assert (size self1 = length (store w)) as Hsize1
        by (unfold store in *; simpl; congruence).
      assert (run_fits (size self1) (byte_lanes self1)
                (aligned lanes (awaddr aw))) as Hfits1
        by (simpl; by rewrite Hl, Hs).
      assert (0 ≤ wdata wb < 2 ^ (8 * Z.of_nat (byte_lanes self1)))%Z
        as Hdata1 by (simpl; by rewrite Hl).
      pose proof (process_w_put_word self1 (aligned lanes (awaddr aw)) prot wb
                    w Hsize1 Hfits1 Hdata1) as Hput.
      destruct (process_w_fits self1 (aligned lanes (awaddr aw)) prot wb w
                  Hsize1 Hfits1 Hdata1) as (buf' & Hproc & Hlen & _).
      simpl in Hproc, Hput. rewrite Hproc in Hput |- *. simpl.
      exists [(aw, wb)], (AwaitSend {| bresp := OKAY |}).
      split.
      * split; simpl; try done; write_trace; try done.
        all: try by rewrite ?Hrun, insert_singleton_eq.
        all: try by rewrite Haws.
        all: try by rewrite Hws.
        all: try by rewrite Heng, <- app_assoc.
        all: try by rewrite <- Houts, <- app_assoc.
        all: unfold store in *; simpl; congruence.
      * simpl in Hput. unfold write_pairs, write_pair. simpl.
        by rewrite Hput, Hl, Hs.
    + destruct (transmitted _); simpl; [|by eapply write_inv_stutter_bytes].
      exists [], AwaitAW. rewrite app_nil_r. split; [|done].
      split; simpl; try done; write_trace; try done.
      all: by rewrite ?Hrun, insert_singleton_eq.
Qed.

(** Every event of normal operation keeps the invariant: the engine never
    raises on beats that it can process. *)
Lemma write_inv_step lanes sz tid done pc tr w self ev :
  event_ok lanes sz ev = true →
  Inv lanes sz tid done pc tr w self →
  ∃ done' pc',
    Inv lanes sz tid done' pc' (tr ++ (step ev w self).2)
      (step ev w self).1.1 (step ev w self).1.2.
Proof.
  intros Hok HI.
  destruct (write_inv_step_bytes _ _ _ _ _ _ _ _ ev Hok HI)
    as (new & pc' & HI' & _).
  by exists (done ++ new), pc'.
Qed.

Lemma write_accept_noop w self :
  queue (b_channel self) = [] → step AcceptB w self = (w, self, []).
Proof. intros Hq. simpl. unfold transmit, recv. by rewrite Hq. Qed.

Lemma write_accept_measure tid w self :
  queue (b_channel self) ≠ [] →
  measure tid (step AcceptB w self).1.2 < measure tid self.
Proof.
  intros Hq. simpl. unfold transmit, recv.
  destruct (queue (b_channel self)) as [|b rest] eqn:Hb; [done|].
  unfold measure. simpl. rewrite Hb. simpl. lia.
Qed.

Lemma write_resume_measure lanes sz tid done pc tr w self :
  Inv lanes sz tid done pc tr w self →
  measure tid (step (Resume tid) w self).1.2 ≤ measure tid self
  ∧ (queue (b_channel self) = [] →
     idle self
     ∨ measure tid (step (Resume tid) w self).1.2 < measure tid self).
Proof.
  intros [Hl Hlp Hs Hst Hrun Haws Hws Heng Houts Hokaw Hokw Haddr].
  simpl. unfold _process_write, measure.
  rewrite Hrun, lookup_singleton_eq.
  destruct pc as [|aw addr prot|b]; simpl in Hokaw.
  - unfold recv.
    destruct (queue (aw_channel self)) as [|aw rest] eqn:Hq; simpl.
    + rewrite Hrun, lookup_singleton_eq, Hq. simpl.
      split; [lia|]. intros Hb. left. split; [done|].
      intros tid' pc'. rewrite Hrun.
      intros [_ <-]%lookup_singleton_Some. done.
    + rewrite process_aw_Ok by (simpl; lia). simpl.
      rewrite lookup_insert_eq. simpl. split; [lia|]. right. lia.
  - unfold recv.
    destruct (queue (w_channel self)) as [|wb rest] eqn:Hq; simpl.
    + rewrite Hrun, lookup_singleton_eq. simpl.
      split; [lia|]. intros Hb. left. split; [done|].
      intros tid' pc'. rewrite Hrun.
      intros [_ <-]%lookup_singleton_Some. done.
    + apply Forall_cons in Hokaw as [Hfits Hrest].
      apply Forall_cons in Hokw as [Hdata Hwrest].
      rewrite (Haddr aw addr prot eq_refl) in *.
      destruct (process_w_fits
                  (set_w_channel
                     {| queue := rest;
                        queue_occupancy_limit :=
                          queue_occupancy_limit (w_channel self) |} self)
                  (aligned lanes (awaddr aw)) prot wb w)
        as (buf' & Hproc & Hlen & _); simpl.
      { unfold store in *. congruence. }
      { by rewrite Hl, Hs. }
      { by rewrite Hl. }
      simpl in Hproc. rewrite Hproc. simpl.
      rewrite lookup_insert_eq, length_app. simpl. split; [lia|]. right. lia.
  - unfold transmitted.
    destruct (queue (b_channel self)) as [|b' rest] eqn:Hq; simpl.
    + rewrite lookup_insert_eq, Hq. simpl. split; [lia|]. right. lia.
    + rewrite Hrun, lookup_singleton_eq, Hq. simpl. split; [lia|done].
Qed.

(** Only the wire side of the two sinks lets beats in. *)
Lemma write_step_quiet ev w self :
  (∀ aw, ev ≠ PresentAW aw) → (∀ wb, ev ≠ PresentW wb) →
  aws_of (step ev w self).2 = [] ∧ ws_of (step ev w self).2 = [].
Proof.
  intros Haw Hw. destruct ev as [aw|wb| |tid|state]; simpl.
  - by destruct (Haw aw).
  - by destruct (Hw wb).
  - by destruct (transmit _) as [[b ch]|].
  - unfold _process_write.
    destruct (_ !! tid) as [[|aw addr prot|b]|]; [| | |done].
    + destruct (recv _) as [[aw ch]|]; [|done].
      by destruct (process_aw _ aw) as [[addr prot]|e].
    + destruct (recv _) as [[wb ch]|]; [|done].
      by destruct (process_w _ addr prot wb w) as [w' [b|e]].
    + by destruct (transmitted _).
  - by destruct (_handle_reset state w self).
Qed.

End write_trace.

Section write_runs.
Import AxiLiteRam.

Lemma write_drain_S (n tid : nat) :
  map OnWrite (AxiLiteRamWrite.drain (S n) tid) =
    OnWrite AxiLiteRamWrite.AcceptB :: OnWrite (AxiLiteRamWrite.Resume tid)
      :: map OnWrite (AxiLiteRamWrite.drain n tid).
Proof. reflexivity. Qed.

Lemma write_drain_ok (ram0 : t) (n tid : nat) :
  forallb (write_ok ram0) (map OnWrite (AxiLiteRamWrite.drain n tid)) = true.
Proof. induction n as [|n IH]; [done|]. rewrite write_drain_S. simpl. done. Qed.

(** The invariant of the write interface does not look at the bytes of the
    store, only at their number. *)
Lemma write_inv_world lanes sz tid done pc tr w w' self :
  length (store w') = length (store w) →
  AxiLiteRamWrite.Inv lanes sz tid done pc tr w self →
  AxiLiteRamWrite.Inv lanes sz tid done pc tr w' self.
Proof. intros Hlen []. split; try done. by rewrite Hlen. Qed.

(** Every schedule of normal operation keeps the invariant of the write
    interface, whatever happens on the read interface; the store changes
    by the writes of the pairs whose iteration the schedule completes, in
    their order. *)
Lemma write_inv_run (ram0 : t) tid (evs : list Event) :
  let lanes := AxiLiteRamWrite.byte_lanes (write_if ram0) in
  let sz := AxiLiteRamWrite.size (write_if ram0) in
  let mask := AxiLiteRamWrite.strb_mask (write_if ram0) in
  ∀ ram done pc tr,
    forallb (write_ok ram0) evs = true →
    AxiLiteRamWrite.strb_mask (write_if ram) = mask →
    AxiLiteRamWrite.Inv lanes sz tid done pc tr (world ram) (write_if ram) →
    ∃ new pc',
      AxiLiteRamWrite.Inv lanes sz tid (done ++ new) pc'
        (tr ++ write_labels (run evs ram).2)
        (world (run evs ram).1) (write_if (run evs ram).1)
      ∧ store (world (run evs ram).1)
        = write_pairs lanes sz mask (store (world ram)) new.
Proof.
  intros lanes sz mask.
  induction evs as [|ev evs IH]; intros ram done pc tr Hok Hmask HI.
  - exists [], pc. simpl. by rewrite !app_nil_r.
  - simpl in Hok. apply andb_true_iff in Hok as [Hev Hok].
    rewrite run_cons. destruct ev as [e|e].
    + destruct (write_inv_step_bytes _ _ _ _ _ _ _ _ e Hev HI)
        as (new1 & pc1 & HI1 & Hst1).
      destruct (write_step_config e (world ram) (write_if ram))
        as (_ & _ & Hmask1 & _).
      rewrite step_OnWrite. cbn [fst snd].
      destruct (IH {| world := (AxiLiteRamWrite.step e (world ram)
                                  (write_if ram)).1.1;
                      write_if := (AxiLiteRamWrite.step e (world ram)
                                     (write_if ram)).1.2;
                      read_if := read_if ram |}
                  (done ++ new1) pc1
                  (tr ++ (AxiLiteRamWrite.step e (world ram) (write_if ram)).2)
                  Hok) as (new' & pc' & HI' & Hst');
        [simpl; congruence|exact HI1|].
      exists (new1 ++ new'), pc'. split.
      * by rewrite write_labels_app, write_labels_ByWrite, !app_assoc.
      * rewrite Hst'. cbn [world]. rewrite Hst1, Hmask.
        unfold write_pairs. by rewrite foldl_app.
    + rewrite step_OnRead. cbn [fst snd].
      destruct (IH {| world := (AxiLiteRamRead.step e (world ram)
                                  (read_if ram)).1.1;
                      write_if := write_if ram;
                      read_if := (AxiLiteRamRead.step e (world ram)
                                    (read_if ram)).1.2 |}
                  done pc tr Hok Hmask) as (new' & pc' & HI' & Hst').
      { simpl. eapply write_inv_world; [|exact HI].
        unfold store. f_equal. apply read_step_store. }
      exists new', pc'. split.
      * by rewrite write_labels_app, write_labels_ByRead.
      * rewrite Hst'. cbn [world]. by rewrite read_step_store.
Qed.

(** Left to itself, the write interface comes to rest, without letting a
    new beat in. *)
Lemma write_drain lanes sz tid (m : nat) :
  ∀ ram done pc tr,
    AxiLiteRamWrite.measure tid (write_if ram) ≤ m →
    AxiLiteRamWrite.Inv lanes sz tid done pc tr (world ram) (write_if ram) →
    ∃ n,
      let r := run (map OnWrite (AxiLiteRamWrite.drain n tid)) ram in
      AxiLiteRamWrite.idle (write_if r.1)
      ∧ AxiLiteRamWrite.aws_of (write_labels r.2) = []
      ∧ AxiLiteRamWrite.ws_of (write_labels r.2) = [].
Proof.
  induction m as [|m IH]; intros ram done pc tr Hm HI.
  - destruct (decide (queue (AxiLiteRamWrite.b_channel (write_if ram)) = []))
      as [Hq|Hq].
    + destruct (write_resume_measure _ _ _ _ _ _ _ _ HI) as [_ Hres].
      destruct (Hres Hq) as [Hidle|Hlt]; [|lia].
      by exists 0.
    + pose proof (write_accept_measure tid (world ram) (write_if ram) Hq). lia.
  - (* one round: the master takes a response, the task is resumed *)
    destruct (write_step_quiet AxiLiteRamWrite.AcceptB (world ram)
                (write_if ram) ltac:(done) ltac:(done)) as [Hqa1 Hqw1].
    destruct (write_inv_step _ _ _ _ _ _ _ _ AxiLiteRamWrite.AcceptB
                eq_refl HI) as (done1 & pc1 & HI1).
    set (s1 := AxiLiteRamWrite.step AxiLiteRamWrite.AcceptB (world ram)
                 (write_if ram)) in *.
    destruct (write_step_quiet (AxiLiteRamWrite.Resume tid) s1.1.1 s1.1.2
                ltac:(done) ltac:(done)) as [Hqa2 Hqw2].
    destruct (write_inv_step _ _ _ _ _ _ _ _ (AxiLiteRamWrite.Resume tid)
                eq_refl HI1) as (done2 & pc2 & HI2).
    destruct (write_resume_measure _ _ _ _ _ _ _ _ HI1) as [Hle Hres].
    set (s2 := AxiLiteRamWrite.step (AxiLiteRamWrite.Resume tid) s1.1.1 s1.1.2)
      in *.
    assert (AxiLiteRamWrite.idle (write_if ram)
            ∨ AxiLiteRamWrite.measure tid s2.1.2
              < AxiLiteRamWrite.measure tid (write_if ram)) as [Hidle|Hlt].
    { destruct (decide (queue (AxiLiteRamWrite.b_channel (write_if ram)) = []))
        as [Hq|Hq].
      - assert (s1 = (world ram, write_if ram, [])) as Hs1
          by (by apply write_accept_noop).
        subst s2. rewrite Hs1 in Hres |- *. simpl in Hres |- *. auto.
      - right.
        pose proof (write_accept_measure tid (world ram) (write_if ram) Hq).
        subst s1. lia. }
    { by exists 0. }
    destruct (IH {| world := s2.1.1; write_if := s2.1.2;
                    read_if := read_if ram |}
                done2 pc2 ((tr ++ s1.2) ++ s2.2)) as (n & Hidle & Haws & Hws);
      [simpl; lia|done|].
    exists (S n). rewrite write_drain_S, !run_cons, !step_OnWrite.
    cbn [fst snd world write_if read_if]. fold s1. fold s2.
    split; [done|].
    rewrite !write_labels_app, !write_labels_ByWrite, !write_aws_of_app,
      !write_ws_of_app.
    by rewrite Hqa1, Hqa2, Hqw1, Hqw2, Haws, Hws.
Qed.

Lemma write_started_inv tid w self :
  AxiLiteRamWrite.started tid w self →
  AxiLiteRamWrite.Inv (AxiLiteRamWrite.byte_lanes self)
    (AxiLiteRamWrite.size self) tid [] AxiLiteRamWrite.AwaitAW [] w self.
Proof.
  intros (Hl & Hst & Hrun & Hq1 & Hq2 & Hq3). split; try done.
  - simpl. rewrite Hq1. constructor.
  - rewrite Hq2. constructor.
Qed.

(** The pairs whose iteration is complete are the first pairs of the
    address beats and the data beats let in, and no response is out that
    does not belong to one of them. *)
Lemma write_inv_done lanes sz tid done pc tr w self tr2 :
  AxiLiteRamWrite.Inv lanes sz tid done pc tr w self →
  done = take (length done)
           (zip (AxiLiteRamWrite.aws_of (tr ++ tr2))
              (AxiLiteRamWrite.ws_of (tr ++ tr2)))
  ∧ length (AxiLiteRamWrite.outs_of tr) ≤ length done.
Proof.
  intros [Hl Hlp Hs Hst Hrun Haws Hws Heng Houts Hokaw Hokw Haddr].
  split.
  - rewrite write_aws_of_app, write_ws_of_app, Haws, Hws, <- !app_assoc.
    by rewrite zip_fst_snd_app, take_app_length.
  - apply (f_equal length) in Houts. rewrite length_app, length_fmap in Houts.
    lia.
Qed.

(** An interface at rest has paired the beats it let in, oldest address
    beat with oldest data beat, and has sent out one response a pair. *)
Lemma write_inv_idle lanes sz tid done pc tr w self :
  AxiLiteRamWrite.Inv lanes sz tid done pc tr w self →
  AxiLiteRamWrite.idle self →
  done = zip (AxiLiteRamWrite.aws_of tr) (AxiLiteRamWrite.ws_of tr)
  ∧ AxiLiteRamWrite.outs_of tr = (λ _, {| bresp := OKAY |}) <$> done
  ∧ (length (AxiLiteRamWrite.aws_of tr) = length (AxiLiteRamWrite.ws_of tr) →
     AxiLiteRamWrite.pending pc = []).
Proof.
  intros [Hl Hlp Hs Hst Hrun Haws Hws Heng Houts Hokaw Hokw Haddr] [Hb Hpc].
  specialize (Hpc tid pc). rewrite Hrun, lookup_singleton_eq in Hpc.
  specialize (Hpc eq_refl). rewrite Hb, app_nil_r in Houts.
  destruct pc as [|aw addr prot|b]; [| |done]; simpl in *.
  - rewrite Hpc, app_nil_r in Haws. rewrite Haws, Hws.
    by rewrite zip_fst_snd_app_r.
  - rewrite Hpc, app_nil_r in Hws. rewrite Haws, Hws.
    rewrite zip_fst_snd_app_l. split_and!; [done|done|].
    rewrite length_app, !length_fmap. simpl. lia.
Qed.

End write_runs.

(** C1. The write engine pairs the Nth address beat that the interface let
    in with the Nth data beat, in the order of arrival and whatever else
    goes on; an iteration receives the address beat, then the data beat,
    then changes the store, and only then sends its one response, with
    status OKAY.  At every moment of a schedule the store holds the writes
    of the first [k] pairs, each the data of the kth data beat at the
    offset of the kth address beat, and no more than [k] responses have
    gone out: a response is never out before the bytes of its pair are in
    the store.  Once the engine has been left to run, there is exactly one
    response for each pair, so N address beats and N data beats have got
    exactly N responses, and the store holds the writes of all the
    pairs. *)
Theorem write_pairs_in_order (ram0 : AxiLiteRam.t) (tid : nat)
    (evs : list AxiLiteRam.Event) :
  let lanes := AxiLiteRamWrite.byte_lanes (AxiLiteRam.write_if ram0) in
  let sz := AxiLiteRamWrite.size (AxiLiteRam.write_if ram0) in
  let mask := AxiLiteRamWrite.strb_mask (AxiLiteRam.write_if ram0) in
  let store0 := store (AxiLiteRam.world ram0) in
  AxiLiteRamWrite.started tid (AxiLiteRam.world ram0) (AxiLiteRam.write_if ram0) →
  forallb (AxiLiteRam.write_ok ram0) evs = true →
  (∃ done pc,
     let r := AxiLiteRam.run evs ram0 in
     let wl := AxiLiteRam.write_labels r.2 in
     AxiLiteRamWrite.aws_of wl
     = done.*1 ++ AxiLiteRamWrite.pending pc
         ++ queue (AxiLiteRamWrite.aw_channel (AxiLiteRam.write_if r.1))
     ∧ AxiLiteRamWrite.ws_of wl
       = done.*2 ++ queue (AxiLiteRamWrite.w_channel (AxiLiteRam.write_if r.1))
     ∧ AxiLiteRamWrite.engine_of wl
       = (done ≫= AxiLiteRamWrite.transaction)
           ++ (AxiLiteRamWrite.RecvAW <$> AxiLiteRamWrite.pending pc)
     ∧ AxiLiteRamWrite.outs_of wl
         ++ queue (AxiLiteRamWrite.b_channel (AxiLiteRam.write_if r.1))
       = (λ _, {| bresp := OKAY |}) <$> done
     ∧ store (AxiLiteRam.world r.1) = write_pairs lanes sz mask store0 done)
  ∧ (∀ evs1 evs2, evs = evs1 ++ evs2 →
       let r1 := AxiLiteRam.run evs1 ram0 in
       let wl := AxiLiteRam.write_labels (AxiLiteRam.run evs ram0).2 in
       ∃ k,
         length (AxiLiteRamWrite.outs_of (AxiLiteRam.write_labels r1.2)) ≤ k
         ∧ store (AxiLiteRam.world r1.1)
           = write_pairs lanes sz mask store0
               (take k (zip (AxiLiteRamWrite.aws_of wl)
                          (AxiLiteRamWrite.ws_of wl))))
  ∧ ∃ n,
      let r := AxiLiteRam.run
                 (evs ++ map AxiLiteRam.OnWrite (AxiLiteRamWrite.drain n tid))
                 ram0 in
      let wl := AxiLiteRam.write_labels r.2 in
      let aws := AxiLiteRamWrite.aws_of wl in
      let ws := AxiLiteRamWrite.ws_of wl in
      aws = AxiLiteRamWrite.aws_of
              (AxiLiteRam.write_labels (AxiLiteRam.run evs ram0).2)
      ∧ ws = AxiLiteRamWrite.ws_of
               (AxiLiteRam.write_labels (AxiLiteRam.run evs ram0).2)
      ∧ AxiLiteRamWrite.outs_of wl = (λ _, {| bresp := OKAY |}) <$> zip aws ws
      ∧ store (AxiLiteRam.world r.1)
        = write_pairs lanes sz mask store0 (zip aws ws)
      ∧ (length aws = length ws →
         AxiLiteRamWrite.engine_of wl
         = zip aws ws ≫= AxiLiteRamWrite.transaction
         ∧ length (AxiLiteRamWrite.outs_of wl) = length aws).
Proof.
  intros lanes sz mask store0 Hstart Hok.
  apply write_started_inv in Hstart.
  destruct (write_inv_run ram0 tid evs ram0 _ _ _ Hok eq_refl Hstart)
    as (done & pc & HI & Hst).
  split_and!.
  - exists done, pc. split_and!; try done; by destruct HI.
  - intros evs1 evs2 ->. cbv zeta.
    rewrite forallb_app in Hok. apply andb_true_iff in Hok as [Hok1 _].
    destruct (write_inv_run ram0 tid evs1 ram0 _ _ _ Hok1 eq_refl Hstart)
      as (done1 & pc1 & HI1 & Hst1).
    simpl in HI1.
    exists (length done1). rewrite run_app. cbn [snd].
    rewrite write_labels_app.
    destruct (write_inv_done _ _ _ _ _ _ _ _
                (AxiLiteRam.write_labels
                   (AxiLiteRam.run evs2 (AxiLiteRam.run evs1 ram0).1).2) HI1)
      as [Hdone Hle].
    split; [done|]. by rewrite <- Hdone.
  - destruct (write_drain _ _ tid _ _ _ _ _ (le_n _) HI)
      as (n & Hidle & Haws & Hws).
    exists n.
    assert (forallb (AxiLiteRam.write_ok ram0)
              (evs ++ map AxiLiteRam.OnWrite (AxiLiteRamWrite.drain n tid))
            = true) as Hok'.
    { rewrite forallb_app, Hok. apply write_drain_ok. }
    destruct (write_inv_run ram0 tid _ ram0 _ _ _ Hok' eq_refl Hstart)
      as (done' & pc' & HI' & Hst').
    rewrite run_app in HI', Hst' |- *.
    simpl in Hidle, Haws, Hws, HI', Hst' |- *.
    destruct (write_inv_idle _ _ _ _ _ _ _ _ HI' Hidle)
      as (Hdone & Houts & Hpend).
    destruct HI' as [_ _ _ _ _ _ _ Heng _ _ _ _].
    split_and!.
    + by rewrite write_labels_app, write_aws_of_app, Haws, app_nil_r.
    + by rewrite write_labels_app, write_ws_of_app, Hws, app_nil_r.
    + by rewrite Houts, Hdone.
    + by rewrite Hst', Hdone.
    + intros Hlen. rewrite Heng, (Hpend Hlen), <- Hdone. simpl.
      rewrite app_nil_r. split; [done|].
      rewrite Houts, length_fmap, Hdone, length_zip_with. lia.
Qed.

(* ===================================================================== *)
(** * The properties on the example configuration *)
(* ===================================================================== *)

Lemma demo_ram_init :
  AxiLiteRam.__init__ (AxiLiteRamWrite.MkBus 32 32 (Some 4))
    (AxiLiteRamRead.MkBus 32 32) true (mem demo_world) = Ok demo_ram.
Proof. reflexivity. Qed.

Lemma demo_started_write :
  AxiLiteRamWrite.started 0 (AxiLiteRam.world demo_started)
    (AxiLiteRam.write_if demo_started).
Proof. vm_compute. split_and!; (lia || reflexivity). Qed.

Lemma demo_started_read :
  AxiLiteRamRead.started 0 (AxiLiteRam.world demo_started)
    (AxiLiteRam.read_if demo_started).
Proof. vm_compute. split_and!; (lia || reflexivity). Qed.

Lemma write_pairs_in_order_witness :
  ∃ n,
    let r := AxiLiteRam.run
               (demo_schedule
                  ++ map AxiLiteRam.OnWrite (AxiLiteRamWrite.drain n 0))
               demo_started in
    AxiLiteRamWrite.outs_of (AxiLiteRam.write_labels r.2)
    = [{| bresp := OKAY |}; {| bresp := OKAY |}]
    ∧ take 4 (drop 16 (store (AxiLiteRam.world r.1))) = [xdd; xcc; x5a; x5a]
    ∧ drop 1020 (store (AxiLiteRam.world r.1)) = [x04; x03; x02; x01].
Proof.
  destruct (write_pairs_in_order demo_started 0 demo_schedule)
    as (_ & _ & n & Haws & Hws & Houts & Hst & _).
  - exact demo_started_write.
  - vm_compute. reflexivity.
  - exists n. cbv zeta in Haws, Hws, Houts, Hst |- *.
    rewrite Houts, Hst, Haws, Hws.
    vm_compute. split_and!; reflexivity.
Defined.

Lemma read_answers_in_order_witness :
  let evs := demo_schedule
               ++ map AxiLiteRam.OnRead (AxiLiteRamRead.drain 3 0) in
  let r := AxiLiteRam.run evs demo_started in
  AxiLiteRamRead.outs_of (AxiLiteRam.read_labels r.2)
    ++ queue (AxiLiteRamRead.r_channel (AxiLiteRam.read_if r.1))
  = [{| rdata := 0x5a5a5a5a; rresp := OKAY |};
     {| rdata := 0x5a5accdd; rresp := OKAY |}].
Proof.
  intros evs r.
  destruct (read_answers_in_order demo_started 0 evs)
    as [(_ & _ & _ & Houts) _].
  - exact demo_started_read.
  - vm_compute. reflexivity.
  - cbv zeta in Houts. subst r. rewrite Houts.
    vm_compute. reflexivity.
Defined.

Lemma reset_handlers_witness :
  size (AxiLiteRamWrite.running
          (AxiLiteRam.write_if
             (AxiLiteRam.run
                (demo_schedule
                   ++ [AxiLiteRam.OnWrite (AxiLiteRamWrite.Notify true);
                       AxiLiteRam.OnWrite (AxiLiteRamWrite.Notify false);
                       AxiLiteRam.OnWrite (AxiLiteRamWrite.Notify false)])
                demo_ram).1)) ≤ 1
  ∧ (AxiLiteRamWrite._handle_reset true demo_world
       (AxiLiteRam.write_if (AxiLiteRam.run demo_schedule demo_started).1)).2
    = AxiLiteRamWrite.cleared
        (AxiLiteRam.write_if (AxiLiteRam.run demo_schedule demo_started).1).
Proof.
  destruct reset_handlers as (Hone & Hassert & _).
  split.
  - apply (Hone _ _ _ _ _ demo_ram_init).
  - apply Hassert. right. exists 0.
    vm_compute. eexists. split; reflexivity.
Defined.

(** Why the beats have to be ones that the engine can process: in the
    store of 5 bytes, the write to address 4 raises in the middle of the
    loop over the lanes; the instance is gone, its handle stays, and the
    next pair of beats gets no response. *)
Example odd_write_engine_dies :
  let r := AxiLiteRam.run
             (map AxiLiteRam.OnWrite
                [AxiLiteRamWrite.PresentAW (MkAW 4 None);
                 AxiLiteRamWrite.PresentW (MkW 0xAABBCCDD None);
                 AxiLiteRamWrite.Resume 0; AxiLiteRamWrite.Resume 0;
                 AxiLiteRamWrite.PresentAW (MkAW 0 None);
                 AxiLiteRamWrite.PresentW (MkW 1 None);
                 AxiLiteRamWrite.Resume 0; AxiLiteRamWrite.Resume 0;
                 AxiLiteRamWrite.Notify false; AxiLiteRamWrite.Resume 0])
             odd_started in
  AxiLiteRamWrite.engine_of (AxiLiteRam.write_labels r.2)
  = [AxiLiteRamWrite.RecvAW (MkAW 4 None);
     AxiLiteRamWrite.RecvW (MkW 0xAABBCCDD None);
     AxiLiteRamWrite.Died ValueError]
  ∧ AxiLiteRamWrite.running (AxiLiteRam.write_if r.1) = ∅
  ∧ AxiLiteRamWrite._process_write_cr (AxiLiteRam.write_if r.1) = Some 0
  ∧ store (AxiLiteRam.world r.1) = [x10; x11; x12; x13; xdd].
Proof. vm_compute. split_and!; reflexivity. Qed.

(* ===================================================================== *)
(** * Further properties of one transaction *)
(* ===================================================================== *)

Section more_transactions.
Import AxiLiteRamWrite.

Lemma write_lanes_app (strb : Z) (data : list byte) (l1 l2 : list nat)
    (w : World) :
  write_lanes strb data (l1 ++ l2) w =
    (write_lanes strb data l1 ≫= λ _, write_lanes strb data l2) w.
Proof.
  revert w. induction l1 as [|i l1 IH]; intros w; [done|].
  cbn [app write_lanes]. unfold mbind, M_bind in *.
  destruct (strb_bit strb i).
  - destruct (mmap_write _ w) as [w1 [[]|e]]; [apply IH|done].
  - destruct (mmap_seek_cur 1 w) as [w1 [[]|e]]; [apply IH|done].
Qed.

(** At the end of the store neither branch of the loop gets any further. *)
Lemma write_lanes_at_end (strb : Z) (data : list byte) (i : nat)
    (rest : list nat) (w : World) :
  mem_pos (mem w) = length (store w) →
  i < length data →
  write_lanes strb data (i :: rest) w = (w, Raise ValueError).
Proof.
  unfold store. intros Hpos Hi. cbn [write_lanes].
  destruct (lookup_lt_is_Some_2 data i Hi) as [d Hd].
  rewrite (py_slice_one _ _ _ Hd).
  destruct (strb_bit strb i).
  - apply bind_Raise. unfold mmap_write. simpl length.
    destruct (Nat.ltb_spec (length (mem_buf (mem w))) (mem_pos (mem w)));
      [done|].
    destruct (Nat.ltb_spec (length (mem_buf (mem w)) - mem_pos (mem w)) 1);
      [done|lia].
  - apply bind_Raise. unfold mmap_seek_cur, mmap_seek.
    destruct (Z.ltb_spec (Z.of_nat (mem_pos (mem w)) + 1) 0); [lia|].
    destruct (Z.ltb_spec (Z.of_nat (length (mem_buf (mem w))))
                (Z.of_nat (mem_pos (mem w)) + 1)); [done|lia].
Qed.

(** The store after the loop, position by position. *)
Lemma write_lanes_lookup (strb : Z) (data : list byte) (n : nat) (w : World) :
  mem_pos (mem w) + n ≤ length (store w) →
  n ≤ length data →
  ∃ buf',
    write_lanes strb data (seq 0 n) w =
      ({| mem := {| mem_buf := buf'; mem_pos := mem_pos (mem w) + n |};
          log := log w |}, Ok tt)
    ∧ length buf' = length (store w)
    ∧ ∀ j, buf' !! j
           = written_byte (mem_pos (mem w)) n strb data j (store w !! j).
Proof.
  unfold store. intros Hpos Hdata.
  destruct (write_lanes_fits strb data n 0 w Hpos Hdata)
    as (buf' & Hrun & Hlen & Hin & Hout).
  exists buf'. split_and!; [done|done|].
  intros j. unfold written_byte. case_decide as Hj.
  - specialize (Hin (j - mem_pos (mem w))).
    replace (mem_pos (mem w) + (j - mem_pos (mem w))) with j in Hin by lia.
    apply Hin. lia.
  - by apply Hout.
Qed.

(** X1. A write whose run of [byte_lanes] bytes goes past the end of the
    store raises [ValueError] when the loop reaches the end: the lanes
    before the end have been stored under the strobe mask, every other
    byte is as before, and there is no response beat. *)
Theorem write_overflow_raises (self : t) (aw : AWBeat) (wb : WBeat)
    (w : World) :
  let bl := byte_lanes self in
  let strb := getattr (wstrb wb) (strb_mask self) in
  let off := offset (size self) (aligned bl (awaddr aw)) in
  0 < bl →
  0 < size self →
  size self = length (store w) →
  (0 ≤ wdata wb < 2 ^ (8 * Z.of_nat bl))%Z →
  size self < off + bl →
  ∃ w',
    process_write self aw wb w = (w', Raise ValueError)
    ∧ mem_pos (mem w') = size self
    ∧ length (store w') = length (store w)
    ∧ ∀ j, store w' !! j
           = written_byte off (size self - off) strb
               (le_octets bl (wdata wb)) j (store w !! j).
Proof.
  intros bl strb off Hbl Hsz Hlen Hdata Hover.
  pose proof (offset_lt (size self) (aligned bl (awaddr aw)) Hsz) as Hoff.
  fold off in Hoff.
  unfold process_write.
  erewrite bind_Ok; [|apply lift_Ok, process_aw_Ok; done].
  cbv beta iota. unfold process_w.
  erewrite bind_Ok; [|apply lift_Ok, py_mod_Ok; done].
  erewrite bind_Ok; [|apply mmap_seek_Ok; fold bl off; unfold store in Hlen; lia].
  erewrite bind_Ok; [|apply lift_Ok, to_bytes_Ok; done].
  erewrite bind_Ok; [|apply log_info_Ok].
  fold bl strb off. simpl mem. simpl log.
  set (w1 := {| mem := {| mem_buf := mem_buf (mem w); mem_pos := off |};
                log := _ |}).
  assert (seq 0 bl = seq 0 (size self - off) ++
                     seq (size self - off) (bl - (size self - off))) as ->.
  { trans (seq 0 ((size self - off) + (bl - (size self - off))));
      [f_equal; lia|apply seq_app]. }
  destruct (write_lanes_lookup strb (le_octets bl (wdata wb))
              (size self - off) w1) as (buf' & Hrun & Hlen' & Hlook).
  { subst w1. unfold store in *. simpl. lia. }
  { rewrite length_le_octets. lia. }
  destruct (bl - (size self - off)) as [|k] eqn:Hk; [lia|]. cbn [seq].
  eexists. split.
  - apply bind_Raise. rewrite write_lanes_app.
    erewrite bind_Ok; [|exact Hrun].
    apply write_lanes_at_end.
    + unfold store in *. subst w1. simpl in *. lia.
    + rewrite length_le_octets. lia.
  - subst w1. unfold store in *. simpl in *. split_and!; [lia|done|done].
Qed.

Lemma write_overflow_raises_witness :
  ∃ w',
    process_write odd_write (MkAW 4 None) (MkW 0xAABBCCDD None) odd_world
    = (w', Raise ValueError)
    ∧ store w' !! 4 = Some xdd ∧ store w' !! 0 = Some x10.
Proof.
  destruct (write_overflow_raises odd_write (MkAW 4 None)
              (MkW 0xAABBCCDD None) odd_world)
    as (w' & Hrun & _ & _ & Hlook).
  - simpl. lia.
  - simpl. lia.
  - reflexivity.
  - simpl. lia.
  - vm_compute. lia.
  - exists w'. split; [exact Hrun|]. split; rewrite Hlook; reflexivity.
Defined.

End more_transactions.

Section more_errors.

(** X2. A data beat whose value is negative or does not fit [byte_lanes]
    bytes makes the write raise [OverflowError] in [to_bytes], after the
    seek and before the log line and the loop: the bytes of the store and
    the log are as before, only the file position has moved to the offset
    of the access. *)
Theorem write_data_out_of_range (self : AxiLiteRamWrite.t) (aw : AWBeat)
    (wb : WBeat) (w : World) :
  let bl := AxiLiteRamWrite.byte_lanes self in
  let off := offset (AxiLiteRamWrite.size self) (aligned bl (awaddr aw)) in
  0 < bl →
  0 < AxiLiteRamWrite.size self →
  AxiLiteRamWrite.size self = length (store w) →
  (wdata wb < 0 ∨ 2 ^ (8 * Z.of_nat bl) ≤ wdata wb)%Z →
  AxiLiteRamWrite.process_write self aw wb w
  = ({| mem := {| mem_buf := store w; mem_pos := off |}; log := log w |},
     Raise OverflowError).
Proof.
  intros bl off Hbl Hsz Hlen Hdata.
  pose proof (offset_lt (AxiLiteRamWrite.size self)
                (aligned bl (awaddr aw)) Hsz) as Hoff.
  unfold AxiLiteRamWrite.process_write.
  erewrite bind_Ok; [|apply lift_Ok, process_aw_Ok; done].
  cbv beta iota. unfold AxiLiteRamWrite.process_w.
  erewrite bind_Ok; [|apply lift_Ok, py_mod_Ok; done].
  erewrite bind_Ok; [|apply mmap_seek_Ok; fold bl; unfold store in Hlen; lia].
  apply bind_Raise. unfold lift, to_bytes, set_mem. fold bl off. simpl.
  destruct (Z.ltb_spec (wdata wb) 0); [done|].
  destruct (Z.leb_spec (2 ^ (8 * Z.of_nat bl)) (wdata wb)); [done|lia].
Qed.

Lemma write_data_out_of_range_witness :
  AxiLiteRamWrite.process_write demo_write (MkAW 0x13 None)
    (MkW 0x100000000 None) demo_world
  = ({| mem := {| mem_buf := store demo_world; mem_pos := 16 |}; log := [] |},
     Raise OverflowError).
Proof.
  apply (write_data_out_of_range demo_write (MkAW 0x13 None)
           (MkW 0x100000000 None) demo_world).
  - simpl. lia.
  - simpl. lia.
  - reflexivity.
  - right. simpl. lia.
Defined.

(** X3. With no byte lane (a data bus of width 0, which the assertions of
    the constructors let through) the first address beat raises
    [ZeroDivisionError] in the alignment of the address, and with an empty
    store the reduction of the address modulo the size does; in both
    cases, and in both engines, nothing has been touched by then. *)
Theorem zero_division :
  (∀ bus enabled m self,
     AxiLiteRamWrite.__init__ bus enabled m = Ok self →
     (AxiLiteRamWrite.byte_lanes self = 0 ↔ AxiLiteRamWrite.wdata_len bus = 0)
     ∧ (AxiLiteRamWrite.size self = 0 ↔ mem_buf m = []))
  ∧ (∀ bus enabled m self,
       AxiLiteRamRead.__init__ bus enabled m = Ok self →
       (AxiLiteRamRead.byte_lanes self = 0 ↔ AxiLiteRamRead.rdata_len bus = 0)
       ∧ (AxiLiteRamRead.size self = 0 ↔ mem_buf m = []))
  ∧ (∀ self aw wb w,
       AxiLiteRamWrite.byte_lanes self = 0
       ∨ AxiLiteRamWrite.size self = 0 →
       AxiLiteRamWrite.process_write self aw wb w
       = (w, Raise ZeroDivisionError))
  ∧ (∀ self ar w,
       AxiLiteRamRead.byte_lanes self = 0
       ∨ AxiLiteRamRead.size self = 0 →
       AxiLiteRamRead.process_read self ar w = (w, Raise ZeroDivisionError)).
Proof.
  assert (∀ n, n `div` 8 * 8 = n → (n `div` 8 = 0 ↔ n = 0)) as Hdiv.
  { intros n Hn. lia. }
  split_and!.
  - intros bus enabled m self. unfold AxiLiteRamWrite.__init__.
    destruct (AxiLiteRamWrite.wstrb_len bus) as [n|];
      unfold attribute, mbind, Res_bind; [|done].
    destruct (_ =? n); cbn [negb]; [|done].
    destruct (Nat.eqb_spec (AxiLiteRamWrite.wdata_len bus `div` 8 * 8)
                (AxiLiteRamWrite.wdata_len bus)) as [Hw|]; cbn [negb]; [|done].
    intros [= <-]. simpl. split; [by apply Hdiv|].
    unfold Memory_size. by destruct (mem_buf m).
  - intros bus enabled m self. unfold AxiLiteRamRead.__init__.
    destruct (Nat.eqb_spec (AxiLiteRamRead.rdata_len bus `div` 8 * 8)
                (AxiLiteRamRead.rdata_len bus)) as [Hw|]; cbn [negb]; [|done].
    intros [= <-]. simpl. split; [by apply Hdiv|].
    unfold Memory_size. by destruct (mem_buf m).
  - intros self aw wb w [Hz|Hz].
    + unfold AxiLiteRamWrite.process_write, AxiLiteRamWrite.process_aw,
        AxiLiteRamWrite.write_addr. by rewrite Hz.
    + unfold AxiLiteRamWrite.process_write, AxiLiteRamWrite.process_aw,
        AxiLiteRamWrite.write_addr, AxiLiteRamWrite.process_w.
      rewrite Hz. unfold py_floordiv.
      by destruct (_ =? 0)%Z.
  - intros self ar w [Hz|Hz].
    + unfold AxiLiteRamRead.process_read, AxiLiteRamRead.read_addr.
      by rewrite Hz.
    + unfold AxiLiteRamRead.process_read, AxiLiteRamRead.read_addr.
      rewrite Hz. unfold py_floordiv.
      by destruct (_ =? 0)%Z.
Qed.

Lemma zero_division_witness :
  (∃ self,
     AxiLiteRamWrite.__init__ (AxiLiteRamWrite.MkBus 32 0 (Some 0)) true
       (mem demo_world) = Ok self
     ∧ AxiLiteRamWrite.process_write self (MkAW 0 None) (MkW 0 None) demo_world
       = (demo_world, Raise ZeroDivisionError)).
Proof.
  destruct zero_division as (Hinit & _ & Hw & _).
  eexists. split; [reflexivity|].
  apply Hw. left.
  apply (Hinit (AxiLiteRamWrite.MkBus 32 0 (Some 0)) true (mem demo_world));
    reflexivity.
Defined.

(** X4. On a store that is not empty, and with at least one byte lane, a
    read never raises: it returns the bytes from the offset on, [byte_lanes]
    of them or, when the end of the store comes first, those up to the
    end; the data word is these bytes least significant first, so it is
    below [2 ** (8 * byte_lanes)] and fits the data bus; the status is
    OKAY and nothing is logged before the send. *)
Theorem read_never_raises (self : AxiLiteRamRead.t) (ar : ARBeat) (w : World) :
  let bl := AxiLiteRamRead.byte_lanes self in
  let sz := AxiLiteRamRead.size self in
  let off := offset sz (aligned bl (araddr ar)) in
  0 < bl → 0 < sz → sz = length (store w) →
  ∃ data r,
    AxiLiteRamRead.process_read self ar w
    = ({| mem := {| mem_buf := store w; mem_pos := off + length data |};
          log := log w |},
       Ok (aligned bl (araddr ar), AxiProt_of (getattr (arprot ar) NONSECURE),
           data, r))
    ∧ data = take bl (drop off (store w))
    ∧ length data = bl `min` (sz - off)
    ∧ 0 < length data
    ∧ rdata r = from_bytes data
    ∧ (0 ≤ rdata r < 2 ^ (8 * Z.of_nat (length data)))%Z
    ∧ (rdata r < 2 ^ (8 * Z.of_nat bl))%Z
    ∧ rresp r = OKAY.
Proof.
  intros bl sz off Hbl Hsz Hlen.
  pose proof (offset_lt sz (aligned bl (araddr ar)) Hsz) as Hoff.
  rewrite process_read_Ok by done. fold bl sz off.
  set (data := take bl (drop off (store w))).
  assert (length data = bl `min` (sz - off)) as Hdata.
  { subst data. rewrite length_take, length_drop. lia. }
  pose proof (from_bytes_range data) as Hrange.
  exists data, {| rdata := from_bytes data; rresp := OKAY |}.
  fold off in Hoff.
  split_and!; try done; simpl; try lia.
  eapply Z.lt_le_trans; [apply Hrange|].
  apply Z.pow_le_mono_r; lia.
Qed.

Lemma read_never_raises_witness :
  ∃ data r,
    (AxiLiteRamRead.process_read odd_read (MkAR 4 None) odd_world).2
    = Ok (4%Z, NONSECURE, data, r)
    ∧ length data = 1 ∧ (rdata r < 2 ^ 32)%Z.
Proof.
  destruct (read_never_raises odd_read (MkAR 4 None) odd_world)
    as (data & r & Hrun & _ & Hlen & _ & _ & _ & Hlt & _).
  - simpl. lia.
  - simpl. lia.
  - reflexivity.
  - exists data, r. rewrite Hrun. split_and!; [reflexivity|exact Hlen|exact Hlt].
Defined.

End more_errors.

(* ===================================================================== *)
(** * What a transaction depends on *)
(* ===================================================================== *)

Section dependence.

Lemma mem_eqv_ret {A} (a : A) : mem_eqv (mret a) (mret a).
Proof. by intros w w' Hw. Qed.

Lemma mem_eqv_lift {A} (r : Res A) : mem_eqv (lift r) (lift r).
Proof. by intros w w' Hw. Qed.

Lemma mem_eqv_bind {A B} (c1 c2 : M A) (f1 f2 : A → M B) :
  mem_eqv c1 c2 → (∀ a, mem_eqv (f1 a) (f2 a)) →
  mem_eqv (c1 ≫= f1) (c2 ≫= f2).
Proof.
  intros Hc Hf w w' Hw. unfold mbind, M_bind.
  destruct (Hc w w' Hw) as [Hr Hm].
  destruct (c1 w) as [w1 r1], (c2 w') as [w2 r2]. simpl in Hr, Hm. subst r2.
  destruct r1 as [a|e]; [by apply Hf|done].
Qed.

(** The log does not count: any two log lines are as good as none. *)
Lemma mem_eqv_log_info (e1 e2 : bool) (r1 r2 : LogRecord) :
  mem_eqv (log_info e1 r1) (log_info e2 r2).
Proof. intros w w' Hw. unfold log_info. by destruct e1, e2. Qed.

Lemma mem_eqv_seek (pos : Z) : mem_eqv (mmap_seek pos) (mmap_seek pos).
Proof.
  intros w w' Hw. unfold mmap_seek. rewrite Hw.
  by destruct (_ || _).
Qed.

Lemma mem_eqv_seek_cur (off : Z) :
  mem_eqv (mmap_seek_cur off) (mmap_seek_cur off).
Proof.
  intros w w' Hw. unfold mmap_seek_cur. rewrite Hw. by apply mem_eqv_seek.
Qed.

Lemma mem_eqv_write (data : list byte) :
  mem_eqv (mmap_write data) (mmap_write data).
Proof.
  intros w w' Hw. unfold mmap_write. rewrite Hw.
  by destruct (_ || _).
Qed.

Lemma mem_eqv_read (n : Z) : mem_eqv (mmap_read n) (mmap_read n).
Proof. intros w w' Hw. unfold mmap_read. by rewrite Hw. Qed.

(** The loop only looks at the strobe bits of its lanes. *)
Lemma mem_eqv_write_lanes (s1 s2 : Z) (data : list byte) (lanes : list nat) :
  Forall (λ i, strb_bit s1 i = strb_bit s2 i) lanes →
  mem_eqv (write_lanes s1 data lanes) (write_lanes s2 data lanes).
Proof.
  induction 1 as [|i lanes Hi _ IH]; [apply mem_eqv_ret|].
  cbn [write_lanes]. rewrite Hi. apply mem_eqv_bind; [|done].
  destruct (strb_bit s2 i); [apply mem_eqv_write|apply mem_eqv_seek_cur].
Qed.

Lemma store_eqv_lift_bind {A B} (r : Res A) (f1 f2 : A → M B) :
  (∀ a, store_eqv (f1 a) (f2 a)) →
  store_eqv (lift r ≫= f1) (lift r ≫= f2).
Proof.
  intros Hf w w' Hw. unfold mbind, M_bind, lift.
  destruct r as [a|e]; [by apply Hf|done].
Qed.

(** After a seek the file position that was there before does not count. *)
Lemma store_eqv_seek_bind {B} (pos : Z) (f1 f2 : unit → M B) :
  mem_eqv (f1 ()) (f2 ()) →
  store_eqv (mmap_seek pos ≫= f1) (mmap_seek pos ≫= f2).
Proof.
  intros Hf w w' Hw. unfold mbind, M_bind, mmap_seek, store in *.
  rewrite Hw. destruct (_ || _); [done|].
  destruct (Hf (set_mem {| mem_buf := mem_buf (mem w');
                           mem_pos := Z.to_nat pos |} w)
              (set_mem {| mem_buf := mem_buf (mem w');
                          mem_pos := Z.to_nat pos |} w') eq_refl) as [Hr Hm].
  split; [done|]. by rewrite Hm.
Qed.

(** Lines 108-128 for two address beats that lead to the same offset and
    two data beats with the same data whose strobe masks agree on the
    byte lanes. *)
Lemma process_w_eqv (self : AxiLiteRamWrite.t) (addr1 addr2 : Z)
    (prot1 prot2 : AxiProt) (wb1 wb2 : WBeat) :
  py_mod addr1 (Z.of_nat (AxiLiteRamWrite.size self))
  = py_mod addr2 (Z.of_nat (AxiLiteRamWrite.size self)) →
  wdata wb1 = wdata wb2 →
  (∀ i, i < AxiLiteRamWrite.byte_lanes self →
     strb_bit (getattr (wstrb wb1) (AxiLiteRamWrite.strb_mask self)) i
     = strb_bit (getattr (wstrb wb2) (AxiLiteRamWrite.strb_mask self)) i) →
  store_eqv (AxiLiteRamWrite.process_w self addr1 prot1 wb1)
    (AxiLiteRamWrite.process_w self addr2 prot2 wb2).
Proof.
  intros Hoff Hdata Hbits. unfold AxiLiteRamWrite.process_w.
  rewrite Hoff, Hdata. apply store_eqv_lift_bind. intros off.
  apply store_eqv_seek_bind.
  apply mem_eqv_bind; [apply mem_eqv_lift|]. intros data.
  apply mem_eqv_bind; [apply mem_eqv_log_info|]. intros _.
  apply mem_eqv_bind; [|intros _; apply mem_eqv_ret].
  apply mem_eqv_write_lanes, Forall_forall. intros i Hi.
  apply Hbits. apply list_elem_of_In, in_seq in Hi. lia.
Qed.

Lemma process_write_eqv (self : AxiLiteRamWrite.t) (aw1 aw2 : AWBeat)
    (wb1 wb2 : WBeat) :
  0 < AxiLiteRamWrite.byte_lanes self →
  0 < AxiLiteRamWrite.size self →
  offset (AxiLiteRamWrite.size self)
    (aligned (AxiLiteRamWrite.byte_lanes self) (awaddr aw1))
  = offset (AxiLiteRamWrite.size self)
      (aligned (AxiLiteRamWrite.byte_lanes self) (awaddr aw2)) →
  wdata wb1 = wdata wb2 →
  (∀ i, i < AxiLiteRamWrite.byte_lanes self →
     strb_bit (getattr (wstrb wb1) (AxiLiteRamWrite.strb_mask self)) i
     = strb_bit (getattr (wstrb wb2) (AxiLiteRamWrite.strb_mask self)) i) →
  store_eqv (AxiLiteRamWrite.process_write self aw1 wb1)
    (AxiLiteRamWrite.process_write self aw2 wb2).
Proof.
  intros Hbl Hsz Hoff Hdata Hbits w w' Hw.
  unfold AxiLiteRamWrite.process_write.
  erewrite !bind_Ok; [|apply lift_Ok, process_aw_Ok; done..].
  cbv beta iota. apply process_w_eqv; try done.
  by rewrite !py_mod_Ok, Hoff by done.
Qed.

(** Lines 195-206 for two address beats that lead to the same offset. *)
Lemma process_read_eqv (self : AxiLiteRamRead.t) (ar1 ar2 : ARBeat)
    (w w' : World) :
  0 < AxiLiteRamRead.byte_lanes self →
  0 < AxiLiteRamRead.size self →
  offset (AxiLiteRamRead.size self)
    (aligned (AxiLiteRamRead.byte_lanes self) (araddr ar1))
  = offset (AxiLiteRamRead.size self)
      (aligned (AxiLiteRamRead.byte_lanes self) (araddr ar2)) →
  store w = store w' →
  answer_of (AxiLiteRamRead.process_read self ar1 w).2
  = answer_of (AxiLiteRamRead.process_read self ar2 w').2.
Proof.
  intros Hbl Hsz Hoff Hw.
  unfold AxiLiteRamRead.process_read, lift, mbind, M_bind.
  rewrite !read_addr_Ok, !py_mod_Ok, Hoff by done.
  unfold mmap_seek, mmap_read, set_mem, store in *. rewrite Hw.
  by destruct (_ || _).
Qed.

End dependence.

Section dependence_properties.

Lemma process_write_store_eqv (self : AxiLiteRamWrite.t) (aw : AWBeat)
    (wb1 wb2 : WBeat) :
  wdata wb1 = wdata wb2 →
  (∀ i, i < AxiLiteRamWrite.byte_lanes self →
     strb_bit (getattr (wstrb wb1) (AxiLiteRamWrite.strb_mask self)) i
     = strb_bit (getattr (wstrb wb2) (AxiLiteRamWrite.strb_mask self)) i) →
  store_eqv (AxiLiteRamWrite.process_write self aw wb1)
    (AxiLiteRamWrite.process_write self aw wb2).
Proof.
  intros Hdata Hbits. unfold AxiLiteRamWrite.process_write.
  apply store_eqv_lift_bind. intros [addr prot]. by apply process_w_eqv.
Qed.

(** X5. The two engines share one file object and so one file position,
    but every transaction seeks before it touches the store: what a write
    or a read returns, and the bytes that a write leaves, only depend on
    the bytes of the store, not on the position or the log that the
    other engine, or an earlier transaction, left behind. *)
Theorem shared_position_does_not_leak (ws : AxiLiteRamWrite.t)
    (rs : AxiLiteRamRead.t) (aw : AWBeat) (wb : WBeat) (ar : ARBeat)
    (w w' : World) :
  store w = store w' →
  (AxiLiteRamWrite.process_write ws aw wb w).2
  = (AxiLiteRamWrite.process_write ws aw wb w').2
  ∧ store (AxiLiteRamWrite.process_write ws aw wb w).1
    = store (AxiLiteRamWrite.process_write ws aw wb w').1
  ∧ (AxiLiteRamRead.process_read rs ar w).2
    = (AxiLiteRamRead.process_read rs ar w').2.
Proof.
  intros Hw.
  destruct (process_write_store_eqv ws aw wb wb eq_refl (λ _ _, eq_refl) w w' Hw)
    as [Hr Hs].
  split_and!; [done|done|].
  unfold AxiLiteRamRead.process_read, lift, mbind, M_bind.
  destruct (AxiLiteRamRead.read_addr rs ar) as [addr|e]; [|done].
  destruct (py_mod _ _) as [off|e]; [|done].
  unfold mmap_seek, mmap_read, set_mem, store in *. rewrite Hw.
  by destruct (_ || _).
Qed.

Lemma shared_position_does_not_leak_witness :
  (AxiLiteRamRead.process_read demo_read (MkAR 0x20 None)
     (AxiLiteRamRead.process_read demo_read (MkAR 0x10 None) demo_world).1).2
  = (AxiLiteRamRead.process_read demo_read (MkAR 0x20 None) demo_world).2.
Proof.
  apply (shared_position_does_not_leak demo_write demo_read (MkAW 0 None)
           (MkW 0 None)).
  reflexivity.
Defined.

(** X6. The strobe bits above the byte lanes have no effect: two masks
    that agree on bits 0 to [byte_lanes - 1] give the same outcome and the
    same store; in particular a mask can be reduced to its [byte_lanes]
    low bits. *)
Theorem strobe_high_bits_ignored (self : AxiLiteRamWrite.t) (aw : AWBeat)
    (d m1 m2 : Z) (w : World) :
  let bl := AxiLiteRamWrite.byte_lanes self in
  (∀ i, i < bl → Z.testbit m1 (Z.of_nat i) = Z.testbit m2 (Z.of_nat i)) →
  ((AxiLiteRamWrite.process_write self aw (MkW d (Some m1)) w).2
   = (AxiLiteRamWrite.process_write self aw (MkW d (Some m2)) w).2
   ∧ store (AxiLiteRamWrite.process_write self aw (MkW d (Some m1)) w).1
     = store (AxiLiteRamWrite.process_write self aw (MkW d (Some m2)) w).1)
  ∧ ∀ i, i < bl →
      Z.testbit (Z.land m1 (2 ^ Z.of_nat bl - 1)) (Z.of_nat i)
      = Z.testbit m1 (Z.of_nat i).
Proof.
  intros bl Hbits. split.
  - apply (process_write_store_eqv self aw (MkW d (Some m1)) (MkW d (Some m2)));
      [done| |done].
    intros i Hi. simpl. rewrite !strb_bit_testbit. by apply Hbits.
  - intros i Hi. rewrite Z.land_spec.
    replace (2 ^ Z.of_nat bl - 1)%Z with (Z.ones (Z.of_nat bl))
      by (rewrite Z.ones_equiv; lia).
    rewrite Z.ones_spec_low by lia. apply andb_true_r.
Qed.

Lemma strobe_high_bits_ignored_witness :
  store (AxiLiteRamWrite.process_write demo_write (MkAW 0x10 None)
           (MkW 0xAABBCCDD (Some 0x33%Z)) demo_world).1
  = store (AxiLiteRamWrite.process_write demo_write (MkAW 0x10 None)
             (MkW 0xAABBCCDD (Some 3%Z)) demo_world).1.
Proof.
  apply (strobe_high_bits_ignored demo_write (MkAW 0x10 None) 0xAABBCCDD
           0x33 3 demo_world).
  intros [|[|[|[|i]]]] Hi; try reflexivity. simpl in Hi. lia.
Defined.

(** X7. Addresses alias: two address beats that lead to the same offset in
    the store are served alike, the write leaves the same bytes and the
    read returns the same beat.  That is so for an address and the
    aligned address of its word, and, when the size of the store is a
    multiple of [byte_lanes], for two addresses a multiple of the size
    apart. *)
Theorem addresses_alias (ws : AxiLiteRamWrite.t) (rs : AxiLiteRamRead.t)
    (a1 a2 : Z) (p1 p2 : option Z) (wb : WBeat) (w : World) :
  let wl := AxiLiteRamWrite.byte_lanes ws in
  let rl := AxiLiteRamRead.byte_lanes rs in
  let wsz := AxiLiteRamWrite.size ws in
  let rsz := AxiLiteRamRead.size rs in
  0 < wl → 0 < wsz → 0 < rl → 0 < rsz →
  (offset wsz (aligned wl a1) = offset wsz (aligned wl a2) →
   (AxiLiteRamWrite.process_write ws (MkAW a1 p1) wb w).2
   = (AxiLiteRamWrite.process_write ws (MkAW a2 p2) wb w).2
   ∧ store (AxiLiteRamWrite.process_write ws (MkAW a1 p1) wb w).1
     = store (AxiLiteRamWrite.process_write ws (MkAW a2 p2) wb w).1)
  ∧ (offset rsz (aligned rl a1) = offset rsz (aligned rl a2) →
     answer_of (AxiLiteRamRead.process_read rs (MkAR a1 p1) w).2
     = answer_of (AxiLiteRamRead.process_read rs (MkAR a2 p2) w).2)
  ∧ (∀ n a, 0 < n → aligned n (aligned n a) = aligned n a)
  ∧ (∀ n sz a k, 0 < n → 0 < sz → (n | sz) →
       offset sz (aligned n (a + k * Z.of_nat sz)) = offset sz (aligned n a)).
Proof.
  intros wl rl wsz rsz Hwl Hwsz Hrl Hrsz. split_and!.
  - intros Hoff.
    by apply (process_write_eqv ws (MkAW a1 p1) (MkAW a2 p2) wb wb).
  - intros Hoff.
    by apply (process_read_eqv rs (MkAR a1 p1) (MkAR a2 p2)).
  - intros n a Hn. unfold aligned. rewrite Z.div_mul by lia. done.
  - intros n sz a k Hn Hsz [q ->]. unfold offset, aligned. f_equal.
    rewrite Nat2Z.inj_mul.
    replace (a + k * (Z.of_nat q * Z.of_nat n))%Z
      with (a + (k * Z.of_nat q) * Z.of_nat n)%Z by lia.
    rewrite Z.div_add by lia.
    rewrite Z.mul_add_distr_r.
    replace (k * Z.of_nat q * Z.of_nat n)%Z
      with (k * (Z.of_nat q * Z.of_nat n))%Z by lia.
    apply Z.mod_add. lia.
Qed.

Lemma addresses_alias_witness :
  store (AxiLiteRamWrite.process_write demo_write (MkAW (0x12 + 2048) None)
           (MkW 0xAABBCCDD None) demo_world).1
  = store (AxiLiteRamWrite.process_write demo_write (MkAW 0x10 (Some 1%Z))
             (MkW 0xAABBCCDD None) demo_world).1.
Proof.
  destruct (addresses_alias demo_write demo_read (0x12 + 2048) 0x10 None
              (Some 1%Z) (MkW 0xAABBCCDD None) demo_world)
    as (Hw & _); try (simpl; lia).
  apply Hw. reflexivity.
Defined.

End dependence_properties.

Section composition.
Import AxiLiteRamWrite.

Lemma le_octets_from_bytes (data : list byte) :
  le_octets (length data) (from_bytes data) = data.
Proof.
  induction data as [|b data IH]; [done|].
  simpl length. simpl from_bytes. simpl le_octets.
  pose proof (Z_of_byte_range b) as Hb.
  assert ((Z_of_byte b + 256 * from_bytes data) mod 256 = Z_of_byte b)%Z as ->.
  { rewrite Z.mul_comm, Z.mod_add by lia. apply Z.mod_small. lia. }
  assert ((Z_of_byte b + 256 * from_bytes data) / 256 = from_bytes data)%Z as ->.
  { rewrite Z.mul_comm, Z.div_add by lia. rewrite Z.div_small by lia. lia. }
  by rewrite byte_of_Z_of_byte, IH.
Qed.

Lemma process_write_lookup (self : t) (aw : AWBeat) (wb : WBeat) (w : World) :
  let bl := byte_lanes self in
  let off := offset (size self) (aligned bl (awaddr aw)) in
  let strb := getattr (wstrb wb) (strb_mask self) in
  0 < bl →
  size self = length (store w) →
  off + bl ≤ size self →
  (0 ≤ wdata wb < 2 ^ (8 * Z.of_nat bl))%Z →
  (process_write self aw wb w).2 = Ok {| bresp := OKAY |}
  ∧ length (store (process_write self aw wb w).1) = length (store w)
  ∧ ∀ j, store (process_write self aw wb w).1 !! j
         = written_byte off bl strb (le_octets bl (wdata wb)) j (store w !! j).
Proof.
  intros bl off strb Hbl Hsize Hfit Hdata.
  destruct (process_write_fits self aw wb w Hbl Hsize) as (buf' & -> & Hlen & Hin & Hout);
    [split; [lia|done]|done|].
  unfold store. simpl. split_and!; [done|done|].
  intros j. unfold written_byte. case_decide as Hj.
  - specialize (Hin (j - off)). fold bl off strb in Hin.
    replace (off + (j - off)) with j in Hin by lia. apply Hin. lia.
  - by apply Hout.
Qed.

Lemma offset_aligned_multiple (sz lanes : nat) (addr : Z) :
  0 < lanes → 0 < sz → (lanes | sz) →
  ∃ k, offset sz (aligned lanes addr) = k * lanes.
Proof.
  intros Hl Hs [q ->]. unfold offset, aligned.
  rewrite Nat2Z.inj_mul, Z.mul_mod_distr_r by lia.
  pose proof (Z.mod_pos_bound (addr / Z.of_nat lanes) (Z.of_nat q)).
  exists (Z.to_nat ((addr / Z.of_nat lanes) mod Z.of_nat q)). lia.
Qed.

(** X8. In a store whose size is a multiple of [byte_lanes], two writes to
    different words commute: both succeed in either order and leave the
    same bytes. *)
Theorem writes_to_different_words_commute (self : t) (aw1 aw2 : AWBeat)
    (wb1 wb2 : WBeat) (w : World) :
  let bl := byte_lanes self in
  let off1 := offset (size self) (aligned bl (awaddr aw1)) in
  let off2 := offset (size self) (aligned bl (awaddr aw2)) in
  let w1 := (process_write self aw1 wb1 w).1 in
  let w2 := (process_write self aw2 wb2 w).1 in
  0 < bl → 0 < size self → (bl | size self) →
  size self = length (store w) →
  (0 ≤ wdata wb1 < 2 ^ (8 * Z.of_nat bl))%Z →
  (0 ≤ wdata wb2 < 2 ^ (8 * Z.of_nat bl))%Z →
  off1 ≠ off2 →
  (process_write self aw1 wb1 w).2 = Ok {| bresp := OKAY |}
  ∧ (process_write self aw2 wb2 w1).2 = Ok {| bresp := OKAY |}
  ∧ (process_write self aw2 wb2 w).2 = Ok {| bresp := OKAY |}
  ∧ (process_write self aw1 wb1 w2).2 = Ok {| bresp := OKAY |}
  ∧ store (process_write self aw2 wb2 w1).1
    = store (process_write self aw1 wb1 w2).1.
Proof.
  intros bl off1 off2 w1 w2 Hbl Hsz Hdiv Hsize Hd1 Hd2 Hne.
  destruct (divide_run_fits (size self) bl (awaddr aw1) Hbl Hsz Hdiv) as [_ Hf1].
  destruct (divide_run_fits (size self) bl (awaddr aw2) Hbl Hsz Hdiv) as [_ Hf2].
  destruct (offset_aligned_multiple (size self) bl (awaddr aw1) Hbl Hsz Hdiv)
    as [k1 Hk1].
  destruct (offset_aligned_multiple (size self) bl (awaddr aw2) Hbl Hsz Hdiv)
    as [k2 Hk2].
  fold off1 in Hf1, Hk1. fold off2 in Hf2, Hk2.
  destruct (process_write_lookup self aw1 wb1 w Hbl Hsize Hf1 Hd1)
    as (Hr1 & Hl1 & Hb1).
  destruct (process_write_lookup self aw2 wb2 w Hbl Hsize Hf2 Hd2)
    as (Hr2 & Hl2 & Hb2).
  fold w1 in Hl1, Hb1. fold w2 in Hl2, Hb2. fold bl off1 in Hb1. fold bl off2 in Hb2.
  assert (size self = length (store w1)) as Hsize1 by congruence.
  assert (size self = length (store w2)) as Hsize2 by congruence.
  destruct (process_write_lookup self aw2 wb2 w1 Hbl Hsize1 Hf2 Hd2)
    as (Hr12 & Hl12 & Hb12).
  destruct (process_write_lookup self aw1 wb1 w2 Hbl Hsize2 Hf1 Hd1)
    as (Hr21 & Hl21 & Hb21).
  split_and!; [done..|].
  apply list_eq. intros j. rewrite Hb12, Hb21, Hb1, Hb2.
  fold bl off1 off2. unfold written_byte.
  assert (off1 + bl ≤ off2 ∨ off2 + bl ≤ off1) as Hdis.
  { assert (k1 < k2 ∨ k2 < k1) as [Hk|Hk] by (destruct (decide (k1 = k2)); [subst; lia|lia]).
    - left. rewrite Hk1, Hk2. transitivity (S k1 * bl); [lia|]. apply Nat.mul_le_mono_r. lia.
    - right. rewrite Hk1, Hk2. transitivity (S k2 * bl); [lia|]. apply Nat.mul_le_mono_r. lia. }
  repeat case_decide; try lia; done.
Qed.

Lemma writes_to_different_words_commute_witness :
  store (process_write demo_write (MkAW 0x20 None) (MkW 0x11223344 None)
           (process_write demo_write (MkAW 0x10 None) (MkW 0xAABBCCDD (Some 5%Z))
              demo_world).1).1
  = store (process_write demo_write (MkAW 0x10 None) (MkW 0xAABBCCDD (Some 5%Z))
             (process_write demo_write (MkAW 0x20 None) (MkW 0x11223344 None)
                demo_world).1).1.
Proof.
  apply (writes_to_different_words_commute demo_write (MkAW 0x10 None)
           (MkAW 0x20 None) (MkW 0xAABBCCDD (Some 5%Z)) (MkW 0x11223344 None)
           demo_world); try (simpl; lia); try reflexivity.
  - exists 256. reflexivity.
  - vm_compute. lia.
Defined.

(** X9. Two writes to the same word merge lane by lane: afterwards a lane
    holds the octet of the second write where the second strobe selects
    it, else the octet of the first write where the first strobe selects
    it, else what it held before.  So a second write whose strobe covers
    the lanes of the first hides the first write altogether. *)
Theorem second_write_wins (self : t) (aw1 aw2 : AWBeat) (wb1 wb2 : WBeat)
    (w : World) :
  let bl := byte_lanes self in
  let off := offset (size self) (aligned bl (awaddr aw1)) in
  let m1 := getattr (wstrb wb1) (strb_mask self) in
  let m2 := getattr (wstrb wb2) (strb_mask self) in
  let w1 := (process_write self aw1 wb1 w).1 in
  let w12 := (process_write self aw2 wb2 w1).1 in
  0 < bl →
  size self = length (store w) →
  off + bl ≤ size self →
  offset (size self) (aligned bl (awaddr aw2)) = off →
  (0 ≤ wdata wb1 < 2 ^ (8 * Z.of_nat bl))%Z →
  (0 ≤ wdata wb2 < 2 ^ (8 * Z.of_nat bl))%Z →
  (∀ i, i < bl →
     store w12 !! (off + i)
     = if strb_bit m2 i then le_octets bl (wdata wb2) !! i
       else if strb_bit m1 i then le_octets bl (wdata wb1) !! i
       else store w !! (off + i))
  ∧ (∀ j, ¬ (off ≤ j < off + bl) → store w12 !! j = store w !! j)
  ∧ ((∀ i, i < bl → strb_bit m1 i = true → strb_bit m2 i = true) →
     store w12 = store (process_write self aw2 wb2 w).1).
Proof.
  intros bl off m1 m2 w1 w12 Hbl Hsize Hfit Hoff Hd1 Hd2.
  destruct (process_write_lookup self aw1 wb1 w Hbl Hsize Hfit Hd1)
    as (Hr1 & Hl1 & Hb1).
  fold w1 in Hl1, Hb1. fold bl off m1 in Hb1.
  assert (size self = length (store w1)) as Hsize1 by congruence.
  assert (offset (size self) (aligned bl (awaddr aw2)) + bl ≤ size self)
    as Hfit2 by (rewrite Hoff; done).
  destruct (process_write_lookup self aw2 wb2 w1 Hbl Hsize1 Hfit2 Hd2)
    as (Hr12 & Hl12 & Hb12).
  destruct (process_write_lookup self aw2 wb2 w Hbl Hsize Hfit2 Hd2)
    as (Hr2 & Hl2 & Hb2).
  fold w12 in Hl12, Hb12. fold bl m2 in Hb12, Hb2.
  rewrite Hoff in Hb12, Hb2.
  split_and!.
  - intros i Hi. rewrite Hb12, Hb1. unfold written_byte.
    rewrite !decide_True by lia.
    replace (off + i - off) with i by lia. done.
  - intros j Hj. rewrite Hb12, Hb1. unfold written_byte.
    by rewrite !decide_False by done.
  - intros Hcover. apply list_eq. intros j. rewrite Hb12, Hb1, Hb2.
    unfold written_byte. case_decide as Hj; [|done].
    destruct (strb_bit m2 (j - off)) eqn:H2; [done|].
    destruct (strb_bit m1 (j - off)) eqn:H1; [|done].
    rewrite Hcover in H2; [done|lia|done].
Qed.

Lemma second_write_wins_witness :
  store (process_write demo_write (MkAW 0x10 None) (MkW 0x11223344 None)
           (process_write demo_write (MkAW 0x12 None) (MkW 0xAABBCCDD (Some 5%Z))
              demo_world).1).1
  = store (process_write demo_write (MkAW 0x10 None) (MkW 0x11223344 None)
             demo_world).1.
Proof.
  apply (second_write_wins demo_write (MkAW 0x12 None) (MkAW 0x10 None)
           (MkW 0xAABBCCDD (Some 5%Z)) (MkW 0x11223344 None) demo_world);
    try (simpl; lia); try reflexivity.
  intros [|[|[|[|i]]]] Hi _; try reflexivity. simpl in Hi. lia.
Defined.

(** X10. Writing back the value that a read returned changes nothing,
    whatever the strobe: after a read of a word that lies inside the
    store, a write of the returned data to the same address succeeds and
    leaves every byte of the store as it was. *)
Theorem write_back_of_read_data (ws : t) (rs : AxiLiteRamRead.t)
    (a : Z) (pr pw : option Z) (strb : option Z) (w : World) :
  let bl := byte_lanes ws in
  let off := offset (size ws) (aligned bl a) in
  let w1 := (AxiLiteRamRead.process_read rs (MkAR a pr) w).1 in
  0 < bl →
  AxiLiteRamRead.byte_lanes rs = bl →
  AxiLiteRamRead.size rs = size ws →
  size ws = length (store w) →
  off + bl ≤ size ws →
  ∃ r,
    answer_of (AxiLiteRamRead.process_read rs (MkAR a pr) w).2 = Some r
    ∧ (process_write ws (MkAW a pw) (MkW (rdata r) strb) w1).2
      = Ok {| bresp := OKAY |}
    ∧ store (process_write ws (MkAW a pw) (MkW (rdata r) strb) w1).1 = store w.
Proof.
  intros bl off w1 Hbl Hrl Hrs Hsize Hfit.
  assert (AxiLiteRamRead.process_read rs (MkAR a pr) w
          = (set_mem {| mem_buf := store w;
                        mem_pos := off + length (take bl (drop off (store w))) |} w,
             Ok (aligned bl a, AxiProt_of (getattr pr NONSECURE),
                 take bl (drop off (store w)),
                 {| rdata := from_bytes (take bl (drop off (store w)));
                    rresp := OKAY |}))) as Hread.
  { pose proof (process_read_Ok rs (MkAR a pr) w) as H.
    simpl in H. rewrite Hrl, Hrs in H. apply H; lia. }
  subst w1. rewrite Hread. simpl.
  set (data := take bl (drop off (store w))).
  set (w1 := set_mem _ w).
  assert (length data = bl) as Hlen.
  { unfold data. rewrite length_take, length_drop. lia. }
  exists {| rdata := from_bytes data; rresp := OKAY |}. split; [done|].
  assert (store w1 = store w) as Hst by done.
  assert (size ws = length (store w1)) as Hsize1 by (rewrite Hst; done).
  assert (0 ≤ from_bytes data < 2 ^ (8 * Z.of_nat bl))%Z as Hrange.
  { rewrite <- Hlen. apply from_bytes_range. }
  destruct (process_write_lookup ws (MkAW a pw) (MkW (from_bytes data) strb) w1
              Hbl Hsize1 Hfit Hrange) as (Hr & Hl & Hb).
  split; [done|].
  apply list_eq. intros j. rewrite Hb, Hst. simpl. fold bl off.
  unfold written_byte. case_decide as Hj; [|done].
  destruct (strb_bit _ _); [|done].
  rewrite <- Hlen at 1. rewrite le_octets_from_bytes. unfold data.
  rewrite lookup_take_lt by lia. rewrite lookup_drop. f_equal. lia.
Qed.

Lemma write_back_of_read_data_witness :
  ∃ r,
    answer_of (AxiLiteRamRead.process_read demo_read (MkAR 0x10 None) demo_world).2
    = Some r
    ∧ (process_write demo_write (MkAW 0x10 None) (MkW (rdata r) (Some 6%Z))
         (AxiLiteRamRead.process_read demo_read (MkAR 0x10 None) demo_world).1).2
      = Ok {| bresp := OKAY |}
    ∧ store (process_write demo_write (MkAW 0x10 None) (MkW (rdata r) (Some 6%Z))
               (AxiLiteRamRead.process_read demo_read (MkAR 0x10 None)
                  demo_world).1).1
      = store demo_world.
Proof.
  apply (write_back_of_read_data demo_write demo_read 0x10 None None
           (Some 6%Z) demo_world); try reflexivity; simpl; lia.
Defined.

End composition.

Section more_runs.
Import AxiLiteRam.

Lemma write_step_store (ev : AxiLiteRamWrite.Event) (w : World)
    (self : AxiLiteRamWrite.t) :
  (∀ wb, AxiLiteRamWrite.RecvW wb ∉ (AxiLiteRamWrite.step ev w self).2) →
  store (AxiLiteRamWrite.step ev w self).1.1 = store w.
Proof.
  destruct ev as [aw|wb| |tid|state]; cbn [AxiLiteRamWrite.step].
  - by destruct (offer _ _).
  - by destruct (offer _ _).
  - by destruct (transmit _) as [[b ch]|].
  - unfold AxiLiteRamWrite._process_write.
    destruct (_ !! tid) as [[|aw addr prot|b]|]; [| | |done].
    + destruct (recv _) as [[aw ch]|]; [|done].
      by destruct (AxiLiteRamWrite.process_aw _ aw) as [[addr prot]|e].
    + destruct (recv _) as [[wb ch]|]; [|done].
      destruct (AxiLiteRamWrite.process_w _ addr prot wb w) as [w' [b|e]];
        intros Hno; exfalso; apply (Hno wb); simpl; apply elem_of_cons; by left.
    + by destruct (transmitted _).
  - intros _. unfold AxiLiteRamWrite._handle_reset.
    destruct state; [apply log_info_store|].
    destruct (AxiLiteRamWrite._process_write_cr self); apply log_info_store.
Qed.

(** X11. The store only changes in a step in which the write engine takes
    a data beat: over any schedule in which it takes none, whatever else
    happens (address beats, reads, responses, resets in either direction),
    every byte of the store stays as it was.  In particular a reset does
    not clear the memory. *)
Theorem store_changes_only_with_data_beat (evs : list Event) (ram : t) :
  (∀ wb, ByWrite (AxiLiteRamWrite.RecvW wb) ∉ (run evs ram).2) →
  store (world (run evs ram).1) = store (world ram).
Proof.
  revert ram. induction evs as [|ev evs IH]; intros ram Hno; [done|].
  rewrite run_cons in Hno |- *. cbn [fst snd] in *.
  rewrite IH.
  - destruct ev as [e|e].
    + rewrite step_OnWrite. cbn [fst world]. apply write_step_store.
      intros wb Hin. apply (Hno wb). apply elem_of_app. left.
      rewrite step_OnWrite. cbn [snd].
      by apply (list_elem_of_fmap_2 ByWrite).
    + rewrite step_OnRead. cbn [fst world]. apply read_step_store.
  - intros wb Hin. apply (Hno wb). apply elem_of_app. by right.
Qed.

Lemma store_changes_only_with_data_beat_witness :
  store (world (run [OnWrite (AxiLiteRamWrite.PresentAW (MkAW 0x10 None));
                     OnWrite (AxiLiteRamWrite.Resume 0);
                     OnRead (AxiLiteRamRead.PresentAR (MkAR 0x20 None));
                     OnRead (AxiLiteRamRead.Resume 0);
                     OnWrite (AxiLiteRamWrite.Notify true);
                     OnWrite (AxiLiteRamWrite.PresentW (MkW 0xAABBCCDD None));
                     OnWrite (AxiLiteRamWrite.Notify false);
                     OnWrite (AxiLiteRamWrite.Resume 1);
                     OnRead AxiLiteRamRead.AcceptR] demo_started).1)
  = store (world demo_started).
Proof.
  apply store_changes_only_with_data_beat.
  intros wb Hin. vm_compute in Hin.
  repeat (apply elem_of_cons in Hin as [Hin|Hin]; [discriminate Hin|]).
  by apply elem_of_nil in Hin.
Defined.

(** X12. Nothing that happens to the slave changes the length of the store
    or the configuration of an interface: after any schedule, also one in
    which an engine has failed or a reset has come, the store has as many
    bytes as before, and [size], [byte_lanes], [strb_mask], [width] and the
    logging switch of both interfaces are as they were. *)
Theorem store_length_and_configuration_fixed (evs : list Event) (ram : t) :
  let ram' := (run evs ram).1 in
  length (store (world ram')) = length (store (world ram))
  ∧ (AxiLiteRamWrite.size (write_if ram') = AxiLiteRamWrite.size (write_if ram)
     ∧ AxiLiteRamWrite.byte_lanes (write_if ram')
       = AxiLiteRamWrite.byte_lanes (write_if ram)
     ∧ AxiLiteRamWrite.strb_mask (write_if ram')
       = AxiLiteRamWrite.strb_mask (write_if ram)
     ∧ AxiLiteRamWrite.width (write_if ram')
       = AxiLiteRamWrite.width (write_if ram)
     ∧ AxiLiteRamWrite.log_enabled (write_if ram')
       = AxiLiteRamWrite.log_enabled (write_if ram))
  ∧ (AxiLiteRamRead.size (read_if ram') = AxiLiteRamRead.size (read_if ram)
     ∧ AxiLiteRamRead.byte_lanes (read_if ram')
       = AxiLiteRamRead.byte_lanes (read_if ram)
     ∧ AxiLiteRamRead.width (read_if ram')
       = AxiLiteRamRead.width (read_if ram)
     ∧ AxiLiteRamRead.log_enabled (read_if ram')
       = AxiLiteRamRead.log_enabled (read_if ram)).
Proof.
  revert ram. induction evs as [|ev evs IH]; intros ram; [done|].
  rewrite run_cons. cbn [fst].
  destruct (IH (step ev ram).1) as (Hlen & (Hw1 & Hw2 & Hw3 & Hw4 & Hw5)
                                     & (Hr1 & Hr2 & Hr3 & Hr4)).
  cbn zeta.
  rewrite Hlen, Hw1, Hw2, Hw3, Hw4, Hw5, Hr1, Hr2, Hr3, Hr4.
  destruct ev as [e|e].
  - rewrite step_OnWrite. cbn [fst world write_if read_if].
    split; [apply write_step_length|].
    split; [apply write_step_config|done].
  - rewrite step_OnRead. cbn [fst world write_if read_if].
    split; [f_equal; apply read_step_store|].
    split; [done|apply read_step_config].
Qed.

(** X13. Construction followed by the first reset notification gives the
    state from which the engines serve their beats: when the constructor
    returns, the data wires are not empty and the store is not empty, then
    after the notifications that reset is not asserted, in either order,
    each interface has exactly one instance of its loop, at the top of
    the loop, with empty queues, a positive number of byte lanes and a
    size that is the length of the store; the store is the memory it was
    constructed with. *)
Theorem constructed_then_started (wbus : AxiLiteRamWrite.Bus)
    (rbus : AxiLiteRamRead.Bus) (enabled : bool) (m : Mem) (ram : t)
    (evs : list Event) :
  __init__ wbus rbus enabled m = Ok ram →
  0 < AxiLiteRamWrite.wdata_len wbus →
  0 < AxiLiteRamRead.rdata_len rbus →
  mem_buf m ≠ [] →
  evs = [OnWrite (AxiLiteRamWrite.Notify false);
         OnRead (AxiLiteRamRead.Notify false)]
  ∨ evs = [OnRead (AxiLiteRamRead.Notify false);
           OnWrite (AxiLiteRamWrite.Notify false)] →
  let ram' := (run evs ram).1 in
  AxiLiteRamWrite.started 0 (world ram') (write_if ram')
  ∧ AxiLiteRamRead.started 0 (world ram') (read_if ram')
  ∧ AxiLiteRamWrite._process_write_cr (write_if ram') = Some 0
  ∧ AxiLiteRamRead._process_read_cr (read_if ram') = Some 0
  ∧ store (world ram') = mem_buf m
  ∧ 8 * AxiLiteRamWrite.byte_lanes (write_if ram')
    = AxiLiteRamWrite.wdata_len wbus
  ∧ 8 * AxiLiteRamRead.byte_lanes (read_if ram')
    = AxiLiteRamRead.rdata_len rbus.
Proof.
  intros Hinit Hww Hrw Hm Hevs.
  unfold __init__, AxiLiteRamWrite.__init__, AxiLiteRamRead.__init__ in Hinit.
  destruct (AxiLiteRamWrite.wstrb_len wbus) as [n|];
    unfold attribute, mbind, Res_bind in Hinit; [|done].
  destruct (_ =? n); cbn [negb] in Hinit; [|done].
  destruct (Nat.eqb_spec (AxiLiteRamWrite.wdata_len wbus `div` 8 * 8)
              (AxiLiteRamWrite.wdata_len wbus)) as [Hwd|];
    cbn [negb] in Hinit; [|done].
  destruct (Nat.eqb_spec (AxiLiteRamRead.rdata_len rbus `div` 8 * 8)
              (AxiLiteRamRead.rdata_len rbus)) as [Hrd|];
    cbn [negb] in Hinit; [|done].
  revert Hinit Hwd Hrd.
  generalize (AxiLiteRamWrite.wdata_len wbus `div` 8).
  generalize (AxiLiteRamRead.rdata_len rbus `div` 8).
  intros rl wl Hinit Hwd Hrd. injection Hinit as <-.
  assert (0 < length (mem_buf m)) by (destruct (mem_buf m); [done|simpl; lia]).
  unfold AxiLiteRamWrite.started, AxiLiteRamRead.started, Memory_size, store.
  destruct Hevs as [-> | ->]; destruct enabled; simpl;
    (split_and!; try done; try lia).
Qed.

Lemma constructed_then_started_witness :
  AxiLiteRamWrite.started 0 (world demo_started) (write_if demo_started)
  ∧ AxiLiteRamRead.started 0 (world demo_started) (read_if demo_started)
  ∧ AxiLiteRamWrite._process_write_cr (write_if demo_started) = Some 0
  ∧ AxiLiteRamRead._process_read_cr (read_if demo_started) = Some 0
  ∧ store (world demo_started) = mem_buf (mem demo_world)
  ∧ 8 * AxiLiteRamWrite.byte_lanes (write_if demo_started) = 32
  ∧ 8 * AxiLiteRamRead.byte_lanes (read_if demo_started) = 32.
Proof.
  apply (constructed_then_started (AxiLiteRamWrite.MkBus 32 32 (Some 4))
           (AxiLiteRamRead.MkBus 32 32) true (mem demo_world) demo_ram
           [OnWrite (AxiLiteRamWrite.Notify false);
            OnRead (AxiLiteRamRead.Notify false)]).
  - reflexivity.
  - simpl. lia.
  - simpl. lia.
  - discriminate.
  - by left.
Defined.

End more_runs.

Section ended_engine.
Import AxiLiteRam.

Lemma write_ended_step (ev : AxiLiteRamWrite.Event) (w : World)
    (self : AxiLiteRamWrite.t) :
  AxiLiteRamWrite.running self = ∅ →
  AxiLiteRamWrite._process_write_cr self ≠ None →
  ev ≠ AxiLiteRamWrite.Notify true →
  let r := AxiLiteRamWrite.step ev w self in
  AxiLiteRamWrite.running r.1.2 = ∅
  ∧ AxiLiteRamWrite._process_write_cr r.1.2 ≠ None
  ∧ AxiLiteRamWrite.engine_of r.2 = []
  ∧ store r.1.1 = store w.
Proof.
  intros Hrun Hcr Hev.
  destruct ev as [aw|wb| |tid|state]; cbn [AxiLiteRamWrite.step].
  - by destruct (offer _ _).
  - by destruct (offer _ _).
  - by destruct (transmit _) as [[b ch]|].
  - unfold AxiLiteRamWrite._process_write. by rewrite Hrun, lookup_empty.
  - destruct state; [done|]. unfold AxiLiteRamWrite._handle_reset.
    destruct (AxiLiteRamWrite._process_write_cr self) as [cr|] eqn:Hc; [|done].
    cbn zeta. cbn [fst snd]. rewrite Hc. split_and!; try done.
    apply log_info_store.
Qed.

Lemma read_ended_step (ev : AxiLiteRamRead.Event) (w : World)
    (self : AxiLiteRamRead.t) :
  AxiLiteRamRead.running self = ∅ →
  AxiLiteRamRead._process_read_cr self ≠ None →
  ev ≠ AxiLiteRamRead.Notify true →
  let r := AxiLiteRamRead.step ev w self in
  AxiLiteRamRead.running r.1.2 = ∅
  ∧ AxiLiteRamRead._process_read_cr r.1.2 ≠ None
  ∧ AxiLiteRamRead.engine_of r.2 = [].
Proof.
  intros Hrun Hcr Hev.
  destruct ev as [ar| |tid|state]; cbn [AxiLiteRamRead.step].
  - by destruct (offer _ _).
  - by destruct (transmit _) as [[b ch]|].
  - unfold AxiLiteRamRead._process_read. by rewrite Hrun, lookup_empty.
  - destruct state; [done|]. unfold AxiLiteRamRead._handle_reset.
    destruct (AxiLiteRamRead._process_read_cr self) as [cr|] eqn:Hc; [|done].
    cbn zeta. cbn [fst snd]. by rewrite Hc.
Qed.

Lemma write_ended_run (evs : list Event) (ram : t) :
  AxiLiteRamWrite.running (write_if ram) = ∅ →
  AxiLiteRamWrite._process_write_cr (write_if ram) ≠ None →
  OnWrite (AxiLiteRamWrite.Notify true) ∉ evs →
  AxiLiteRamWrite.running (write_if (run evs ram).1) = ∅
  ∧ AxiLiteRamWrite._process_write_cr (write_if (run evs ram).1) ≠ None
  ∧ AxiLiteRamWrite.engine_of (write_labels (run evs ram).2) = []
  ∧ store (world (run evs ram).1) = store (world ram).
Proof.
  revert ram. induction evs as [|ev evs IH]; intros ram Hrun Hcr Hno; [done|].
  rewrite run_cons. cbn [fst snd].
  apply not_elem_of_cons in Hno as [Hev Hno].
  rewrite write_labels_app, write_engine_of_app.
  destruct ev as [e|e].
  - destruct (write_ended_step e (world ram) (write_if ram) Hrun Hcr)
      as (Hrun1 & Hcr1 & Heng1 & Hst1); [congruence|].
    destruct (IH (step (OnWrite e) ram).1) as (Hrun2 & Hcr2 & Heng2 & Hst2);
      try done; try (by rewrite step_OnWrite).
    split_and!; [done|done| |].
    + rewrite Heng2, app_nil_r. rewrite step_OnWrite. cbn [snd].
      by rewrite write_labels_ByWrite.
    + rewrite Hst2. by rewrite step_OnWrite.
  - destruct (IH (step (OnRead e) ram).1) as (Hrun2 & Hcr2 & Heng2 & Hst2);
      try done; try (by rewrite step_OnRead).
    split_and!; [done|done| |].
    + rewrite Heng2, app_nil_r. rewrite step_OnRead. cbn [snd].
      by rewrite write_labels_ByRead.
    + rewrite Hst2. rewrite step_OnRead. cbn [fst world].
      apply read_step_store.
Qed.

Lemma read_ended_run (evs : list Event) (ram : t) :
  AxiLiteRamRead.running (read_if ram) = ∅ →
  AxiLiteRamRead._process_read_cr (read_if ram) ≠ None →
  OnRead (AxiLiteRamRead.Notify true) ∉ evs →
  AxiLiteRamRead.running (read_if (run evs ram).1) = ∅
  ∧ AxiLiteRamRead._process_read_cr (read_if (run evs ram).1) ≠ None
  ∧ AxiLiteRamRead.engine_of (read_labels (run evs ram).2) = [].
Proof.
  revert ram. induction evs as [|ev evs IH]; intros ram Hrun Hcr Hno; [done|].
  rewrite run_cons. cbn [fst snd].
  apply not_elem_of_cons in Hno as [Hev Hno].
  rewrite read_labels_app, read_engine_of_app.
  destruct ev as [e|e].
  - destruct (IH (step (OnWrite e) ram).1) as (Hrun2 & Hcr2 & Heng2);
      try done; try (by rewrite step_OnWrite).
    split_and!; [done|done|].
    rewrite Heng2, app_nil_r. rewrite step_OnWrite. cbn [snd].
    by rewrite read_labels_ByWrite.
  - destruct (read_ended_step e (world ram) (read_if ram) Hrun Hcr)
      as (Hrun1 & Hcr1 & Heng1); [congruence|].
    destruct (IH (step (OnRead e) ram).1) as (Hrun2 & Hcr2 & Heng2);
      try done; try (by rewrite step_OnRead).
    split_and!; [done|done|].
    rewrite Heng2, app_nil_r. rewrite step_OnRead. cbn [snd].
    by rewrite read_labels_ByRead.
Qed.

(** X14. An engine whose instance has ended while the handle still names
    it (an exception ended the loop) is only started again by a reset
    assertion: over any schedule without one, a reset deassertion
    included, no instance runs and the engine does nothing.  While the
    write engine is in that state the beats are only queued and the store
    keeps its bytes. *)
Theorem ended_engine_needs_reset_assertion (evs : list Event) (ram : t) :
  (AxiLiteRamWrite.running (write_if ram) = ∅ →
   AxiLiteRamWrite._process_write_cr (write_if ram) ≠ None →
   OnWrite (AxiLiteRamWrite.Notify true) ∉ evs →
   AxiLiteRamWrite.running (write_if (run evs ram).1) = ∅
   ∧ AxiLiteRamWrite.engine_of (write_labels (run evs ram).2) = []
   ∧ store (world (run evs ram).1) = store (world ram))
  ∧ (AxiLiteRamRead.running (read_if ram) = ∅ →
     AxiLiteRamRead._process_read_cr (read_if ram) ≠ None →
     OnRead (AxiLiteRamRead.Notify true) ∉ evs →
     AxiLiteRamRead.running (read_if (run evs ram).1) = ∅
     ∧ AxiLiteRamRead.engine_of (read_labels (run evs ram).2) = []).
Proof.
  split.
  - intros Hrun Hcr Hno.
    destruct (write_ended_run evs ram Hrun Hcr Hno) as (? & ? & ? & ?). done.
  - intros Hrun Hcr Hno.
    destruct (read_ended_run evs ram Hrun Hcr Hno) as (? & ? & ?). done.
Qed.

Lemma ended_engine_needs_reset_assertion_witness :
  let dead := (run (map OnWrite
                      [AxiLiteRamWrite.PresentAW (MkAW 4 None);
                       AxiLiteRamWrite.PresentW (MkW 0xAABBCCDD None);
                       AxiLiteRamWrite.Resume 0; AxiLiteRamWrite.Resume 0])
                 odd_started).1 in
  let evs := [OnWrite (AxiLiteRamWrite.PresentAW (MkAW 0 None));
              OnWrite (AxiLiteRamWrite.PresentW (MkW 1 None));
              OnWrite (AxiLiteRamWrite.Notify false);
              OnWrite (AxiLiteRamWrite.Resume 0);
              OnRead (AxiLiteRamRead.PresentAR (MkAR 0 None));
              OnRead (AxiLiteRamRead.Resume 0)] in
  AxiLiteRamWrite.running (write_if (run evs dead).1) = ∅
  ∧ AxiLiteRamWrite.engine_of (write_labels (run evs dead).2) = []
  ∧ store (world (run evs dead).1) = store (world dead).
Proof.
  intros dead evs.
  apply (ended_engine_needs_reset_assertion evs dead).
  - reflexivity.
  - discriminate.
  - intros Hin.
    repeat (apply elem_of_cons in Hin as [Hin|Hin]; [discriminate Hin|]).
    by apply elem_of_nil in Hin.
Defined.

End ended_engine.
